(** * RSU range field testing: the live monitor and the offline analysis

    A shallow embedding of [Raw/monitor.py] (the presence-detection loop
    running against the on-board unit) and of [Processed/analyze_loop.py]
    (timeline repair, distance features, range profiles, elevation lookup),
    followed by the properties proved about them.

    Numbers.  Python [int] is [Z].  A Python/NumPy [float] is modelled by
    [float]: a real number or NaN.  Arithmetic on the finite values is the
    exact arithmetic of [R]; rounding and the infinities are not modelled. *)

From Stdlib Require Import ZArith QArith Qround Reals Zfloor Lra Lia.
From Stdlib Require Import Bool String List Permutation Sorted.
Import ListNotations.

(* ================================================================= *)
(** * Floating-point values *)

Inductive float : Type :=
| NaN
| Fin (x : R).

Definition is_nan (a : float) : bool :=
  match a with NaN => true | Fin _ => false end.

Definition lift1 (f : R -> R) (a : float) : float :=
  match a with
  | Fin x => Fin (f x)
  | NaN => NaN
  end.

Definition lift2 (f : R -> R -> R) (a b : float) : float :=
  match a, b with
  | Fin x, Fin y => Fin (f x y)
  | _, _ => NaN
  end.

Definition fadd : float -> float -> float := lift2 Rplus.
Definition fsub : float -> float -> float := lift2 Rminus.
Definition fmul : float -> float -> float := lift2 Rmult.
Definition fdiv : float -> float -> float := lift2 Rdiv.
Definition fsqr (a : float) : float := fmul a a.

(** [math.radians] / [np.radians]: degrees to radians. *)
Definition radians : float -> float := lift1 (fun d => (d * (PI / 180))%R).

Definition fsin : float -> float := lift1 sin.
Definition fcos : float -> float := lift1 cos.

(** [atan2 y x] on the reals, quadrant by quadrant. *)
Definition atan2 (y x : R) : R :=
  if Rlt_dec 0 x then atan (y / x)
  else if Rlt_dec x 0 then
         if Rlt_dec y 0 then (atan (y / x) - PI)%R else (atan (y / x) + PI)%R
       else if Rlt_dec 0 y then (PI / 2)%R
            else if Rlt_dec y 0 then (- (PI / 2))%R
                 else 0%R.

Definition fatan2 : float -> float -> float := lift2 atan2.

(** [np.sqrt]: NaN (with a warning) below zero. *)
Definition np_sqrt (a : float) : float :=
  match a with
  | Fin x => if Rlt_dec x 0 then NaN else Fin (sqrt x)
  | NaN => NaN
  end.

(** [math.sqrt]: raises [ValueError] below zero ([None] here). *)
Definition math_sqrt (a : float) : option float :=
  match a with
  | Fin x => if Rlt_dec x 0 then None else Some (Fin (sqrt x))
  | NaN => Some NaN
  end.

(** Earth radius in metres, the constant [R] of both haversine functions. *)
Definition EARTH_R : float := Fin 6371000.

(* ================================================================= *)
(** * Raw/monitor.py *)

Definition Qlt_bool (a b : Q) : bool := negb (Qle_bool b a).

Definition sum_Z (l : list Z) : Z := fold_right Z.add 0%Z l.

Module Monitor.

(** ** Configuration *)

Definition REMOTE_RX_FILE : string := "/mnt/rw/log/current/rx.pcap".
Definition PACKET_SIZE_BYTES : Z := 98.
Definition POLL_INTERVAL_SEC : Z := 1.
Definition ENTRY_SECONDS : Z := 3.
Definition EXIT_SECONDS : Z := 4.
Definition PPS_WINDOW_SEC : Z := 4.
Definition MPH_FACTOR : float := Fin 2.23693629.

(** ** The remote size read *)

(** What [sftp.stat(path)] does on one call. *)
Inductive stat_outcome : Type :=
| StatOk (st_size : Z)
| StatFileNotFoundError
| StatIOError            (* any other [OSError] *)
| StatSSHException
| StatEOFError
| StatOtherError.        (* an exception no handler of the function names *)

(** The SFTP session as one call sees it. *)
Definition sftp_client : Type := string -> stat_outcome.

(** A call either returns or lets an exception through. *)
Inductive raising (A : Type) : Type :=
| Returned (a : A)
| Raised.
Arguments Returned {A} a.
Arguments Raised {A}.

(** [get_remote_file_size(sftp, path)]; Python's [None] is [None]. *)
Definition get_remote_file_size (sftp : sftp_client) (path : string)
  : raising (option Z) :=
  match sftp path with
  | StatOk st_size => Returned (Some st_size)
  | StatFileNotFoundError => Returned (Some 0%Z)
  | StatIOError | StatSSHException | StatEOFError => Returned None
  | StatOtherError => Raised
  end.

(** [haversine_m(lat1, lon1, lat2, lon2)]. *)
Definition haversine_m (lat1 lon1 lat2 lon2 : float) : option float :=
  let phi1 := radians lat1 in
  let phi2 := radians lat2 in
  let dphi := radians (fsub lat2 lat1) in
  let dlambda := radians (fsub lon2 lon1) in
  let a := fadd (fsqr (fsin (fdiv dphi (Fin 2))))
                (fmul (fmul (fcos phi1) (fcos phi2))
                      (fsqr (fsin (fdiv dlambda (Fin 2))))) in
  match math_sqrt a, math_sqrt (fsub (Fin 1) a) with
  | Some s1, Some s2 => Some (fmul EARTH_R (fmul (Fin 2) (fatan2 s1 s2)))
  | _, _ => None
  end.

(** ** Records written by the loop *)

Inductive presence : Type := OUTSIDE | INSIDE.

Inductive event_type : Type := ENTRY | EXIT.

(** The reason string of an event: ["pps=<pps> for 3s (smoothed)"] or
    ["pps~0 for 4s (smoothed)"]. *)
Inductive reason : Type :=
| ReasonEntry (pps : Q)
| ReasonExit.

(** A row of [events_<ts>.csv] ([record_event]). *)
Record event_row : Type := {
  ev_timestamp : string;
  ev_type : event_type;
  ev_reason : reason;
  ev_lat : option float;
  ev_lon : option float
}.

(** A row of [metrics_<ts>.csv] ([append_metrics_row]). *)
Record metrics_row : Type := {
  m_timestamp : string;
  m_rx_size : Z;
  m_delta_bytes : Z;
  m_pps : Q;
  m_pdr : Q;
  m_latitude : option float;
  m_longitude : option float;
  m_speed_mph : option float
}.

(** ** The loop *)

(** The local variables of [main] that live across iterations. *)
Record loop_state : Type := {
  prev_size : Z;
  state : presence;
  entry_counter : Z;
  exit_counter : Z;
  delta_history : list Z;
  events_list : list event_row;
  last_gps_lat : option float;
  last_gps_lon : option float;
  last_gps_time : option Z
}.

(** What the outside world answers during one iteration: the SFTP session,
    the clock ([current_timestamp()], [datetime.now()]), the GPS fix read for
    the metrics row and the one read again if an event fires
    ([read_gps_from_kinematics]: both coordinates or neither). *)
Record tick_input : Type := {
  sftp : sftp_client;
  ts : string;
  gps : option (float * float);
  now_dt : Z;
  gps_at_event : option (float * float)
}.

Definition initial_state (size0 : Z) : loop_state :=
  {| prev_size := size0; state := OUTSIDE;
     entry_counter := 0; exit_counter := 0;
     delta_history := []; events_list := [];
     last_gps_lat := None; last_gps_lon := None; last_gps_time := None |}.

(** [delta_history.append(delta_bytes)], then [pop(0)] when over the window. *)
Definition push_window (h : list Z) (delta_bytes : Z) : list Z :=
  let h' := h ++ [delta_bytes] in
  if (PPS_WINDOW_SEC <? Z.of_nat (length h'))%Z then tl h' else h'.

Definition compute_pps (h : list Z) : Q :=
  if ((0 <? PACKET_SIZE_BYTES)%Z && (0 <? Z.of_nat (length h))%Z)%bool then
    let window_secs := (Z.of_nat (length h) * POLL_INTERVAL_SEC)%Z in
    let packets := (inject_Z (sum_Z h) / inject_Z PACKET_SIZE_BYTES)%Q in
    (packets / inject_Z window_secs)%Q
  else 0%Q.

Definition compute_pdr (h : list Z) : Q :=
  if (0 <? sum_Z h)%Z then 1%Q else 0%Q.

(** The speed of the GPS block.  [dt = float(POLL_INTERVAL_SEC)], so the test
    [dt > 0] is the test on the integer constant. *)
Definition compute_speed (st : loop_state) (gps_fix : option (float * float))
  : raising (option float) :=
  match gps_fix with
  | Some (lat, lon) =>
      match last_gps_lat st, last_gps_lon st, last_gps_time st with
      | Some llat, Some llon, Some _ =>
          let dt := Fin (IZR POLL_INTERVAL_SEC) in
          if (0 <? POLL_INTERVAL_SEC)%Z then
            match haversine_m llat llon lat lon with
            | Some dist_m =>
                let speed_mps := fdiv dist_m dt in
                Returned (Some (fmul speed_mps MPH_FACTOR))
            | None => Raised
            end
          else Returned None
      | _, _, _ => Returned None
      end
  | None => Returned None
  end.

(** The counters after the [if pps > 0] block. *)
Definition update_counters (pps : Q) (entry_counter exit_counter : Z) : Z * Z :=
  if Qlt_bool 0 pps then ((entry_counter + 1)%Z, 0%Z)
  else (0%Z, (exit_counter + 1)%Z).

(** [record_event]: the row is always written; the in-memory list (and the
    map) only grows when the event has a position. *)
Definition record_event (e : event_row) (events : list event_row)
  : list event_row :=
  match ev_lat e, ev_lon e with
  | Some _, Some _ => events ++ [e]
  | _, _ => events
  end.

Inductive tick_outcome : Type :=
| TickBreak                       (* size is None: the loop breaks *)
| TickRaised                      (* an exception leaves the loop *)
| TickContinue (st' : loop_state) (row : metrics_row) (ev : option event_row).

(** One iteration of [while True]. *)
Definition tick (st : loop_state) (i : tick_input) : tick_outcome :=
  match get_remote_file_size (sftp i) REMOTE_RX_FILE with
  | Raised => TickRaised
  | Returned None => TickBreak
  | Returned (Some size) =>
      let delta_bytes := Z.max 0 (size - prev_size st) in
      let h := push_window (delta_history st) delta_bytes in
      let pps := compute_pps h in
      let pdr := compute_pdr h in
      match compute_speed st (gps i) with
      | Raised => TickRaised
      | Returned speed_mph =>
          let '(llat, llon, ltime) :=
            match gps i with
            | Some (lat, lon) => (Some lat, Some lon, Some (now_dt i))
            | None => (last_gps_lat st, last_gps_lon st, last_gps_time st)
            end in
          let row :=
            {| m_timestamp := ts i; m_rx_size := size;
               m_delta_bytes := delta_bytes; m_pps := pps; m_pdr := pdr;
               m_latitude := option_map fst (gps i);
               m_longitude := option_map snd (gps i);
               m_speed_mph := speed_mph |} in
          let '(entry, exit) :=
            update_counters pps (entry_counter st) (exit_counter st) in
          let mk s en ex evs :=
            {| prev_size := size; state := s;
               entry_counter := en; exit_counter := ex;
               delta_history := h; events_list := evs;
               last_gps_lat := llat; last_gps_lon := llon;
               last_gps_time := ltime |} in
          match state st with
          | OUTSIDE =>
              if (ENTRY_SECONDS <=? entry)%Z then
                let e := {| ev_timestamp := ts i; ev_type := ENTRY;
                            ev_reason := ReasonEntry pps;
                            ev_lat := option_map fst (gps_at_event i);
                            ev_lon := option_map snd (gps_at_event i) |} in
                TickContinue
                  (mk INSIDE 0%Z exit (record_event e (events_list st)))
                  row (Some e)
              else TickContinue (mk OUTSIDE entry exit (events_list st)) row None
          | INSIDE =>
              if (EXIT_SECONDS <=? exit)%Z then
                let e := {| ev_timestamp := ts i; ev_type := EXIT;
                            ev_reason := ReasonExit;
                            ev_lat := option_map fst (gps_at_event i);
                            ev_lon := option_map snd (gps_at_event i) |} in
                TickContinue
                  (mk OUTSIDE entry 0%Z (record_event e (events_list st)))
                  row (Some e)
              else TickContinue (mk INSIDE entry exit (events_list st)) row None
          end
      end
  end.

(** The value of [exit_counter] on an iteration right after the
    [if pps > 0] block, before any transition resets it. *)
Definition exit_counter_at (st : loop_state) (i : tick_input) : Z :=
  match get_remote_file_size (sftp i) REMOTE_RX_FILE with
  | Returned (Some size) =>
      let h := push_window (delta_history st)
                           (Z.max 0 (size - prev_size st)) in
      snd (update_counters (compute_pps h) (entry_counter st) (exit_counter st))
  | _ => exit_counter st
  end.

(** How the loop ended: the inputs ran out (the operator's Ctrl+C), the
    connection was lost, or an exception escaped. *)
Inductive ending : Type := Interrupted | ConnectionLost | Crashed.

(** What one completed iteration leaves behind. *)
Record tick_log : Type := {
  before : loop_state;
  exit_seen : Z;
  row_written : metrics_row;
  event_written : option event_row
}.

(** The loop over the answers of the outside world. *)
Fixpoint run (st : loop_state) (inputs : list tick_input)
  : list tick_log * loop_state * ending :=
  match inputs with
  | [] => ([], st, Interrupted)
  | i :: rest =>
      match tick st i with
      | TickBreak => ([], st, ConnectionLost)
      | TickRaised => ([], st, Crashed)
      | TickContinue st' row ev =>
          let '(logs, final, e) := run st' rest in
          ({| before := st; exit_seen := exit_counter_at st i;
              row_written := row; event_written := ev |} :: logs, final, e)
      end
  end.

(** [main] from the first size read on. *)
Definition main (sftp0 : sftp_client) (inputs : list tick_input)
  : list tick_log * ending :=
  match get_remote_file_size sftp0 REMOTE_RX_FILE with
  | Raised => ([], Crashed)
  | Returned None => ([], ConnectionLost)
  | Returned (Some size0) =>
      let '(logs, _, e) := run (initial_state size0) inputs in (logs, e)
  end.

End Monitor.

(* ================================================================= *)
(** * Processed/analyze_loop.py *)

(** ** Helpers shared by the pandas/NumPy operations *)

(** Equality of stored values: the one [drop_duplicates], [groupby] and
    [merge] use, under which two NaN are the same value. *)
Definition float_eq_dec (a b : float) : {a = b} + {a <> b}.
Proof.
  decide equality. apply Req_dec_T.
Defined.

(** Python's [==] on floats: NaN equals nothing, itself included. *)
Definition py_float_eqb (a b : float) : bool :=
  match a, b with
  | Fin x, Fin y => if Req_dec_T x y then true else false
  | _, _ => false
  end.

Definition Rleb (x y : R) : bool := if Rle_dec x y then true else false.

Section ListOps.
Context {A : Type}.

(** Insertion sort along a boolean order. *)
Fixpoint insert_sorted (leb : A -> A -> bool) (x : A) (l : list A) : list A :=
  match l with
  | [] => [x]
  | y :: l' => if leb x y then x :: l else y :: insert_sorted leb x l'
  end.

Fixpoint sort_by (leb : A -> A -> bool) (l : list A) : list A :=
  match l with
  | [] => []
  | x :: l' => insert_sorted leb x (sort_by leb l')
  end.

(** First occurrences, in order of appearance. *)
Fixpoint unique_from (eq_dec : forall a b : A, {a = b} + {a <> b})
         (seen : list A) (l : list A) : list A :=
  match l with
  | [] => []
  | x :: l' =>
      if in_dec eq_dec x seen then unique_from eq_dec seen l'
      else x :: unique_from eq_dec (x :: seen) l'
  end.

Definition unique (eq_dec : forall a b : A, {a = b} + {a <> b})
           (l : list A) : list A :=
  unique_from eq_dec [] l.

End ListOps.

Fixpoint dropna {A : Type} (l : list (option A)) : list A :=
  match l with
  | [] => []
  | Some x :: l' => x :: dropna l'
  | None :: l' => dropna l'
  end.

Definition sum_R (l : list R) : R := fold_right Rplus 0%R l.

Fixpoint finite_values (l : list float) : list R :=
  match l with
  | [] => []
  | Fin x :: l' => x :: finite_values l'
  | NaN :: l' => finite_values l'
  end.

(** A pandas group mean: NaN are skipped, and nothing left gives NaN. *)
Definition mean_skipna (l : list float) : float :=
  match finite_values l with
  | [] => NaN
  | v => Fin (sum_R v / INR (length v))
  end.

Module AnalyzeLoop.

(** ** Timeline repair *)

Definition NS_PER_S : Z := 1000000000.

(** [base + pd.to_timedelta(np.arange(n), unit="s")], in nanoseconds. *)
Definition one_hz (base : Z) (n : nat) : list (option Z) :=
  map (fun i => Some (base + Z.of_nat i * NS_PER_S)%Z) (seq 0 n).

(** The mean of a boolean column; NaN ([None]) when the column is empty. *)
Definition bool_mean (l : list bool) : option Q :=
  match l with
  | [] => None
  | _ => Some (inject_Z (Z.of_nat (length (filter (fun b => b) l)))
               / inject_Z (Z.of_nat (length l)))%Q
  end.

(** [m > c] for a mean that may be NaN: false on NaN. *)
Definition mean_gt (m : option Q) (c : Q) : bool :=
  match m with
  | Some q => Qlt_bool c q
  | None => false
  end.

Definition isna {A : Type} (x : option A) : bool :=
  match x with None => true | Some _ => false end.

Fixpoint consecutive_diffs (l : list Z) : list Z :=
  match l with
  | a :: (b :: _) as l' => (b - a)%Z :: consecutive_diffs l'
  | _ => []
  end.

(** [t.sort_values().diff().dt.total_seconds().dropna()]: the valid
    timestamps in ascending order (NaT sort last and give NaT differences,
    which [dropna] removes), differenced, in seconds. *)
Definition sorted_diffs (t : list (option Z)) : list Q :=
  map (fun d => (inject_Z d / inject_Z NS_PER_S)%Q)
      (consecutive_diffs (sort_by Z.leb (dropna t))).

(** [Series.median()]: the middle value, or the mean of the two middle ones. *)
Definition median (l : list Q) : Q :=
  let s := sort_by Qle_bool l in
  let n := length s in
  if Nat.even n
  then ((nth (n / 2 - 1) s 0 + nth (n / 2) s 0) / 2)%Q
  else nth (n / 2) s 0%Q.

Section Timeline.
(** The raw timestamp values and [pd.to_datetime(ts, errors="coerce")]:
    nanoseconds since the epoch, [None] for NaT. *)
Variable raw : Type.
Variable to_datetime : list raw -> list (option Z).

Definition parse_timestamp_series (ts : list raw) : list (option Z) :=
  let t := to_datetime ts in
  if mean_gt (bool_mean (map isna t)) (5 # 10) then
    let base := 0%Z in
    one_hz base (length ts)
  else
    let diffs := sorted_diffs t in
    if (0 <? length diffs)%nat then
      let zero_frac := bool_mean (map (fun d => Qeq_bool d 0) diffs) in
      let med := median diffs in
      if (mean_gt zero_frac (2 # 10) || Qeq_bool med 0)%bool then
        let base := hd 0%Z (dropna t) in
        one_hz base (length ts)
      else t
    else t.

End Timeline.

(** ** Reference points and tables *)

Record RSU : Type := {
  rsu_id : string;
  lat : float;
  lon : float
}.

(** A row of the metrics table as [compute_time_features] leaves it (the
    columns the later steps read). *)
Record sample : Type := {
  timestamp : option Z;
  latitude : float;
  longitude : float;
  delta_bytes : float;
  has_pkts : Z;
  time_since_last_pkt : float
}.

(** One element of [haversine_m_np]: a sample against a fixed point. *)
Definition haversine_m_np1 (lat1 lon1 lat2 lon2 : float) : float :=
  let lat1 := radians lat1 in
  let lon1 := radians lon1 in
  let lat2 := radians lat2 in
  let lon2 := radians lon2 in
  let dlat := fsub lat2 lat1 in
  let dlon := fsub lon2 lon1 in
  let a := fadd (fsqr (fsin (fdiv dlat (Fin 2))))
                (fmul (fmul (fcos lat1) (fcos lat2))
                      (fsqr (fsin (fdiv dlon (Fin 2))))) in
  let c := fmul (Fin 2) (fatan2 (np_sqrt a) (np_sqrt (fsub (Fin 1) a))) in
  fmul EARTH_R c.

(** [haversine_m_np(lat1, lon1, lat2, lon2)]: [lat1]/[lon1] are the two
    coordinate columns of one table, [lat2]/[lon2] scalars. *)
Definition haversine_m_np (lat1 lon1 : list float) (lat2 lon2 : float)
  : list float :=
  map (fun p => haversine_m_np1 (fst p) (snd p) lat2 lon2) (combine lat1 lon1).

(** ** Distance features *)

(** NumPy's comparison in [argmin] and [min]: the candidate replaces the
    best value so far when it is smaller or NaN; a NaN best is final. *)
Definition lt_or_nan (x best : float) : bool :=
  match best, x with
  | NaN, _ => false
  | Fin _, NaN => true
  | Fin b, Fin a => if Rlt_dec a b then true else false
  end.

Fixpoint argmin_from (best_i : nat) (best : float) (i : nat) (l : list float)
  : nat :=
  match l with
  | [] => best_i
  | x :: l' =>
      if lt_or_nan x best then argmin_from i x (S i) l'
      else argmin_from best_i best (S i) l'
  end.

(** [np.argmin] of one (non-empty) row. *)
Definition np_argmin (row : list float) : nat :=
  match row with
  | [] => 0
  | x :: l => argmin_from 0 x 1 l
  end.

Fixpoint min_from (best : float) (l : list float) : float :=
  match l with
  | [] => best
  | x :: l' => min_from (if lt_or_nan x best then x else best) l'
  end.

(** [np.min] of one (non-empty) row: NaN as soon as one entry is NaN. *)
Definition np_min (row : list float) : float :=
  match row with
  | [] => NaN
  | x :: l => min_from x l
  end.

(** [np.vstack(cols).T] for [n] rows: row [i] collects entry [i] of every
    column. *)
Definition transpose (n : nat) (cols : list (list float)) : list (list float) :=
  map (fun i => map (fun c => nth i c NaN) cols) (seq 0 n).

(** [metrics[col] = d]: a column of that name is replaced, a new one is
    appended. *)
Fixpoint set_column (col : string) (d : list float)
         (cols : list (string * list float)) : list (string * list float) :=
  match cols with
  | [] => [(col, d)]
  | (c, v) :: cols' =>
      if string_dec c col then (c, d) :: cols'
      else (c, v) :: set_column col d cols'
  end.

Definition dist_column_name (r : RSU) : string :=
  ("dist_" ++ rsu_id r ++ "_m")%string.

(** The metrics table with the columns the distance step adds:
    [dist_columns] are the columns [dist_<id>_m] written by the loop over
    the references, under their names; [nearest_rsu], [dist_from_rsu_m] and
    [dist_union_m] are what the assignments after the loop write, the last
    one only with two references or more. *)
Record enhanced : Type := {
  samples : list sample;
  dist_columns : list (string * list float);
  nearest_rsu : list string;
  dist_from_rsu_m : list float;
  dist_union_m : option (list float)
}.

(** [metrics[name]] on the named columns: the column of that name, if
    there is one. *)
Fixpoint lookup_column (name : string) (cols : list (string * list float))
  : option (list float) :=
  match cols with
  | [] => None
  | (c, v) :: cols' =>
      if string_dec c name then Some v else lookup_column name cols'
  end.

(** The distance columns of the table under their names.  The table has
    one namespace: the assignments made after the loop over the references
    ([dist_from_rsu_m] always, [dist_union_m] when it is made) replace a
    column of that name the loop wrote for a reference called [from_rsu] or
    [union]; where no such assignment was made, the column of the loop is
    the column of the table. *)
Definition column (e : enhanced) (name : string) : option (list float) :=
  if string_dec name "dist_from_rsu_m" then Some (dist_from_rsu_m e)
  else if string_dec name "dist_union_m" then
         match dist_union_m e with
         | Some u => Some u
         | None => lookup_column name (dist_columns e)
         end
       else lookup_column name (dist_columns e).

(** The distance columns of the loop over [rsus], in input order. *)
Definition distance_matrix (metrics : list sample) (rsus : list RSU)
  : list (list float) :=
  map (fun r => haversine_m_np (map latitude metrics) (map longitude metrics)
                               (lat r) (lon r)) rsus.

Definition default_rsu : RSU := {| rsu_id := ""; lat := NaN; lon := NaN |}.

(** [add_distance_features_metrics(metrics, rsus)].  [np.vstack] raises
    [ValueError] on an empty list of columns: [None]. *)
Definition add_distance_features_metrics (metrics : list sample)
           (rsus : list RSU) : option enhanced :=
  let cols := distance_matrix metrics rsus in
  let named :=
    fold_left (fun acc rd => set_column (dist_column_name (fst rd)) (snd rd) acc)
              (combine rsus cols) [] in
  match cols with
  | [] => None
  | _ =>
      let dist_matrix := transpose (length metrics) cols in
      let nearest_idx := map np_argmin dist_matrix in
      Some {| samples := metrics;
              dist_columns := named;
              nearest_rsu :=
                map (fun i => rsu_id (nth i rsus default_rsu)) nearest_idx;
              dist_from_rsu_m :=
                map (fun ri => nth (snd ri) (fst ri) NaN)
                    (combine dist_matrix nearest_idx);
              dist_union_m :=
                if (1 <? length rsus)%nat then Some (map np_min dist_matrix)
                else None |}
  end.

(** ** Range profiles *)

(** [d // bin_m] on floats.  A zero divisor gives NaN here (NumPy gives an
    infinity or NaN, and the product with the zero width is NaN either way). *)
Definition floor_divide (d bin_m : float) : float :=
  match d, bin_m with
  | Fin x, Fin w =>
      if Req_dec_T w 0 then NaN else Fin (IZR (Zfloor (x / w)))
  | _, _ => NaN
  end.

(** [(d // bin_m) * bin_m]: the lower edge of the bin of [d]. *)
Definition dist_bin (d bin_m : float) : float :=
  fmul (floor_divide d bin_m) bin_m.

(** A group key: the nearest reference when the table is grouped by it, and
    the lower edge of the bin. *)
Definition group_key : Type := (option string * R)%type.

Definition group_key_eq_dec (k1 k2 : group_key) : {k1 = k2} + {k1 <> k2}.
Proof.
  decide equality; [apply Req_dec_T | decide equality; apply string_dec].
Defined.

Definition option_string_compare (a b : option string) : comparison :=
  match a, b with
  | None, None => Eq
  | None, Some _ => Lt
  | Some _, None => Gt
  | Some x, Some y => String.compare x y
  end.

(** Lexicographic order on group keys: reference first, then bin. *)
Definition group_key_leb (k1 k2 : group_key) : bool :=
  match option_string_compare (fst k1) (fst k2) with
  | Lt => true
  | Gt => false
  | Eq => Rleb (snd k1) (snd k2)
  end.

(** A row of the table being grouped: its key (absent when the bin is NaN,
    which [groupby] drops) and the three aggregated columns. *)
Record keyed_row : Type := {
  kr_key : option group_key;
  kr_has_pkts : Z;
  kr_delta_bytes : float;
  kr_time_since_last_pkt : float
}.

Record profile_row : Type := {
  pr_nearest_rsu : option string;
  dist_bin_m : R;
  n_samples : nat;
  coverage_fraction : float;
  mean_delta_bytes : float;
  mean_time_since_last_pkt : float;
  dist_bin_center_m : float
}.

Definition profile_key (p : profile_row) : group_key :=
  (pr_nearest_rsu p, dist_bin_m p).

Definition has_key (k : group_key) (r : keyed_row) : bool :=
  match kr_key r with
  | Some k' => if group_key_eq_dec k' k then true else false
  | None => false
  end.

(** The aggregate of one group ([size] and the three means), with the
    bin centre added at the end of the build. *)
Definition aggregate (bin_m : float) (rows : list keyed_row) (k : group_key)
  : profile_row :=
  let g := filter (has_key k) rows in
  {| pr_nearest_rsu := fst k;
     dist_bin_m := snd k;
     n_samples := length g;
     coverage_fraction := mean_skipna (map (fun r => Fin (IZR (kr_has_pkts r))) g);
     mean_delta_bytes := mean_skipna (map kr_delta_bytes g);
     mean_time_since_last_pkt := mean_skipna (map kr_time_since_last_pkt g);
     dist_bin_center_m := fadd (Fin (snd k)) (fdiv bin_m (Fin 2)) |}.

(** [df.groupby(group_cols).agg(...).reset_index().sort_values(group_cols)]:
    one row per key present, keys in ascending order ([groupby] sorts them,
    and [sort_values] sorts the rows again). *)
Definition groupby_agg (bin_m : float) (rows : list keyed_row)
  : list profile_row :=
  let keys := sort_by group_key_leb
                      (unique group_key_eq_dec (dropna (map kr_key rows))) in
  sort_by (fun p q => group_key_leb (profile_key p) (profile_key q))
          (map (aggregate bin_m rows) keys).

Definition make_key (grouped : bool) (name : string) (bin : float)
  : option group_key :=
  match bin with
  | Fin b => Some (if grouped then Some name else None, b)
  | NaN => None
  end.

(** [build_range_profile_nearest(metrics, bin_m)]. *)
Definition build_range_profile_nearest (metrics : enhanced) (bin_m : float)
  : list profile_row :=
  let bins := map (fun d => dist_bin d bin_m) (dist_from_rsu_m metrics) in
  let grouped :=
    (1 <? length (unique string_dec (nearest_rsu metrics)))%nat in
  let rows :=
    map (fun x =>
           let '(s, name, b) := x in
           {| kr_key := make_key grouped name b;
              kr_has_pkts := has_pkts s;
              kr_delta_bytes := delta_bytes s;
              kr_time_since_last_pkt := time_since_last_pkt s |})
        (combine (combine (samples metrics) (nearest_rsu metrics)) bins) in
  groupby_agg bin_m rows.

Inductive build_error : Type := ValueError (msg : string).

(** [build_range_profile_union(metrics, bin_m)]. *)
Definition build_range_profile_union (metrics : enhanced) (bin_m : float)
  : build_error + list profile_row :=
  match column metrics "dist_union_m" with
  | None =>
      inl (ValueError
             "Union profile requested but dist_union_m not available (need >=2 RSUs).")
  | Some union =>
      let bins := map (fun d => dist_bin d bin_m) union in
      let rows :=
        map (fun x =>
               let '(s, b) := x in
               {| kr_key := make_key false ""%string b;
                  kr_has_pkts := has_pkts s;
                  kr_delta_bytes := delta_bytes s;
                  kr_time_since_last_pkt := time_since_last_pkt s |})
            (combine (samples metrics) bins) in
      inr (groupby_agg bin_m rows)
  end.

(** ** Elevation *)

(** [Series.round(decimals)] on one value: to the nearest multiple of
    [10^-decimals], halves to the even neighbour. *)
Definition rint (x : R) : Z :=
  let f := Zfloor x in
  let r := (x - IZR f)%R in
  if Rlt_dec r (1 / 2) then f
  else if Rlt_dec (1 / 2) r then (f + 1)%Z
       else if Z.even f then f else (f + 1)%Z.

Definition round_decimals_of (decimals : Z) : float -> float :=
  lift1 (fun x => (IZR (rint (x * powerRZ 10 decimals)) / powerRZ 10 decimals)%R).

Definition coord : Type := (float * float)%type.

Definition coord_eq_dec (k1 k2 : coord) : {k1 = k2} + {k1 <> k2}.
Proof.
  decide equality; apply float_eq_dec.
Defined.

(** Equality of two keys of the cache dictionary: tuples of floats built
    afresh, so a NaN component equals nothing. *)
Definition coord_eqb (k1 k2 : coord) : bool :=
  (py_float_eqb (fst k1) (fst k2) && py_float_eqb (snd k1) (snd k2))%bool.

(** The cache dictionary, in insertion order. *)
Definition elev_cache : Type := list (coord * float).

Fixpoint cache_get (cache : elev_cache) (key : coord) : option float :=
  match cache with
  | [] => None
  | (k, v) :: cache' => if coord_eqb k key then Some v else cache_get cache' key
  end.

Definition cache_mem (cache : elev_cache) (key : coord) : bool :=
  match cache_get cache key with Some _ => true | None => false end.

Fixpoint cache_set (cache : elev_cache) (key : coord) (v : float) : elev_cache :=
  match cache with
  | [] => [(key, v)]
  | (k, v') :: cache' =>
      if coord_eqb k key then (k, v) :: cache'
      else (k, v') :: cache_set cache' key v
  end.

(** What the resolver does to the outside world, in order. *)
Inductive elev_io : Type :=
| Query (lat_r lon_r : float)      (* one call of [fetch_elevation_point_epqs] *)
| Sleep (seconds : R).             (* one call of [time.sleep] *)

Section Elevation.
(** The elevation service: what the call number [n] (counted from 0 within
    the batch) of [fetch_elevation_point_epqs(lat, lon)] does, the elevation
    or [None] when it raises. *)
Variable fetch_elevation_point_epqs : nat -> float -> float -> option float.

(** The loop [for attempt in range(1, max_retries + 1)] for one coordinate,
    from call number [calls]: the elevation if an attempt succeeded, the
    queries and sleeps made, and the call number reached. *)
Fixpoint retry_loop (attempts : list nat) (calls : nat) (lat_r lon_r : float)
  : option float * list elev_io * nat :=
  match attempts with
  | [] => (None, [], calls)
  | attempt :: rest =>
      match fetch_elevation_point_epqs calls lat_r lon_r with
      | Some e => (Some e, [Query lat_r lon_r], S calls)
      | None =>
          let '(r, io, calls') := retry_loop rest (S calls) lat_r lon_r in
          (r, Query lat_r lon_r :: Sleep (0.4 * INR attempt) :: io, calls')
      end
  end.

(** The state threaded through the loop over the missing coordinates. *)
Record resolver_state : Type := {
  cache_now : elev_cache;
  io_log : list elev_io;
  calls_made : nat
}.

(** The body of [for idx, (lat_r, lon_r) in enumerate(missing, start=1)]. *)
Definition resolve_point (max_retries : Z) (sleep_s : R)
           (st : resolver_state) (key : coord) : resolver_state :=
  let '(lat_r, lon_r) := key in
  let '(r, io, calls') :=
    retry_loop (seq 1 (Z.to_nat max_retries)) (calls_made st) lat_r lon_r in
  {| cache_now :=
       match r with
       | Some e => cache_set (cache_now st) key e
       | None => cache_set (cache_now st) key NaN
       end;
     io_log := io_log st ++ io ++ [Sleep sleep_s];
     calls_made := calls' |}.

Definition rounded_coords (round_decimals : Z) (df : list sample) : list coord :=
  map (fun s => (round_decimals_of round_decimals (latitude s),
                 round_decimals_of round_decimals (longitude s))) df.

(** The list [missing]: the unique rounded coordinates the cache lacks. *)
Definition missing_coords (round_decimals : Z) (cache : elev_cache)
           (df : list sample) : list coord :=
  filter (fun key => negb (cache_mem cache key))
         (unique coord_eq_dec (rounded_coords round_decimals df)).

Record elevation_result : Type := {
  elevation_m : list float;
  cache_saved : elev_cache;
  io_done : list elev_io
}.

(** [add_elevation_column(df, ...)], given the cache [load_elev_cache]
    returned (empty without a cache file). *)
Definition add_elevation_column (df : list sample) (round_decimals : Z)
           (sleep_s : R) (cache : elev_cache) (max_retries : Z)
  : elevation_result :=
  let missing := missing_coords round_decimals cache df in
  let final :=
    fold_left (resolve_point max_retries sleep_s) missing
              {| cache_now := cache; io_log := []; calls_made := 0 |} in
  {| elevation_m :=
       map (fun key => match cache_get (cache_now final) key with
                       | Some v => v
                       | None => NaN
                       end)
           (rounded_coords round_decimals df);
     cache_saved := cache_now final;
     io_done := io_log final |}.

End Elevation.

End AnalyzeLoop.

(* ================================================================= *)
(** * Vocabulary of the statements *)

(** Degrees to radians on the reals, and the haversine term [a] as both
    distance functions compute it on finite input. *)
Definition deg (d : R) : R := (d * (PI / 180))%R.

Definition hav_a (phi1 phi2 dphi dlambda : R) : R :=
  (sin (dphi / 2) * sin (dphi / 2)
   + cos phi1 * cos phi2 * (sin (dlambda / 2) * sin (dlambda / 2)))%R.

(** A latitude a receiver can report: NaN, or within the poles. *)
Definition valid_lat (a : float) : Prop :=
  match a with
  | NaN => True
  | Fin x => (-90 <= x <= 90)%R
  end.

Module MonitorSpec.
Import Monitor.

(** The errors the second handler of [get_remote_file_size] names. *)
Definition connection_error (o : stat_outcome) : Prop :=
  o = StatIOError \/ o = StatSSHException \/ o = StatEOFError.

(** A byte-delta stream of all zeros: every size read succeeds and does not
    exceed the size read before it. *)
Fixpoint zero_deltas (prev : Z) (inputs : list tick_input) : Prop :=
  match inputs with
  | [] => True
  | i :: rest =>
      exists size,
        get_remote_file_size (sftp i) REMOTE_RX_FILE = Returned (Some size)
        /\ (size <= prev)%Z /\ zero_deltas size rest
  end.

Definition fix_valid (g : option (float * float)) : Prop :=
  match g with
  | Some (lat, _) => valid_lat lat
  | None => True
  end.

(** Every fix the receiver reports has its latitude between the poles. *)
Definition gps_ok (inputs : list tick_input) : Prop :=
  Forall (fun i => fix_valid (gps i)) inputs.

(** What holds of the loop variables in every state the loop reaches. *)
Record reachable_shape (st : loop_state) : Prop := {
  rs_entry : (0 <= entry_counter st)%Z;
  rs_exit : (0 <= exit_counter st)%Z;
  rs_inside : state st = INSIDE -> (exit_counter st < EXIT_SECONDS)%Z;
  rs_outside : state st = OUTSIDE -> (entry_counter st < ENTRY_SECONDS)%Z;
  rs_window : (Z.of_nat (length (delta_history st)) <= PPS_WINDOW_SEC)%Z;
  rs_deltas : Forall (fun d => (0 <= d)%Z) (delta_history st);
  rs_fix : match last_gps_lat st with
           | Some lat => valid_lat lat
           | None => True
           end
}.

Definition is_event (t : event_type) (l : tick_log) : Prop :=
  exists e, event_written l = Some e /\ ev_type e = t.

(** An iteration that writes no event and whose [exit_counter] stays below
    the threshold. *)
Definition quiet (l : tick_log) : Prop :=
  event_written l = None /\ (exit_seen l < EXIT_SECONDS)%Z.

Definition silent (l : tick_log) : Prop := event_written l = None.

(** The log of a run with exactly one EXIT: it fires on the first iteration
    whose [exit_counter] reaches the threshold, no event is written before
    it and none (neither EXIT nor ENTRY) after it. *)
Definition one_exit (logs : list tick_log) : Prop :=
  exists pre x post,
    logs = pre ++ x :: post
    /\ Forall quiet pre
    /\ is_event EXIT x /\ exit_seen x = EXIT_SECONDS
    /\ Forall silent post.



(** An answer of the outside world: the file holds [size] bytes and the
    receiver reports [g]. *)
Definition answer (size : Z) (g : option (float * float)) : tick_input :=
  {| sftp := fun _ => StatOk size; ts := ""; gps := g; now_dt := 0;
     gps_at_event := g |}.

(** Inside coverage after three active seconds, the window still full. *)
Definition inside_after_entry : loop_state :=
  {| prev_size := 294; state := INSIDE;
     entry_counter := 0; exit_counter := 0;
     delta_history := [98; 98; 98]%Z; events_list := [];
     last_gps_lat := None; last_gps_lon := None; last_gps_time := None |}.

(** The trailing zeros of the window, and the number of silent iterations
    within which the EXIT must fire from a window ending in [k] zeros and an
    [exit_counter] of [c]. *)
Definition ends_with_zeros (k : nat) (h : list Z) : Prop :=
  exists h0, h = h0 ++ repeat 0%Z k.

Definition exit_bound (k : nat) (c : Z) : Z :=
  if (k <? 3)%nat then (7 - Z.of_nat k)%Z else (4 - c)%Z.

Definition one_exit_within (b : Z) (logs : list tick_log) : Prop :=
  exists pre x post,
    logs = pre ++ x :: post
    /\ Forall quiet pre
    /\ is_event EXIT x /\ exit_seen x = EXIT_SECONDS
    /\ Forall silent post
    /\ (Z.of_nat (length pre) < b)%Z.

Definition fix_shape (st : loop_state) : Prop :=
  match last_gps_lat st with
  | Some lat => valid_lat lat
  | None => True
  end.

(** The types of the events a run wrote, in order. *)
Definition event_types (logs : list tick_log) : list event_type :=
  flat_map (fun l => match event_written l with
                     | Some e => [ev_type e]
                     | None => []
                     end) logs.

Definition other_event (t : event_type) : event_type :=
  match t with ENTRY => EXIT | EXIT => ENTRY end.

(** Events that alternate, the first one being [next]. *)
Fixpoint alternates (next : event_type) (l : list event_type) : Prop :=
  match l with
  | [] => True
  | t :: l' => t = next /\ alternates (other_event next) l'
  end.

(** The event the loop can write next. *)
Definition next_event (st : loop_state) : event_type :=
  match state st with OUTSIDE => ENTRY | INSIDE => EXIT end.

Definition count_events (t : event_type) (logs : list tick_log) : nat :=
  length (filter (fun l => match event_written l with
                           | Some e => match ev_type e, t with
                                       | ENTRY, ENTRY | EXIT, EXIT => true
                                       | _, _ => false
                                       end
                           | None => false
                           end) logs).

End MonitorSpec.

Module MonitorExamples.
Import Monitor MonitorSpec.

(** The first iteration of a run that sees 98 new bytes and no fix. *)
Definition first_state : loop_state :=
  {| prev_size := 98; state := OUTSIDE; entry_counter := 1; exit_counter := 0;
     delta_history := [98%Z]; events_list := [];
     last_gps_lat := None; last_gps_lon := None; last_gps_time := None |}.





End MonitorExamples.

Module LoopShape.
Import Monitor MonitorSpec.

(** What holds of the counters and of the window in every state the loop
    reaches, whatever the receiver reports. *)
Record loop_shape (st : loop_state) : Prop := {
  ls_entry : (0 <= entry_counter st)%Z;
  ls_exit : (0 <= exit_counter st)%Z;
  ls_inside : state st = INSIDE -> (exit_counter st < EXIT_SECONDS)%Z;
  ls_outside : state st = OUTSIDE -> (entry_counter st < ENTRY_SECONDS)%Z;
  ls_window : (Z.of_nat (length (delta_history st)) <= PPS_WINDOW_SEC)%Z;
  ls_deltas : Forall (fun d => (0 <= d)%Z) (delta_history st)
}.


End LoopShape.

Module TimelineSpec.
Import AnalyzeLoop.

Definition count_true (l : list bool) : nat := length (filter (fun b => b) l).

(** More than half of the values failed to parse. *)
Definition mostly_unparsed (t : list (option Z)) : Prop :=
  (length t < 2 * count_true (map isna t))%nat.

(** The differences of the parsed values, in ascending order of time, in
    nanoseconds. *)
Definition ns_diffs (t : list (option Z)) : list Z :=
  consecutive_diffs (sort_by Z.leb (dropna t)).

(** More than 20% of the differences are zero, or their median is. *)
Definition too_coarse (t : list (option Z)) : Prop :=
  ns_diffs t <> []
  /\ ((length (ns_diffs t) < 5 * count_true (map (Z.eqb 0) (ns_diffs t)))%nat
      \/ (median (sorted_diffs t) == 0)%Q).

(** A timestamp on every row (no NaT), strictly increasing down the rows. *)
Definition time_ordered (out : list (option Z)) : Prop :=
  exists v, out = map Some v /\ StronglySorted Z.lt v.

(** One row per second from [base]. *)
Definition one_second_steps (base : Z) (out : list (option Z)) : Prop :=
  forall i, (i < length out)%nat ->
            nth_error out i = Some (Some (base + Z.of_nat i * NS_PER_S)%Z).

(** Three parsed timestamps out of order, and a series with one NaT. *)
Definition out_of_order : list (option Z) :=
  [Some 5000000000; Some 3000000000; Some 9000000000]%Z.

Definition with_nat : list (option Z) :=
  [Some 0; None; Some 2000000000; Some 5000000000]%Z.

End TimelineSpec.

Module EnhancerSpec.
Import AnalyzeLoop.








Definition sample_at (la lo : R) : sample :=
  {| timestamp := Some 0%Z; latitude := Fin la; longitude := Fin lo;
     delta_bytes := Fin 98; has_pkts := 1; time_since_last_pkt := Fin 0 |}.

Definition rsu1 : RSU := {| rsu_id := "RSU1"; lat := Fin 36; lon := Fin (-97) |}.
Definition rsu2 : RSU := {| rsu_id := "RSU2"; lat := Fin 36; lon := Fin (-97) |}.




End EnhancerSpec.

Module ProfileSpec.
Import AnalyzeLoop.

(** The columns of one table have one length. *)
Definition columns_aligned (e : enhanced) : Prop :=
  length (nearest_rsu e) = length (samples e)
  /\ length (dist_from_rsu_m e) = length (samples e).

(** Whether the nearest profile is grouped by reference as well. *)
Definition by_reference (e : enhanced) : bool :=
  (1 <? length (unique string_dec (nearest_rsu e)))%nat.

(** The lower edge of the bin of a distance. *)
Definition bin_edge (d bin_m : R) : R := (IZR (Zfloor (d / bin_m)) * bin_m)%R.

(** The group key of a sample with a reference name and a distance. *)
Definition sample_key (e : enhanced) (bin_m : R) (name : string) (d : R)
  : group_key :=
  (if by_reference e then Some name else None, bin_edge d bin_m).

(** The order of the output rows: by reference, then by bin. *)
Definition key_le (k1 k2 : group_key) : Prop := group_key_leb k1 k2 = true.

Definition valid_distances (e : enhanced) : list R :=
  finite_values (dist_from_rsu_m e).

Definition total_samples (out : list profile_row) : nat :=
  list_sum (map n_samples out).

(** Whether a row counts in the group of a key. *)
Definition hit (k : group_key) (r : keyed_row) : nat :=
  if has_key k r then 1 else 0.

(** The rows the nearest profile groups: one per sample, keyed. *)
Definition nearest_rows (e : enhanced) (bin_m : float)
  : list keyed_row :=
  map (fun x =>
         let '(s, name, b) := x in
         {| kr_key :=
              make_key (by_reference e) name b;
            kr_has_pkts := has_pkts s;
            kr_delta_bytes := delta_bytes s;
            kr_time_since_last_pkt :=
              time_since_last_pkt s |})
      (combine (combine (samples e) (nearest_rsu e))
               (map (fun d => dist_bin d bin_m)
                    (dist_from_rsu_m e))).

(** A table of three samples 10 m, 60 m and 120 m from their reference. *)
Definition three_samples : enhanced :=
  {| samples :=
       [EnhancerSpec.sample_at 36 (-97); EnhancerSpec.sample_at 36 (-97);
        EnhancerSpec.sample_at 36 (-97)];
     dist_columns := [];
     nearest_rsu := ["RSU1"; "RSU1"; "RSU1"]%string;
     dist_from_rsu_m := [Fin 10; Fin 60; Fin 120];
     dist_union_m := None |}.

(** The key of a (reference, distance) pair: none for a NaN distance. *)
Definition key_of (e : enhanced) (w : R) (nd : string * float)
  : option group_key :=
  match snd nd with
  | Fin d => Some (sample_key e w (fst nd) d)
  | NaN => None
  end.

End ProfileSpec.

Module ElevationSpec.
Import AnalyzeLoop.

Definition is_query (key : coord) (ev : elev_io) : bool :=
  match ev with
  | Query lat_r lon_r => if coord_eq_dec (lat_r, lon_r) key then true else false
  | Sleep _ => false
  end.

(** How often the batch queried the service for a coordinate. *)
Definition queries_to (key : coord) (io : list elev_io) : nat :=
  length (filter (is_query key) io).

(** Failed attempts on a coordinate, each followed by its back-off sleep of
    0.4 s times the attempt number. *)
Definition failed_attempts (key : coord) (attempts : list nat) : list elev_io :=
  flat_map (fun a => [Query (fst key) (snd key); Sleep (0.4 * INR a)]) attempts.

(** What the retry loop of one coordinate does: [max] failed attempts, or
    fewer failed attempts and then a query that succeeds. *)
Definition retry_shape (max : nat) (key : coord) (seg : list elev_io) : Prop :=
  seg = failed_attempts key (seq 1 max)
  \/ exists m, (m < max)%nat
               /\ seg = failed_attempts key (seq 1 m)
                        ++ [Query (fst key) (snd key)].

(** What a batch does: the retry loop of each missing coordinate in turn,
    each followed by the pause [sleep_s]. *)
Fixpoint batch_shape (max : nat) (sleep_s : R) (missing : list coord)
         (io : list elev_io) : Prop :=
  match missing with
  | [] => io = []
  | key :: rest =>
      exists seg io',
        retry_shape max key seg
        /\ io = seg ++ Sleep sleep_s :: io'
        /\ batch_shape max sleep_s rest io'
  end.

(** The state the loop over the missing coordinates starts from. *)
Definition start_state (cache : elev_cache) : resolver_state :=
  {| cache_now := cache; io_log := []; calls_made := 0 |}.

Definition key_of_sample (round_decimals : Z) (s : sample) : coord :=
  (round_decimals_of round_decimals (latitude s),
   round_decimals_of round_decimals (longitude s)).

(** [x] scaled by [10^decimals] lies nearer to the integer [n] than to any
    other integer: rounding [x] to [decimals] places gives [n / 10^decimals]. *)
Definition rounds_to (decimals : Z) (x : float) (n : Z) : Prop :=
  match x with
  | Fin v => (Rabs (v * powerRZ 10 decimals - IZR n) < 1 / 2)%R
  | NaN => False
  end.

Definition grid_point (decimals : Z) (n : Z) : float :=
  Fin (IZR n / powerRZ 10 decimals).

(** The state of the loop over [missing] when the turn of [key] comes:
    after the coordinates listed before it. *)
Fixpoint state_before (fetch : nat -> float -> float -> option float)
         (max_retries : Z) (sleep_s : R) (missing : list coord)
         (st : resolver_state) (key : coord) : resolver_state :=
  match missing with
  | [] => st
  | k :: rest =>
      if coord_eq_dec k key then st
      else state_before fetch max_retries sleep_s rest
                        (resolve_point fetch max_retries sleep_s st k) key
  end.

(** The number of the first call the batch makes for [key]. *)
Definition first_call (fetch : nat -> float -> float -> option float)
           (max_retries : Z) (sleep_s : R) (missing : list coord)
           (cache : elev_cache) (key : coord) : nat :=
  calls_made (state_before fetch max_retries sleep_s missing
                           (start_state cache) key).

(** The [attempts] calls numbered from [call] on, made for [key], all
    fail. *)
Definition fails_from (fetch : nat -> float -> float -> option float)
           (call attempts : nat) (key : coord) : Prop :=
  forall n, (n < attempts)%nat ->
            fetch (call + n)%nat (fst key) (snd key) = None.

(** Three rows: one on the grid of five decimals, two others that differ
    from each other in the sixth decimal. *)
Definition rows_near_grid : list sample :=
  [EnhancerSpec.sample_at 37 (-97);
   EnhancerSpec.sample_at 36.000001 (-97);
   EnhancerSpec.sample_at 36.000002 (-97)].

(** A service that is down for the first three calls of the batch and
    answers 300 m from then on. *)
Definition down_for_three : nat -> float -> float -> option float :=
  fun n _ _ => if (n <? 3)%nat then None else Some (Fin 300).

(** What the cache holds for a coordinate whose every attempt failed. *)
Definition holds_nan (c : elev_cache) (key : coord)
  : Prop :=
  In (key, NaN) c
  /\ (cache_get c key = Some NaN
      \/ cache_get c key = None).

(** The durations of the sleeps of a log, in order. *)
Fixpoint sleeps (io : list elev_io) : list R :=
  match io with
  | [] => []
  | Sleep t :: io' => t :: sleeps io'
  | Query _ _ :: io' => sleeps io'
  end.

End ElevationSpec.

Module MonitorRunSpec.
Import Monitor MonitorSpec.

(** The last [n] entries of a list. *)
Definition lastn {A : Type} (n : nat) (l : list A) : list A :=
  skipn (length l - n) l.

(** The byte deltas a run wrote, in order. *)
Definition deltas_written (logs : list tick_log) : list Z :=
  map (fun l => m_delta_bytes (row_written l)) logs.

(** The events a run wrote, in order. *)
Definition events_written (logs : list tick_log) : list event_row :=
  dropna (map event_written logs).

Definition has_position (e : event_row) : bool :=
  match ev_lat e, ev_lon e with
  | Some _, Some _ => true
  | _, _ => false
  end.

(** A stream of growing sizes: every read succeeds and exceeds the one
    before it. *)
Fixpoint positive_deltas (prev : Z) (inputs : list tick_input) : Prop :=
  match inputs with
  | [] => True
  | i :: rest =>
      exists size,
        get_remote_file_size (sftp i) REMOTE_RX_FILE = Returned (Some size)
        /\ (prev < size)%Z /\ positive_deltas size rest
  end.

(** An answer whose size read fails with a lost connection. *)
Definition lost_answer : tick_input :=
  {| sftp := fun _ => StatSSHException; ts := ""; gps := None; now_dt := 0;
     gps_at_event := None |}.

(** The growth of a file from one read to the next, zero when it
    shrank: [prev] is the size read before the first of [sizes]. *)
Fixpoint growths (prev : Z) (sizes : list Z) : list Z :=
  match sizes with
  | [] => []
  | size :: rest => Z.max 0 (size - prev) :: growths size rest
  end.

(** The file sizes a run wrote, in order. *)
Definition sizes_written (logs : list tick_log) : list Z :=
  map (fun l => m_rx_size (row_written l)) logs.

(** The delivery flag of a row agrees with its rate. *)
Definition rate_consistent (l : tick_log) : Prop :=
  let row := row_written l in
  (Qlt_bool 0 (m_pps row) = true /\ m_pdr row = 1%Q)
  \/ (m_pps row == 0 /\ m_pdr row = 0%Q).

(** The log of a run with exactly one ENTRY, written on iteration
    [n] (counting from zero), and no other event. *)
Definition one_entry_at (n : Z) (logs : list tick_log) : Prop :=
  exists pre x post,
    logs = pre ++ x :: post
    /\ Forall silent pre
    /\ is_event ENTRY x
    /\ Forall silent post
    /\ Z.of_nat (length pre) = n.

(** Three seconds of driving north through coverage. *)
Definition three_active : list tick_input :=
  [answer 98 (Some (Fin 36, Fin (-97)));
   answer 196 (Some (Fin 36.001, Fin (-97)));
   answer 294 (Some (Fin 36.002, Fin (-97)))].

(** The delivery flags a run wrote, in order. *)
Definition pdr_written (logs : list tick_log) : list Q :=
  map (fun l => m_pdr (row_written l)) logs.

End MonitorRunSpec.

(** ** The map of the events *)

Module MonitorMap.
Import Monitor.

(** [sum(e[k] for e in events)]: the built-in starts from the integer 0
    and adds the terms in order; a [None] among them raises [TypeError]
    ([None] here). *)
Fixpoint py_sum (acc : float) (terms : list (option float)) : option float :=
  match terms with
  | [] => Some acc
  | Some x :: rest => py_sum (fadd acc x) rest
  | None :: _ => None
  end.

(** The first statements of [update_map]: no map for an empty list, else
    the centre of the map, the mean position of the events held. *)
Definition update_map_center (events : list event_row)
  : raising (option (float * float)) :=
  match events with
  | [] => Returned None
  | _ :: _ =>
      match py_sum (Fin 0) (map ev_lat events) with
      | None => Raised
      | Some sum_lat =>
          match py_sum (Fin 0) (map ev_lon events) with
          | None => Raised
          | Some sum_lon =>
              let n := Fin (INR (length events)) in
              Returned (Some (fdiv sum_lat n, fdiv sum_lon n))
          end
      end
  end.

End MonitorMap.

(** ** Reading the receiver *)

Module MonitorGps.
Import Stdlib.Strings.Ascii.
Import Monitor.
Local Open Scope string_scope.

(** The two parts of [s.split(c, 1)] when [c] occurs in [s]. *)
Fixpoint split_at_first (c : Ascii.ascii) (s : string)
  : option (string * string) :=
  match s with
  | EmptyString => None
  | String a rest =>
      if Ascii.eqb a c then Some (EmptyString, rest)
      else match split_at_first c rest with
           | Some (x, y) => Some (String a x, y)
           | None => None
           end
  end.

(** [s.split(c, 1)]. *)
Definition split1 (c : Ascii.ascii) (s : string) : list string :=
  match split_at_first c s with
  | Some (x, y) => [x; y]
  | None => [s]
  end.

Section ReadGps.

(** [str.strip] and [float] on strings; [None] is [ValueError]. *)
Variable strip : string -> string.
Variable float_of_string : string -> option float.

(** The value of a line: the text after its first hyphen, read as a
    float.  The outer [None] is a line without a hyphen. *)
Definition line_value (line : string) : option (option float) :=
  match split1 "-"%char line with
  | [_; v] => Some (float_of_string (strip v))
  | _ => None
  end.

(** The body of the [for] loop over the lines of the output. *)
Definition scan_line (acc : option float * option float) (raw_line : string)
  : option float * option float :=
  let line := strip raw_line in
  if prefix "latitude" line then
    match line_value line with
    | Some v => (v, snd acc)
    | None => acc
    end
  else if prefix "longitude" line then
    match line_value line with
    | Some v => (fst acc, v)
    | None => acc
    end
  else acc.

(** [read_gps_from_kinematics]: [out] holds the lines of the command's
    output, or [None] when running it or reading it raised. *)
Definition read_gps_from_kinematics (out : option (list string))
  : option float * option float :=
  match out with
  | None => (None, None)
  | Some lines =>
      match fold_left scan_line lines (None, None) with
      | (Some lat, Some lon) => (Some lat, Some lon)
      | _ => (None, None)
      end
  end.

End ReadGps.

Section Readings.

Variable strip : string -> string.
Variable float_of_string : string -> option float.

(** What the lines that start with [key] and carry a hyphen say, in the
    order of the output. *)
Definition readings (key : string) (lines : list string)
  : list (option float) :=
  flat_map (fun raw_line =>
              let line := strip raw_line in
              if prefix key line then
                match line_value strip float_of_string line with
                | Some v => [v]
                | None => []
                end
              else []) lines.

Definition last_reading (key : string) (lines : list string) : option float :=
  last (readings key lines) None.

End Readings.

End MonitorGps.

Module UnionSpec.
Import AnalyzeLoop.

(** A row of a range profile that makes sense: it counts at least one
    sample, and its coverage is a fraction. *)
Definition profile_row_ok (p : profile_row) : Prop :=
  (1 <= n_samples p)%nat
  /\ exists c, coverage_fraction p = Fin c /\ (0 <= c <= 1)%R.

(** The packet flag is 0 or 1 on every row. *)
Definition flags_ok (rows : list sample) : Prop :=
  Forall (fun s => has_pkts s = 0%Z \/ has_pkts s = 1%Z) rows.

(** A table of three samples near one of two references. *)
Definition three_samples_union : enhanced :=
  {| samples :=
       [EnhancerSpec.sample_at 36 (-97); EnhancerSpec.sample_at 36 (-97);
        EnhancerSpec.sample_at 36 (-97)];
     dist_columns := [];
     nearest_rsu := ["RSU1"; "RSU1"; "RSU1"]%string;
     dist_from_rsu_m := [Fin 10; Fin 60; Fin 120];
     dist_union_m := Some [Fin 10; Fin 60; Fin 120] |}.

(** The key of a union distance: its bin, no reference; none for NaN. *)
Definition union_key (w : R) (d : float) : option group_key :=
  match d with
  | Fin x => Some (None, ProfileSpec.bin_edge x w)
  | NaN => None
  end.

(** The rows the union profile groups: one per sample, keyed. *)
Definition union_rows (e : enhanced) (union : list float) (bin_m : float)
  : list keyed_row :=
  map (fun x =>
         let '(s, b) := x in
         {| kr_key := make_key false ""%string b;
            kr_has_pkts := has_pkts s;
            kr_delta_bytes := delta_bytes s;
            kr_time_since_last_pkt := time_since_last_pkt s |})
      (combine (samples e) (map (fun d => dist_bin d bin_m) union)).

End UnionSpec.

(** ** Time features *)

Module TimeFeatures.
Import AnalyzeLoop.

(** [Timedelta.total_seconds()]: NaN for NaT. *)
Definition total_seconds (d : option Z) : float :=
  match d with
  | Some ns => Fin (IZR ns / IZR NS_PER_S)
  | None => NaN
  end.

(** The difference of two timestamps: NaT when either is. *)
Definition tsub (a b : option Z) : option Z :=
  match a, b with
  | Some x, Some y => Some (x - y)%Z
  | _, _ => None
  end.

Fixpoint diff_from (prev : option Z) (l : list (option Z)) : list (option Z) :=
  match l with
  | [] => []
  | x :: rest => tsub x prev :: diff_from x rest
  end.

(** [Series.diff()]: NaT on the first row. *)
Definition series_diff (l : list (option Z)) : list (option Z) :=
  match l with
  | [] => []
  | x :: rest => None :: diff_from x rest
  end.

Definition fillna (v x : float) : float :=
  match x with NaN => v | Fin _ => x end.

(** [x > 0] on a float: false on NaN. *)
Definition gt_zero (x : float) : bool :=
  match x with
  | Fin v => if Rlt_dec 0 v then true else false
  | NaN => false
  end.

(** The loop over the rows after the first: [rows] pairs [delta_bytes]
    with [dt_sec]. *)
Fixpoint gaps_from (current : float) (rows : list (float * float))
  : list float :=
  match rows with
  | [] => []
  | (d, dt) :: rest =>
      let current' := if gt_zero d then Fin 0 else fadd current dt in
      current' :: gaps_from current' rest
  end.

(** The array [gaps]. *)
Definition gaps (delta_bytes dt_sec : list float) : list float :=
  match combine delta_bytes dt_sec with
  | [] => []
  | _ :: rest => Fin 0 :: gaps_from (Fin 0) rest
  end.

Section ComputeTimeFeatures.
Variable raw : Type.
Variable to_datetime : list raw -> list (option Z).

(** A row of [metrics.csv] as [main] loads it (the required columns). *)
Record metrics_in : Type := {
  in_timestamp : raw;
  in_latitude : float;
  in_longitude : float;
  in_delta_bytes : float
}.

(** A row of the table [compute_time_features] returns. *)
Record timed_sample : Type := {
  row : sample;
  t_sec : float;
  dt_sec : float
}.

(** [compute_time_features(metrics)]; [None] is the [IndexError] of
    [iloc[0]] on a table without rows. *)
Definition compute_time_features (metrics : list metrics_in)
  : option (list timed_sample) :=
  let ts := parse_timestamp_series raw to_datetime
                                   (map in_timestamp metrics) in
  match ts with
  | [] => None
  | t0 :: _ =>
      let t_sec := map (fun t => total_seconds (tsub t t0)) ts in
      let dt_sec :=
        map (fun d => fillna (Fin 0) (total_seconds d)) (series_diff ts) in
      let gaps := gaps (map in_delta_bytes metrics) dt_sec in
      Some (map (fun x =>
                   let '(m, (t, (s, (dt, g)))) := x in
                   {| row := {| timestamp := t;
                                latitude := in_latitude m;
                                longitude := in_longitude m;
                                delta_bytes := in_delta_bytes m;
                                has_pkts :=
                                  if gt_zero (in_delta_bytes m) then 1%Z
                                  else 0%Z;
                                time_since_last_pkt := g |};
                      t_sec := s;
                      dt_sec := dt |})
                (combine metrics
                         (combine ts (combine t_sec (combine dt_sec gaps)))))
  end.

End ComputeTimeFeatures.

End TimeFeatures.

Module TimeFeaturesSpec.
Import AnalyzeLoop TimeFeatures.

(** The time elapsed, in seconds, since the row that last saw packets (the
    [anchor], with its timestamp in nanoseconds); a row with packets is the
    next anchor. *)
Fixpoint since_anchor (anchor : Z) (rows : list (Z * float)) : list float :=
  match rows with
  | [] => []
  | (z, d) :: rest =>
      if gt_zero d then Fin 0 :: since_anchor z rest
      else Fin (IZR (z - anchor) / IZR NS_PER_S) :: since_anchor anchor rest
  end.

(** The first row is the first anchor. *)
Definition elapsed_since_packets (rows : list (Z * float)) : list float :=
  match rows with
  | [] => []
  | (z0, _) :: rest => Fin 0 :: since_anchor z0 rest
  end.

(** A conversion that gives one value per row. *)
Definition keeps_length {raw : Type}
           (to_datetime : list raw -> list (option Z)) : Prop :=
  forall l, length (to_datetime l) = length l.

(** Four seconds of a drive, packets on the first two. *)
Definition four_rows : list (metrics_in (option Z)) :=
  [ {| in_timestamp := Some 0%Z; in_latitude := Fin 36;
       in_longitude := Fin (-97); in_delta_bytes := Fin 98 |};
    {| in_timestamp := Some 1000000000%Z; in_latitude := Fin 36;
       in_longitude := Fin (-97); in_delta_bytes := Fin 196 |};
    {| in_timestamp := Some 2000000000%Z; in_latitude := Fin 36;
       in_longitude := Fin (-97); in_delta_bytes := Fin 0 |};
    {| in_timestamp := Some 3000000000%Z; in_latitude := Fin 36;
       in_longitude := Fin (-97); in_delta_bytes := Fin 0 |} ].

End TimeFeaturesSpec.

Module CacheSpec.
Import AnalyzeLoop.

(** A row with both coordinates present. *)
Definition located (s : sample) : Prop :=
  is_nan (latitude s) = false /\ is_nan (longitude s) = false.

(** A cache holding the elevation of one rounded coordinate. *)
Definition one_point_cache : elev_cache := [((Fin 36, Fin (-97)), Fin 300)].

(** A row at that coordinate. *)
Definition cached_sample : sample :=
  {| timestamp := Some 0%Z; latitude := Fin 36; longitude := Fin (-97);
     delta_bytes := Fin 98; has_pkts := 1; time_since_last_pkt := Fin 0 |}.

End CacheSpec.

(** ** Reference points from the command line *)

Module RsuArgs.
Import Stdlib.Strings.Ascii.
Import AnalyzeLoop.
Local Open Scope string_scope.

(** [s.split(c)]: the parts of [s] between the occurrences of [c]. *)
Fixpoint split_on (c : ascii) (s : string) : list string :=
  match s with
  | EmptyString => [EmptyString]
  | String a rest =>
      if Ascii.eqb a c then EmptyString :: split_on c rest
      else match split_on c rest with
           | x :: l => String a x :: l
           | [] => [String a EmptyString]
           end
  end.

Section ParseRsus.

(** [str.strip] and [float] on strings; [None] is [ValueError]. *)
Variable strip : string -> string.
Variable float_of_string : string -> option float.

(** The body of the [try]: [None] when an unpacking or a conversion
    raises. *)
Definition parse_item (item : string) : option RSU :=
  match split_on ":" item with
  | [name; coords] =>
      match split_on "," coords with
      | [lat_s; lon_s] =>
          match float_of_string lat_s with
          | Some la =>
              match float_of_string lon_s with
              | Some lo => Some {| rsu_id := strip name; lat := la; lon := lo |}
              | None => None
              end
          | None => None
          end
      | _ => None
      end
  | _ => None
  end.

(** The loop over the arguments. *)
Fixpoint parse_items (rsu_args : list string) (rsus : list RSU)
  : build_error + list RSU :=
  match rsu_args with
  | [] => inr rsus
  | item :: rest =>
      match parse_item item with
      | Some r => parse_items rest (rsus ++ [r])
      | None =>
          inl (ValueError ("Bad --rsu format: " ++ item
                           ++ ". Expected RSU_ID:lat,lon"))
      end
  end.

(** [parse_rsus(rsu_args)]. *)
Definition parse_rsus (rsu_args : list string) : build_error + list RSU :=
  match parse_items rsu_args [] with
  | inl e => inl e
  | inr [] => inl (ValueError "No RSUs provided. Use --rsu or --rsu-json.")
  | inr (r :: rsus) => inr (r :: rsus)
  end.

End ParseRsus.

(** What [parse_item] reads a reference from: an argument
    [name:lat_s,lon_s] whose two numerals [float] accepts. *)
Definition reads_as (strip : string -> string)
           (float_of_string : string -> option float)
           (item : string) (r : RSU) : Prop :=
  exists name lat_s lon_s,
    item = name ++ ":" ++ lat_s ++ "," ++ lon_s
    /\ rsu_id r = strip name
    /\ float_of_string lat_s = Some (lat r)
    /\ float_of_string lon_s = Some (lon r).

(** A reader for the example: the text is taken as it is, and two numerals
    are known. *)
Definition strip_id (s : string) : string := s.

Definition float_of_example (s : string) : option float :=
  if String.eqb s "36.11" then Some (Fin 36.11)
  else if String.eqb s "-97.15" then Some (Fin (-97.15))
  else None.

End RsuArgs.

Module CleanLogSpec.
Import AnalyzeLoop.

(** A log of four seconds, the rows not in the order of time. *)
Definition shuffled_seconds : list Z :=
  [2000000000; 0; 3000000000; 1000000000]%Z.

End CleanLogSpec.

(* ================================================================= *)
(** * Properties *)

(** ** Great-circle distance *)

Section HaversineCore.
Local Open Scope R_scope.

Lemma sin_half_opp_sqr (x : R) :
  sin (- x / 2) * sin (- x / 2) = sin (x / 2) * sin (x / 2).
Proof.
  replace (- x / 2) with (- (x / 2)) by lra.
  rewrite sin_neg. ring.
Qed.

Lemma hav_a_sym (p1 p2 d l : R) : hav_a p2 p1 (- d) (- l) = hav_a p1 p2 d l.
Proof.
  unfold hav_a. rewrite !sin_half_opp_sqr. ring.
Qed.

Lemma hav_a_same (p : R) : hav_a p p 0 0 = 0.
Proof.
  unfold hav_a. replace (0 / 2) with 0 by lra. rewrite sin_0. ring.
Qed.

Lemma atan2_0_1 : atan2 0 1 = 0.
Proof.
  unfold atan2. destruct (Rlt_dec 0 1) as [_|H]; [|lra].
  replace (0 / 1) with 0 by lra. apply atan_0.
Qed.

End HaversineCore.

Section HaversineEval.
Local Open Scope R_scope.
Import Monitor AnalyzeLoop.

Lemma haversine_m_fin (lat1 lon1 lat2 lon2 : R) :
  let a := hav_a (deg lat1) (deg lat2) (deg (lat2 - lat1)) (deg (lon2 - lon1)) in
  haversine_m (Fin lat1) (Fin lon1) (Fin lat2) (Fin lon2) =
  if Rlt_dec a 0 then None
  else if Rlt_dec (1 - a) 0 then None
       else Some (Fin (6371000 * (2 * atan2 (sqrt a) (sqrt (1 - a))))).
Proof.
  intro a. unfold haversine_m; cbn -[Rlt_dec].
  fold (deg lat1) (deg lat2) (deg (lat2 - lat1)) (deg (lon2 - lon1)).
  fold (hav_a (deg lat1) (deg lat2) (deg (lat2 - lat1)) (deg (lon2 - lon1))).
  fold a.
  destruct (Rlt_dec a 0); [reflexivity|].
  destruct (Rlt_dec (1 - a) 0); reflexivity.
Qed.

Lemma haversine_m_np1_fin (lat1 lon1 lat2 lon2 : R) :
  let a := hav_a (deg lat1) (deg lat2) (deg lat2 - deg lat1)
                 (deg lon2 - deg lon1) in
  haversine_m_np1 (Fin lat1) (Fin lon1) (Fin lat2) (Fin lon2) =
  if Rlt_dec a 0 then NaN
  else if Rlt_dec (1 - a) 0 then NaN
       else Fin (6371000 * (2 * atan2 (sqrt a) (sqrt (1 - a)))).
Proof.
  intro a. unfold haversine_m_np1; cbn -[Rlt_dec].
  fold (deg lat1) (deg lat2) (deg lon1) (deg lon2).
  fold (hav_a (deg lat1) (deg lat2) (deg lat2 - deg lat1) (deg lon2 - deg lon1)).
  fold a.
  destruct (Rlt_dec a 0); [reflexivity|].
  destruct (Rlt_dec (1 - a) 0); reflexivity.
Qed.

Lemma haversine_m_same (lat lon : R) :
  haversine_m (Fin lat) (Fin lon) (Fin lat) (Fin lon) = Some (Fin 0).
Proof.
  rewrite haversine_m_fin. cbv zeta.
  replace (deg (lat - lat)) with 0 by (unfold deg; ring).
  replace (deg (lon - lon)) with 0 by (unfold deg; ring).
  rewrite hav_a_same.
  destruct (Rlt_dec 0 0); [lra|].
  destruct (Rlt_dec (1 - 0) 0); [lra|].
  replace (1 - 0) with 1 by ring.
  rewrite sqrt_0, sqrt_1, atan2_0_1. do 2 f_equal. ring.
Qed.

Lemma haversine_m_np1_same (lat lon : R) :
  haversine_m_np1 (Fin lat) (Fin lon) (Fin lat) (Fin lon) = Fin 0.
Proof.
  rewrite haversine_m_np1_fin. cbv zeta.
  replace (deg lat - deg lat) with 0 by ring.
  replace (deg lon - deg lon) with 0 by ring.
  rewrite hav_a_same.
  destruct (Rlt_dec 0 0); [lra|].
  destruct (Rlt_dec (1 - 0) 0); [lra|].
  replace (1 - 0) with 1 by ring.
  rewrite sqrt_0, sqrt_1, atan2_0_1. f_equal. ring.
Qed.

Lemma haversine_m_sym (lat1 lon1 lat2 lon2 : float) :
  haversine_m lat1 lon1 lat2 lon2 = haversine_m lat2 lon2 lat1 lon1.
Proof.
  destruct lat1 as [|a1], lon1 as [|o1], lat2 as [|a2], lon2 as [|o2];
    try reflexivity.
  rewrite !haversine_m_fin. cbv zeta.
  replace (deg (a1 - a2)) with (- deg (a2 - a1)) by (unfold deg; ring).
  replace (deg (o1 - o2)) with (- deg (o2 - o1)) by (unfold deg; ring).
  rewrite hav_a_sym. reflexivity.
Qed.

Lemma haversine_m_np1_sym (lat1 lon1 lat2 lon2 : float) :
  haversine_m_np1 lat1 lon1 lat2 lon2 = haversine_m_np1 lat2 lon2 lat1 lon1.
Proof.
  destruct lat1 as [|a1], lon1 as [|o1], lat2 as [|a2], lon2 as [|o2];
    try reflexivity.
  rewrite !haversine_m_np1_fin. cbv zeta.
  replace (deg a1 - deg a2) with (- (deg a2 - deg a1)) by ring.
  replace (deg o1 - deg o2) with (- (deg o2 - deg o1)) by ring.
  rewrite hav_a_sym. reflexivity.
Qed.


(** C9.  The haversine distance of a point to itself is 0 and the distance
    is symmetric in its two points, in the scalar form of the monitor and in
    the vectorized form of the analysis.  The equalities are exact on the
    real-number reading of the arithmetic, so they hold within any
    tolerance; symmetry also holds when a coordinate is NaN. *)
Theorem haversine_zero_and_symmetric :
  (forall lat lon : R,
      haversine_m (Fin lat) (Fin lon) (Fin lat) (Fin lon) = Some (Fin 0))
  /\ (forall lat1 lon1 lat2 lon2 : float,
         haversine_m lat1 lon1 lat2 lon2 = haversine_m lat2 lon2 lat1 lon1)
  /\ (forall lat lon : R,
         haversine_m_np [Fin lat] [Fin lon] (Fin lat) (Fin lon) = [Fin 0])
  /\ (forall (points : list (float * float)) (lat2 lon2 : float),
         haversine_m_np (map fst points) (map snd points) lat2 lon2
         = map (fun p => haversine_m_np1 lat2 lon2 (fst p) (snd p)) points).
Proof.
  split; [exact haversine_m_same|].
  split; [exact haversine_m_sym|].
  split.
  - intros lat lon. unfold haversine_m_np. cbn [map combine fst snd].
    now rewrite haversine_m_np1_same.
  - intros points lat2 lon2. unfold haversine_m_np.
    induction points as [|[la lo] points IH]; cbn [map combine fst snd];
      [reflexivity|].
    rewrite IH. f_equal. apply haversine_m_np1_sym.
Qed.

Lemma deg_bound (x : R) : -90 <= x <= 90 -> - (PI / 2) <= deg x <= PI / 2.
Proof.
  intros [H1 H2]. unfold deg. pose proof PI_RGT_0 as Hpi.
  split; nra.
Qed.

Lemma hav_a_nonneg (p1 p2 d l : R) :
  0 <= cos p1 -> 0 <= cos p2 -> 0 <= hav_a p1 p2 d l.
Proof.
  intros H1 H2. unfold hav_a.
  assert (0 <= sin (d / 2) * sin (d / 2)) by nra.
  assert (0 <= sin (l / 2) * sin (l / 2)) by nra.
  assert (0 <= cos p1 * cos p2) by nra.
  nra.
Qed.

(** With both latitudes between the poles the term [a] stays below 1:
    it is at most [cos ((p1 + p2) / 2) ^ 2]. *)
Lemma hav_a_le_1 (p1 p2 l : R) :
  0 <= cos p1 -> 0 <= cos p2 -> hav_a p1 p2 (p2 - p1) l <= 1.
Proof.
  intros H1 H2. unfold hav_a.
  set (u := (p2 - p1) / 2). set (v := (p2 + p1) / 2).
  assert (Hp1 : p1 = v - u) by (unfold u, v; lra).
  assert (Hp2 : p2 = v + u) by (unfold u, v; lra).
  assert (Hc : cos p1 * cos p2 = cos v * cos v - sin u * sin u).
  { rewrite Hp1, Hp2, cos_minus, cos_plus.
    pose proof (sin2_cos2 u) as Hu. pose proof (sin2_cos2 v) as Hv.
    unfold Rsqr in Hu, Hv. nra. }
  pose proof (sin2_cos2 (l / 2)) as Hl. unfold Rsqr in Hl.
  pose proof (sin2_cos2 v) as Hv. unfold Rsqr in Hv.
  assert (0 <= cos p1 * cos p2) by nra.
  assert (sin (l / 2) * sin (l / 2) <= 1) by nra.
  assert (cos v * cos v <= 1) by nra.
  nra.
Qed.

Lemma cos_deg_nonneg (x : R) : -90 <= x <= 90 -> 0 <= cos (deg x).
Proof.
  intros H. apply deg_bound in H. apply cos_ge_0; tauto.
Qed.

(** Between the poles [math.sqrt] never sees a negative number: the scalar
    distance returns. *)
Lemma haversine_m_returns (lat1 lon1 lat2 lon2 : float) :
  valid_lat lat1 -> valid_lat lat2 ->
  exists d, haversine_m lat1 lon1 lat2 lon2 = Some d.
Proof.
  destruct lat1 as [|a1], lon1 as [|o1], lat2 as [|a2], lon2 as [|o2];
    cbn [valid_lat]; intros V1 V2; try (eexists; reflexivity).
  rewrite haversine_m_fin. cbv zeta.
  apply cos_deg_nonneg in V1, V2.
  replace (deg (a2 - a1)) with (deg a2 - deg a1) by (unfold deg; ring).
  pose proof (hav_a_nonneg (deg a1) (deg a2) (deg a2 - deg a1)
                           (deg (o2 - o1)) V1 V2) as Hlo.
  pose proof (hav_a_le_1 (deg a1) (deg a2) (deg (o2 - o1)) V1 V2) as Hhi.
  destruct (Rlt_dec _ 0); [lra|].
  destruct (Rlt_dec _ 0); [lra|].
  eexists; reflexivity.
Qed.

(** The same for the vectorized distance on finite coordinates: a number,
    never NaN. *)
Lemma haversine_m_np1_finite (a1 o1 a2 o2 : R) :
  -90 <= a1 <= 90 -> -90 <= a2 <= 90 ->
  exists d, haversine_m_np1 (Fin a1) (Fin o1) (Fin a2) (Fin o2) = Fin d.
Proof.
  intros V1 V2. rewrite haversine_m_np1_fin. cbv zeta.
  apply cos_deg_nonneg in V1, V2.
  pose proof (hav_a_nonneg (deg a1) (deg a2) (deg a2 - deg a1)
                           (deg o2 - deg o1) V1 V2) as Hlo.
  pose proof (hav_a_le_1 (deg a1) (deg a2) (deg o2 - deg o1) V1 V2) as Hhi.
  destruct (Rlt_dec _ 0); [lra|].
  destruct (Rlt_dec _ 0); [lra|].
  eexists; reflexivity.
Qed.

(** On the reals the term [a] is a mean of [sin u ^ 2] and [cos v ^ 2]
    weighted by [sin (l / 2) ^ 2], for [u], [v] the half difference and
    half sum of the latitudes: it never leaves [0, 1], whatever the
    coordinates. *)
Lemma hav_a_range (p1 p2 l : R) : 0 <= hav_a p1 p2 (p2 - p1) l <= 1.
Proof.
  unfold hav_a.
  set (u := (p2 - p1) / 2). set (v := (p2 + p1) / 2).
  assert (Hp1 : p1 = v - u) by (unfold u, v; lra).
  assert (Hp2 : p2 = v + u) by (unfold u, v; lra).
  assert (Hc : cos p1 * cos p2 = cos v * cos v - sin u * sin u).
  { rewrite Hp1, Hp2, cos_minus, cos_plus.
    pose proof (sin2_cos2 u) as Hu. pose proof (sin2_cos2 v) as Hv.
    unfold Rsqr in Hu, Hv. nra. }
  rewrite Hc.
  pose proof (sin2_cos2 (l / 2)) as Hl. unfold Rsqr in Hl.
  pose proof (sin2_cos2 v) as Hv. unfold Rsqr in Hv.
  pose proof (sin2_cos2 u) as Hu. unfold Rsqr in Hu.
  assert (Hs : 0 <= sin (l / 2) * sin (l / 2) <= 1) by nra.
  assert (Hx : 0 <= sin u * sin u <= 1) by nra.
  assert (Hy : 0 <= cos v * cos v <= 1) by nra.
  clear Hl Hv Hu Hc.
  set (s := sin (l / 2) * sin (l / 2)) in *.
  set (x := sin u * sin u) in *. set (y := cos v * cos v) in *.
  split; nra.
Qed.

(** So in this model, whose arithmetic is exact, [math.sqrt] never sees a
    negative number and the scalar distance returns on every input.  In
    binary64 the computed [a] can exceed 1 by a rounding error near
    antipodal points, and [math.sqrt (1 - a)] then raises [ValueError]:
    the theorems about the loop that put no condition on the fixes are
    therefore stated on the iterations the loop completes. *)
Lemma haversine_m_total (lat1 lon1 lat2 lon2 : float) :
  exists d, haversine_m lat1 lon1 lat2 lon2 = Some d.
Proof.
  destruct lat1 as [|a1], lon1 as [|o1], lat2 as [|a2], lon2 as [|o2];
    try (eexists; reflexivity).
  rewrite haversine_m_fin. cbv zeta.
  replace (deg (a2 - a1)) with (deg a2 - deg a1) by (unfold deg; ring).
  pose proof (hav_a_range (deg a1) (deg a2) (deg (o2 - o1))) as Ha.
  destruct (Rlt_dec _ 0); [lra|].
  destruct (Rlt_dec _ 0); [lra|].
  eexists; reflexivity.
Qed.


End HaversineEval.

(** ** Sorting and first occurrences *)

Section SortingFacts.
Context {A : Type} (leb : A -> A -> bool).
Hypothesis leb_total : forall a b, leb a b = true \/ leb b a = true.

Lemma insert_sorted_perm (x : A) (l : list A) :
  Permutation (insert_sorted leb x l) (x :: l).
Proof.
  induction l as [|y l IH]; cbn; [reflexivity|].
  destruct (leb x y); [reflexivity|].
  rewrite IH. apply perm_swap.
Qed.

Lemma sort_by_perm (l : list A) : Permutation (sort_by leb l) l.
Proof.
  induction l as [|x l IH]; cbn; [reflexivity|].
  rewrite insert_sorted_perm. now constructor.
Qed.

Lemma insert_sorted_hd (x : A) (l : list A) (a : A) :
  leb a x = true -> HdRel (fun u v => leb u v = true) a l ->
  HdRel (fun u v => leb u v = true) a (insert_sorted leb x l).
Proof.
  intros Hax Hl. destruct l as [|y l]; cbn; [now constructor|].
  destruct (leb x y); constructor; [assumption|now inversion Hl].
Qed.

Lemma insert_sorted_sorted (x : A) (l : list A) :
  Sorted (fun u v => leb u v = true) l ->
  Sorted (fun u v => leb u v = true) (insert_sorted leb x l).
Proof.
  induction 1 as [|y l Hs IH Hh]; cbn; [repeat constructor|].
  destruct (leb x y) eqn:E.
  - constructor; [now constructor|now constructor].
  - constructor; [exact IH|]. apply insert_sorted_hd; [|exact Hh].
    destruct (leb_total x y) as [H|H]; [congruence|exact H].
Qed.

Lemma sort_by_sorted (l : list A) :
  Sorted (fun u v => leb u v = true) (sort_by leb l).
Proof.
  induction l as [|x l IH]; cbn; [constructor|now apply insert_sorted_sorted].
Qed.

End SortingFacts.

Section UniqueFacts.
Context {A : Type} (eq_dec : forall a b : A, {a = b} + {a <> b}).

Lemma unique_from_in (l seen : list A) (x : A) :
  In x (unique_from eq_dec seen l) <-> In x l /\ ~ In x seen.
Proof.
  revert seen. induction l as [|y l IH]; intros seen; cbn; [tauto|].
  destruct (in_dec eq_dec y seen) as [Hy|Hy].
  - rewrite IH. split; [tauto|]. intros [[->|H] Hn]; tauto.
  - cbn. rewrite IH. cbn. split.
    + intros [->|[H Hn]]; [tauto|]. split; [tauto|intros C; apply Hn; now right].
    + intros [[->|H] Hn]; [now left|].
      destruct (eq_dec y x) as [->|Hne]; [now left|right].
      split; [exact H|]. intros [C|C]; [congruence|tauto].
Qed.

Lemma unique_from_nodup (l seen : list A) : NoDup (unique_from eq_dec seen l).
Proof.
  revert seen. induction l as [|y l IH]; intros seen; cbn; [constructor|].
  destruct (in_dec eq_dec y seen); [apply IH|].
  constructor; [|apply IH]. rewrite unique_from_in. cbn. tauto.
Qed.

Lemma unique_in (l : list A) (x : A) : In x (unique eq_dec l) <-> In x l.
Proof.
  unfold unique. rewrite unique_from_in. cbn. tauto.
Qed.

Lemma unique_nodup (l : list A) : NoDup (unique eq_dec l).
Proof. apply unique_from_nodup. Qed.

End UniqueFacts.

(** ** The presence-detection loop *)

Section MonitorLoop.
Import Monitor MonitorSpec MonitorExamples LoopShape.
Local Open Scope nat_scope.

Lemma sum_Z_app (a b : list Z) : sum_Z (a ++ b) = (sum_Z a + sum_Z b)%Z.
Proof.
  induction a as [|x a IH]; cbn; [reflexivity|]. unfold sum_Z in *. cbn. lia.
Qed.

Lemma sum_Z_nonneg (h : list Z) :
  Forall (fun d => (0 <= d)%Z) h -> (0 <= sum_Z h)%Z.
Proof.
  induction 1 as [|x h Hx _ IH]; cbn; [lia|]. unfold sum_Z in *. cbn. lia.
Qed.

Lemma sum_Z_zero (h : list Z) :
  Forall (fun d => (0 <= d)%Z) h -> sum_Z h = 0%Z -> Forall (fun d => d = 0%Z) h.
Proof.
  induction 1 as [|x h Hx Hh IH]; intros Hs; constructor.
  - pose proof (sum_Z_nonneg h Hh). unfold sum_Z in *. cbn in Hs. lia.
  - apply IH. pose proof (sum_Z_nonneg h Hh). unfold sum_Z in *. cbn in Hs. lia.
Qed.

Lemma sum_Z_all_zero (h : list Z) :
  Forall (fun d => d = 0%Z) h -> sum_Z h = 0%Z.
Proof.
  induction 1 as [|x h Hx _ IH]; [reflexivity|]. unfold sum_Z in *. cbn. lia.
Qed.

Lemma compute_pps_sign (h : list Z) :
  Forall (fun d => (0 <= d)%Z) h ->
  Qlt_bool 0%Q (compute_pps h) = (0 <? sum_Z h)%Z.
Proof.
  intros Hh. pose proof (sum_Z_nonneg h Hh) as Hs.
  unfold Qlt_bool, compute_pps.
  change (0 <? PACKET_SIZE_BYTES)%Z with true. cbn [andb].
  destruct (0 <? Z.of_nat (length h))%Z eqn:Hl.
  - apply Z.ltb_lt in Hl.
    unfold POLL_INTERVAL_SEC, PACKET_SIZE_BYTES. rewrite Z.mul_1_r.
    destruct (0 <? sum_Z h)%Z eqn:Hp.
    + apply Z.ltb_lt in Hp. apply negb_true_iff.
      destruct (Qle_bool _ _) eqn:Hq; [|reflexivity].
      apply Qle_bool_iff in Hq. exfalso.
      apply (Qlt_not_le 0 (inject_Z (sum_Z h) / inject_Z 98
                           / inject_Z (Z.of_nat (length h)))%Q); [|exact Hq].
      apply Qlt_shift_div_l;
        [change 0%Q with (inject_Z 0); rewrite <- Zlt_Qlt; exact Hl|].
      rewrite Qmult_0_l.
      apply Qlt_shift_div_l; [reflexivity|].
      rewrite Qmult_0_l.
      change 0%Q with (inject_Z 0); rewrite <- Zlt_Qlt. exact Hp.
    + apply Z.ltb_ge in Hp. assert (sum_Z h = 0%Z) as -> by lia.
      apply negb_false_iff. apply Qle_bool_iff.
      unfold Qdiv. rewrite !Qmult_0_l. apply Qle_refl.
  - apply Z.ltb_ge in Hl. destruct h; [reflexivity|cbn in Hl; lia].
Qed.

Lemma push_window_length (h : list Z) (d : Z) :
  (Z.of_nat (length h) <= PPS_WINDOW_SEC)%Z ->
  (Z.of_nat (length (push_window h d)) <= PPS_WINDOW_SEC)%Z.
Proof.
  intros Hl. unfold push_window.
  destruct (PPS_WINDOW_SEC <? _)%Z eqn:Hc.
  - rewrite length_app in *. cbn [length] in *.
    destruct (h ++ [d]) eqn:E.
    + cbn. unfold PPS_WINDOW_SEC. lia.
    + assert (length (z :: l) = length h + 1) by (rewrite <- E, length_app; reflexivity).
      cbn [tl length] in *. lia.
  - apply Z.ltb_ge in Hc. exact Hc.
Qed.

Lemma Forall_tl {A} (P : A -> Prop) (l : list A) : Forall P l -> Forall P (tl l).
Proof. destruct 1; [constructor|assumption]. Qed.

Lemma push_window_Forall (P : Z -> Prop) (h : list Z) (d : Z) :
  Forall P h -> P d -> Forall P (push_window h d).
Proof.
  intros Hh Hd. unfold push_window.
  assert (Forall P (h ++ [d])) by (apply Forall_app; auto).
  destruct (_ <? _)%Z; [apply Forall_tl|]; assumption.
Qed.

Lemma compute_speed_returns (st : loop_state) (g : option (float * float)) :
  fix_shape st -> fix_valid g -> exists v, compute_speed st g = Returned v.
Proof.
  unfold fix_shape. intros Hl Hg. unfold compute_speed.
  destruct g as [[lat lon]|]; [|eexists; reflexivity].
  destruct (last_gps_lat st) as [llat|]; [|eexists; reflexivity].
  destruct (last_gps_lon st) as [llon|]; [|eexists; reflexivity].
  destruct (last_gps_time st); [|eexists; reflexivity].
  change (0 <? POLL_INTERVAL_SEC)%Z with true. cbv iota.
  destruct (haversine_m_returns llat llon lat lon Hl Hg) as [d ->].
  eexists; reflexivity.
Qed.

(** One iteration whose size read succeeds, spelled out. *)
Lemma tick_spec (st : loop_state) (i : tick_input) (size : Z) :
  get_remote_file_size (sftp i) REMOTE_RX_FILE = Returned (Some size) ->
  fix_shape st -> fix_valid (gps i) ->
  let h := push_window (delta_history st) (Z.max 0 (size - prev_size st)) in
  let c := update_counters (compute_pps h) (entry_counter st) (exit_counter st) in
  exists st' row ev,
    tick st i = TickContinue st' row ev
    /\ prev_size st' = size /\ delta_history st' = h
    /\ exit_counter_at st i = snd c
    /\ fix_shape st'
    /\ ((state st = OUTSIDE /\ (ENTRY_SECONDS <= fst c)%Z /\ state st' = INSIDE
         /\ entry_counter st' = 0%Z /\ exit_counter st' = snd c
         /\ exists e, ev = Some e /\ ev_type e = ENTRY)
        \/ (state st = OUTSIDE /\ (fst c < ENTRY_SECONDS)%Z /\ state st' = OUTSIDE
            /\ entry_counter st' = fst c /\ exit_counter st' = snd c
            /\ ev = None)
        \/ (state st = INSIDE /\ (EXIT_SECONDS <= snd c)%Z /\ state st' = OUTSIDE
            /\ entry_counter st' = fst c /\ exit_counter st' = 0%Z
            /\ exists e, ev = Some e /\ ev_type e = EXIT)
        \/ (state st = INSIDE /\ (snd c < EXIT_SECONDS)%Z /\ state st' = INSIDE
            /\ entry_counter st' = fst c /\ exit_counter st' = snd c
            /\ ev = None)).
Proof.
  intros Hsize Hfix Hg h c.
  destruct (compute_speed_returns st (gps i) Hfix Hg) as [v Hv].
  unfold tick, exit_counter_at. rewrite Hsize, Hv. fold h. fold c.
  destruct c as [entry exit] eqn:Hc. cbn [fst snd].
  destruct (gps i) as [[lat lon]|] eqn:Hgps;
    (destruct (state st) eqn:Hst;
     [destruct (ENTRY_SECONDS <=? entry)%Z eqn:He
     |destruct (EXIT_SECONDS <=? exit)%Z eqn:He]);
    try apply Z.leb_le in He; try apply Z.leb_gt in He;
    do 3 eexists; (split; [reflexivity|]); cbn;
    (split; [reflexivity|]); (split; [reflexivity|]); (split; [reflexivity|]);
    (split; [first [exact Hg | exact Hfix]|]);
    first [ left; repeat split; try assumption; try reflexivity;
            eexists; split; reflexivity
          | right; left; repeat split; try assumption; reflexivity
          | right; right; left; repeat split; try assumption; try reflexivity;
            eexists; split; reflexivity
          | right; right; right; repeat split; try assumption; reflexivity ].
Qed.

(** In this model the speed computation returns on every input. *)
Lemma compute_speed_total (st : loop_state) (g : option (float * float)) :
  exists v, compute_speed st g = Returned v.
Proof.
  unfold compute_speed.
  destruct g as [[lat lon]|]; [|eexists; reflexivity].
  destruct (last_gps_lat st) as [llat|]; [|eexists; reflexivity].
  destruct (last_gps_lon st) as [llon|]; [|eexists; reflexivity].
  destruct (last_gps_time st); [|eexists; reflexivity].
  change (0 <? POLL_INTERVAL_SEC)%Z with true. cbv iota.
  destruct (haversine_m_total llat llon lat lon) as [d ->].
  eexists; reflexivity.
Qed.

(** One iteration whose size read succeeds, whatever the receiver
    reports. *)
Lemma tick_steps (st : loop_state) (i : tick_input) (size : Z) :
  get_remote_file_size (sftp i) REMOTE_RX_FILE = Returned (Some size) ->
  let h := push_window (delta_history st) (Z.max 0 (size - prev_size st)) in
  let c := update_counters (compute_pps h) (entry_counter st) (exit_counter st) in
  exists st' row ev,
    tick st i = TickContinue st' row ev
    /\ prev_size st' = size /\ delta_history st' = h
    /\ exit_counter_at st i = snd c
    /\ ((state st = OUTSIDE /\ (ENTRY_SECONDS <= fst c)%Z /\ state st' = INSIDE
         /\ entry_counter st' = 0%Z /\ exit_counter st' = snd c
         /\ exists e, ev = Some e /\ ev_type e = ENTRY)
        \/ (state st = OUTSIDE /\ (fst c < ENTRY_SECONDS)%Z /\ state st' = OUTSIDE
            /\ entry_counter st' = fst c /\ exit_counter st' = snd c
            /\ ev = None)
        \/ (state st = INSIDE /\ (EXIT_SECONDS <= snd c)%Z /\ state st' = OUTSIDE
            /\ entry_counter st' = fst c /\ exit_counter st' = 0%Z
            /\ exists e, ev = Some e /\ ev_type e = EXIT)
        \/ (state st = INSIDE /\ (snd c < EXIT_SECONDS)%Z /\ state st' = INSIDE
            /\ entry_counter st' = fst c /\ exit_counter st' = snd c
            /\ ev = None)).
Proof.
  intros Hsize h c.
  destruct (compute_speed_total st (gps i)) as [v Hv].
  unfold tick, exit_counter_at. rewrite Hsize, Hv. fold h. fold c.
  destruct c as [entry exit] eqn:Hc. cbn [fst snd].
  destruct (gps i) as [[lat lon]|] eqn:Hgps;
    (destruct (state st) eqn:Hst;
     [destruct (ENTRY_SECONDS <=? entry)%Z eqn:He
     |destruct (EXIT_SECONDS <=? exit)%Z eqn:He]);
    try apply Z.leb_le in He; try apply Z.leb_gt in He;
    do 3 eexists; (split; [reflexivity|]); cbn;
    (split; [reflexivity|]); (split; [reflexivity|]); (split; [reflexivity|]);
    first [ left; repeat split; try assumption; try reflexivity;
            eexists; split; reflexivity
          | right; left; repeat split; try assumption; reflexivity
          | right; right; left; repeat split; try assumption; try reflexivity;
            eexists; split; reflexivity
          | right; right; right; repeat split; try assumption; reflexivity ].
Qed.

Lemma ends_with_zeros_le (k k' : nat) (h : list Z) :
  k' <= k -> ends_with_zeros k h -> ends_with_zeros k' h.
Proof.
  intros Hk [h0 ->]. exists (h0 ++ repeat 0%Z (k - k')).
  rewrite <- app_assoc, <- repeat_app. do 2 f_equal. lia.
Qed.

Lemma repeat_snoc (k : nat) : repeat 0%Z k ++ [0%Z] = repeat 0%Z (S k).
Proof.
  induction k as [|k IH]; cbn; [reflexivity|]. now rewrite IH.
Qed.

Lemma push_zero_ends (k : nat) (h : list Z) :
  k <= 3 -> ends_with_zeros k h ->
  ends_with_zeros (Nat.min (S k) 3) (push_window h 0).
Proof.
  intros Hk [h0 ->]. apply (ends_with_zeros_le (S k)); [lia|].
  unfold push_window. rewrite <- app_assoc, repeat_snoc.
  destruct (_ <? _)%Z eqn:Hc.
  - destruct h0 as [|x h0].
    + apply Z.ltb_lt in Hc. cbn [app] in Hc. rewrite repeat_length in Hc.
      unfold PPS_WINDOW_SEC in Hc. lia.
    + exists h0. reflexivity.
  - exists h0. reflexivity.
Qed.

Lemma push_zero_flushed (h : list Z) :
  (Z.of_nat (length h) <= PPS_WINDOW_SEC)%Z -> ends_with_zeros 3 h ->
  Forall (fun d => d = 0%Z) (push_window h 0).
Proof.
  intros Hl [h0 ->]. rewrite length_app, repeat_length in Hl.
  unfold PPS_WINDOW_SEC in Hl.
  destruct h0 as [|x [|y h0]]; cbn in Hl; try lia;
    unfold push_window; cbn; repeat constructor.
Qed.

Lemma push_zero_all_zero (h : list Z) :
  Forall (fun d => d = 0%Z) h -> Forall (fun d => d = 0%Z) (push_window h 0).
Proof.
  intros Hh. apply push_window_Forall; [assumption|reflexivity].
Qed.

Lemma update_counters_zero (h : list Z) (en ex : Z) :
  Forall (fun d => d = 0%Z) h ->
  update_counters (compute_pps h) en ex = (0%Z, (ex + 1)%Z).
Proof.
  intros Hh. unfold update_counters. rewrite compute_pps_sign.
  - now rewrite (sum_Z_all_zero h Hh).
  - eapply Forall_impl; [|exact Hh]. cbn. intros; lia.
Qed.

Lemma update_counters_cases (h : list Z) (en ex : Z) :
  Forall (fun d => (0 <= d)%Z) h ->
  (update_counters (compute_pps h) en ex = ((en + 1)%Z, 0%Z))
  \/ (update_counters (compute_pps h) en ex = (0%Z, (ex + 1)%Z)
      /\ Forall (fun d => d = 0%Z) h).
Proof.
  intros Hh. unfold update_counters. rewrite compute_pps_sign by assumption.
  destruct (0 <? sum_Z h)%Z eqn:Hs; [left; reflexivity|right].
  split; [reflexivity|]. apply sum_Z_zero; [assumption|].
  apply Z.ltb_ge in Hs. pose proof (sum_Z_nonneg h Hh). lia.
Qed.

Lemma run_cons (st : loop_state) (i : tick_input) (rest : list tick_input)
      (st' : loop_state) (row : metrics_row) (ev : option event_row)
      (logs : list tick_log) (fin : loop_state) (e : ending) :
  tick st i = TickContinue st' row ev ->
  run st' rest = (logs, fin, e) ->
  run st (i :: rest)
  = ({| before := st; exit_seen := exit_counter_at st i;
        row_written := row; event_written := ev |} :: logs, fin, e).
Proof.
  intros Ht Hr. cbn [run]. rewrite Ht, Hr. reflexivity.
Qed.

(** Outside coverage with an empty window, a silent stream writes no event. *)
Lemma outside_zero_run (inputs : list tick_input) :
  forall st : loop_state,
    state st = OUTSIDE ->
    Forall (fun d => d = 0%Z) (delta_history st) ->
    zero_deltas (prev_size st) inputs ->
    exists logs fin,
      run st inputs = (logs, fin, Interrupted)
      /\ length logs = length inputs
      /\ Forall silent logs.
Proof.
  induction inputs as [|i rest IH]; intros st Hst Hz Hd.
  - exists [], st. repeat split. constructor.
  - destruct Hd as (size & Hsize & Hle & Hd).
    destruct (tick_steps st i size Hsize)
      as (st' & row & ev & Ht & Hp & Hh & _ & Hcases).
    replace (Z.max 0 (size - prev_size st)) with 0%Z in * by lia.
    rewrite (update_counters_zero _ _ _ (push_zero_all_zero _ Hz)) in Hcases.
    cbn [fst snd] in Hcases.
    destruct Hcases as [(_ & He & _)|[(_ & _ & Hst' & _ & _ & ->)|[(C & _)|(C & _)]]];
      try congruence; [unfold ENTRY_SECONDS in He; lia|].
    destruct (IH st') as (logs & fin & Hr & Hlen & Hs); auto.
    + rewrite Hh. now apply push_zero_all_zero.
    + now rewrite Hp.
    + eexists _, fin. split; [exact (run_cons _ _ _ _ _ _ _ _ _ Ht Hr)|].
      split; [cbn; now rewrite Hlen|].
      constructor; [reflexivity|assumption].
Qed.

Lemma inside_zero_run (inputs : list tick_input) :
  forall (st : loop_state) (k : nat),
    state st = INSIDE ->
    (0 <= exit_counter st < EXIT_SECONDS)%Z ->
    (Z.of_nat (length (delta_history st)) <= PPS_WINDOW_SEC)%Z ->
    Forall (fun d => (0 <= d)%Z) (delta_history st) ->
    k <= 3 -> ends_with_zeros k (delta_history st) ->
    zero_deltas (prev_size st) inputs ->
    exists logs fin,
      run st inputs = (logs, fin, Interrupted)
      /\ length logs = length inputs
      /\ (one_exit_within (exit_bound k (exit_counter st)) logs
          \/ (Forall quiet logs
              /\ (Z.of_nat (length logs) < exit_bound k (exit_counter st))%Z)).
Proof.
  induction inputs as [|i rest IH]; intros st k Hst Hc Hl Hn Hk Hz Hd.
  - exists [], st. repeat split. right. split; [constructor|].
    unfold exit_bound, EXIT_SECONDS in *. cbn [length].
    destruct (k <? 3)%nat; lia.
  - destruct Hd as (size & Hsize & Hle & Hd).
    destruct (tick_steps st i size Hsize)
      as (st' & row & ev & Ht & Hp & Hh & Hseen & Hcases).
    replace (Z.max 0 (size - prev_size st)) with 0%Z in * by lia.
    set (h' := push_window (delta_history st) 0) in *.
    assert (Hn' : Forall (fun d => (0 <= d)%Z) h')
      by (apply push_window_Forall; [assumption|lia]).
    assert (Hl' : (Z.of_nat (length h') <= PPS_WINDOW_SEC)%Z)
      by now apply push_window_length.
    rewrite <- Hp in Hd.
    destruct Hcases as [(C & _)|[(C & _)|[Hexit|Hstay]]]; try congruence.
    + (* the EXIT fires on this iteration *)
      destruct Hexit as (_ & Hge & Hst' & Hen & Hex & Hev).
      destruct (update_counters_cases h' (entry_counter st) (exit_counter st) Hn')
        as [E|[E Hzero]]; rewrite E in *; cbn [fst snd] in *;
        [unfold EXIT_SECONDS in Hge; lia|].
      destruct (outside_zero_run rest st') as (logs & fin & Hr & Hlen & Hs); auto.
      { now rewrite Hh. }
      eexists _, fin. split; [exact (run_cons _ _ _ _ _ _ _ _ _ Ht Hr)|].
      split; [cbn; now rewrite Hlen|].
      left. exists [], {| before := st; exit_seen := exit_counter_at st i;
                          row_written := row; event_written := ev |}, logs.
      repeat split; auto.
      * cbn [exit_seen]. rewrite Hseen. unfold EXIT_SECONDS in *. lia.
      * cbn [length]. unfold exit_bound, EXIT_SECONDS in *.
        destruct (k <? 3)%nat; lia.
    + (* no event: still inside *)
      destruct Hstay as (_ & Hlt & Hst' & Hen & Hex & ->).
      assert (Hstep : (0 <= snd (update_counters (compute_pps h') (entry_counter st)
                                     (exit_counter st)))%Z
                      /\ (exit_bound (Nat.min (S k) 3)
                            (snd (update_counters (compute_pps h') (entry_counter st)
                                    (exit_counter st))) + 1
                          <= exit_bound k (exit_counter st))%Z).
      { unfold exit_bound.
        destruct (k <? 3)%nat eqn:Hk3.
        - apply Nat.ltb_lt in Hk3.
          destruct (update_counters_cases h' (entry_counter st) (exit_counter st) Hn')
            as [E|[E _]]; rewrite E; cbn [snd];
            (split; [lia|]); destruct (Nat.min (S k) 3 <? 3)%nat eqn:Hm;
            try apply Nat.ltb_lt in Hm; try apply Nat.ltb_ge in Hm; lia.
        - apply Nat.ltb_ge in Hk3. assert (k = 3) as -> by lia.
          rewrite (update_counters_zero h'); [cbn [snd Nat.min Nat.ltb Nat.leb]; lia|].
          now apply push_zero_flushed. }
      destruct Hstep as [Hc0 Hdec].
      destruct (IH st' (Nat.min (S k) 3)) as (logs & fin & Hr & Hlen & Hshape); auto.
      { rewrite Hex. lia. }
      { now rewrite Hh. }
      { now rewrite Hh. }
      { lia. }
      { rewrite Hh. now apply push_zero_ends. }
      eexists _, fin. split; [exact (run_cons _ _ _ _ _ _ _ _ _ Ht Hr)|].
      split; [cbn; now rewrite Hlen|].
      rewrite Hex in Hshape.
      assert (Hq : quiet {| before := st; exit_seen := exit_counter_at st i;
                            row_written := row; event_written := None |}).
      { split; [reflexivity|]. cbn [exit_seen]. now rewrite Hseen. }
      destruct Hshape as [(pre & x & post & -> & Hpre & Hx & Hxs & Hpost & Hb)|[Hq' Hb]].
      * left. exists ({| before := st; exit_seen := exit_counter_at st i;
                         row_written := row; event_written := None |} :: pre), x, post.
        repeat split; auto. cbn [length]. lia.
      * right. split; [constructor; assumption|]. cbn [length]. lia.
Qed.

Lemma count_events_app (t : event_type) (a b : list tick_log) :
  count_events t (a ++ b) = count_events t a + count_events t b.
Proof.
  unfold count_events. now rewrite filter_app, length_app.
Qed.

Lemma count_events_silent (t : event_type) (l : list tick_log) :
  Forall silent l -> count_events t l = 0.
Proof.
  unfold count_events, silent.
  induction 1 as [|x l Hx _ IH]; [reflexivity|]. cbn [filter]. now rewrite Hx.
Qed.

Lemma quiet_silent (l : list tick_log) : Forall quiet l -> Forall silent l.
Proof.
  apply Forall_impl. now intros x [H _].
Qed.

Lemma one_exit_counts (logs : list tick_log) :
  one_exit logs ->
  count_events EXIT logs = 1 /\ count_events ENTRY logs = 0.
Proof.
  intros (pre & x & post & -> & Hpre & (e & Hx & He) & _ & Hpost).
  apply quiet_silent in Hpre.
  change (x :: post) with ([x] ++ post).
  rewrite !count_events_app.
  rewrite !(count_events_silent _ pre), !(count_events_silent _ post)
    by assumption.
  unfold count_events. cbn [filter]. rewrite Hx, He. split; reflexivity.
Qed.

Lemma exit_fires_once_core (st : loop_state) (inputs : list tick_input) :
  state st = INSIDE -> loop_shape st ->
  zero_deltas (prev_size st) inputs ->
  exists logs fin,
    run st inputs = (logs, fin, Interrupted)
    /\ length logs = length inputs
    /\ (one_exit_within (EXIT_SECONDS + PPS_WINDOW_SEC - 1) logs
        \/ (Forall quiet logs
            /\ (Z.of_nat (length logs) < EXIT_SECONDS + PPS_WINDOW_SEC - 1)%Z)).
Proof.
  intros Hst [_ Hex Hin _ Hw Hd] Hz.
  assert (Hends : ends_with_zeros 0 (delta_history st))
    by (exists (delta_history st); cbn; now rewrite app_nil_r).
  destruct (inside_zero_run inputs st 0 Hst (conj Hex (Hin Hst)) Hw Hd
                            (Nat.le_0_l 3) Hends Hz)
    as (logs & fin & Hr & Hlen & H).
  exists logs, fin. repeat split; assumption.
Qed.

Lemma tick_event (st : loop_state) (i : tick_input)
      (st' : loop_state) (row : metrics_row) (ev : option event_row) :
  tick st i = TickContinue st' row ev ->
  (ev = None /\ state st' = state st)
  \/ (exists e, ev = Some e /\ ev_type e = next_event st
                /\ next_event st' = other_event (next_event st)).
Proof.
  unfold tick, next_event.
  destruct (get_remote_file_size _ _) as [[size|]|]; try discriminate.
  destruct (compute_speed _ _); try discriminate.
  destruct (match gps i with Some _ => _ | None => _ end) as [[? ?] ?].
  destruct (update_counters _ _ _) as [entry exit].
  destruct (state st); destruct (_ <=? _)%Z; intros [= <- <- <-]; cbn;
    first [left; split; reflexivity
          |right; eexists; repeat split; reflexivity].
Qed.

(** Whatever the loop is fed, the events it writes alternate, beginning
    with the one its state allows. *)
Lemma run_alternates (inputs : list tick_input) :
  forall st : loop_state,
    alternates (next_event st) (event_types (fst (fst (run st inputs)))).
Proof.
  induction inputs as [|i rest IH]; intros st; cbn [run]; [exact I|].
  destruct (tick st i) as [| |st' row ev] eqn:Ht; try exact I.
  specialize (IH st'). destruct (run st' rest) as [[logs fin] e].
  cbn [fst event_types flat_map event_written] in *.
  destruct (tick_event st i st' row ev Ht) as [[-> Hs]|(e0 & -> & He & Hn)].
  - cbn [app]. unfold next_event in *. now rewrite <- Hs.
  - cbn [app alternates]. split; [exact He|]. now rewrite <- Hn.
Qed.

Lemma run_app (a b : list tick_input) :
  forall (st : loop_state) (logs : list tick_log) (fin : loop_state),
    run st a = (logs, fin, Interrupted) ->
    fst (fst (run st (a ++ b))) = logs ++ fst (fst (run fin b)).
Proof.
  induction a as [|i a IH]; intros st logs fin H; cbn [run app] in *.
  - injection H as <- <-. reflexivity.
  - destruct (tick st i) as [| |st' row ev]; try discriminate.
    destruct (run st' a) as [[logs' fin'] e'] eqn:Hr.
    injection H as H1 H2 H3. subst logs fin' e'.
    specialize (IH st' logs' fin Hr).
    destruct (run st' (a ++ b)) as [[l2 f2] e2]. cbn [fst] in *.
    now rewrite IH.
Qed.

Lemma event_types_app (a b : list tick_log) :
  event_types (a ++ b) = event_types a ++ event_types b.
Proof.
  unfold event_types. apply flat_map_app.
Qed.

Lemma event_types_silent (l : list tick_log) :
  Forall silent l -> event_types l = [].
Proof.
  unfold event_types, silent.
  induction 1 as [|x l Hx _ IH]; [reflexivity|]. cbn [flat_map]. now rewrite Hx.
Qed.

Lemma one_exit_types (logs : list tick_log) :
  one_exit logs -> event_types logs = [EXIT].
Proof.
  intros (pre & x & post & -> & Hpre & (e & Hx & He) & _ & Hpost).
  apply quiet_silent in Hpre.
  change (x :: post) with ([x] ++ post).
  rewrite !event_types_app, (event_types_silent pre), (event_types_silent post)
    by assumption.
  unfold event_types. cbn [flat_map]. now rewrite Hx, He.
Qed.

(** C1 (amended).  From any state in which the loop is INSIDE, its
    counters and window in shape, feed it a stream of all-zero byte
    deltas.  Whatever the number of iterations it completes, it writes no
    ENTRY and at most one EXIT, on the first iteration on which
    [exit_counter] reaches [EXIT_SECONDS], with no event before it and none
    after it.  Once it has completed [EXIT_SECONDS + PPS_WINDOW_SEC - 1]
    of them (7: the smoothing window must first empty) it has written
    exactly one EXIT, and whatever it is fed afterwards, the next event it
    writes is an ENTRY. *)
Theorem exit_fires_once (st : loop_state) (inputs : list tick_input) :
  state st = INSIDE -> loop_shape st ->
  zero_deltas (prev_size st) inputs ->
  let logs := fst (fst (run st inputs)) in
  let fin := snd (fst (run st inputs)) in
  (one_exit logs \/ Forall quiet logs)
  /\ ((EXIT_SECONDS + PPS_WINDOW_SEC - 1 <= Z.of_nat (length logs))%Z ->
      one_exit logs
      /\ count_events EXIT logs = 1 /\ count_events ENTRY logs = 0
      /\ forall more,
          alternates ENTRY (event_types (fst (fst (run fin more))))).
Proof.
  intros Hst Hsh Hz logs fin.
  destruct (exit_fires_once_core st inputs Hst Hsh Hz)
    as (logs' & fin' & Hr & Hlen & H).
  assert (El : logs = logs') by (unfold logs; now rewrite Hr).
  assert (Ef : fin = fin') by (unfold fin; now rewrite Hr).
  clearbody logs fin. subst logs' fin'.
  assert (Hone : one_exit_within (EXIT_SECONDS + PPS_WINDOW_SEC - 1) logs ->
                 one_exit logs).
  { intros (pre & x & post & E & Hpre & Hx & Hxs & Hpost & _).
    exists pre, x, post. repeat split; assumption. }
  split; [destruct H as [H|[H _]]; [left; auto|right; exact H]|].
  intros Hn. destruct H as [H|[_ H]]; [|lia].
  pose proof (Hone H) as Ho.
  split; [exact Ho|].
  destruct (one_exit_counts logs Ho) as [H1 H2].
  split; [exact H1|]. split; [exact H2|].
  intros more. pose proof (run_alternates (inputs ++ more) st) as Ha.
  rewrite (run_app inputs more st logs fin Hr), event_types_app in Ha.
  rewrite (one_exit_types logs Ho) in Ha. unfold next_event in Ha.
  rewrite Hst in Ha. exact (proj2 Ha).
Qed.

(** The theorem at work: inside coverage with a full window, seven silent
    seconds, all completed. *)
Lemma exit_fires_once_witness :
  one_exit (fst (fst (run inside_after_entry (repeat (answer 294 None) 7))))
  /\ count_events EXIT
       (fst (fst (run inside_after_entry (repeat (answer 294 None) 7)))) = 1
  /\ count_events ENTRY
       (fst (fst (run inside_after_entry (repeat (answer 294 None) 7)))) = 0
  /\ forall more,
      alternates ENTRY
        (event_types
           (fst (fst (run (snd (fst (run inside_after_entry
                                         (repeat (answer 294 None) 7))))
                          more)))).
Proof.
  apply (exit_fires_once inside_after_entry (repeat (answer 294 None) 7)).
  - reflexivity.
  - constructor; cbn;
      try (unfold EXIT_SECONDS, ENTRY_SECONDS, PPS_WINDOW_SEC; lia);
      try discriminate.
    repeat constructor; lia.
  - cbn. repeat (eexists; split; [reflexivity|split; [lia|]]). exact I.
  - vm_compute. discriminate.
Defined.

(** Against C1 as stated: three active seconds bring the loop INSIDE; the
    next [EXIT_SECONDS] = 4 iterations have a zero byte delta each, and no
    EXIT is written on any of them, because the smoothed [pps] is still
    positive on the first three.  If traffic then resumes, the run never
    writes an EXIT at all. *)
Lemma exit_not_after_four_zeros :
  snd (fst (run (initial_state 0)
                [answer 98 None; answer 196 None; answer 294 None]))
  = inside_after_entry
  /\ count_events ENTRY
       (fst (fst (run (initial_state 0)
                      [answer 98 None; answer 196 None; answer 294 None]))) = 1
  /\ state inside_after_entry = INSIDE
  /\ zero_deltas (prev_size inside_after_entry) (repeat (answer 294 None) 4)
  /\ Z.of_nat (length (repeat (answer 294 None) 4)) = EXIT_SECONDS
  /\ snd (run inside_after_entry (repeat (answer 294 None) 4)) = Interrupted
  /\ length (fst (fst (run inside_after_entry (repeat (answer 294 None) 4)))) = 4
  /\ count_events EXIT
       (fst (fst (run inside_after_entry (repeat (answer 294 None) 4)))) = 0
  /\ count_events EXIT
       (fst (fst (run inside_after_entry
                      (repeat (answer 294 None) 4
                       ++ [answer 392 None; answer 490 None; answer 588 None]))))
     = 0.
Proof.
  split; [vm_compute; reflexivity|].
  split; [vm_compute; reflexivity|].
  split; [reflexivity|].
  split; [cbn; repeat (eexists; split; [reflexivity|split; [lia|]]); exact I|].
  repeat split; vm_compute; reflexivity.
Qed.

(** ** The speed estimate *)








(** ** The remote size read *)

Lemma get_remote_file_size_none (sftp0 : sftp_client) (path : string) :
  get_remote_file_size sftp0 path = Returned None
  <-> connection_error (sftp0 path).
Proof.
  unfold get_remote_file_size, connection_error.
  destruct (sftp0 path); split; intros H; try discriminate; auto;
    destruct H as [H|[H|H]]; discriminate.
Qed.

Lemma run_not_lost (inputs : list tick_input) :
  forall st : loop_state,
    Forall (fun i => ~ connection_error (sftp i REMOTE_RX_FILE)) inputs ->
    snd (run st inputs) <> ConnectionLost.
Proof.
  induction inputs as [|i rest IH]; intros st H; [discriminate|].
  inversion H as [|? ? Hi Hrest]; subst. cbn [run].
  destruct (tick st i) as [| |st' row ev] eqn:Ht.
  - exfalso. apply Hi. apply get_remote_file_size_none.
    unfold tick in Ht.
    destruct (get_remote_file_size _ _) as [[size|]|]; try discriminate;
      [|reflexivity].
    destruct (compute_speed _ _); try discriminate.
    destruct (match gps i with Some _ => _ | None => _ end) as [[? ?] ?].
    destruct (update_counters _ _ _).
    destruct (state st); destruct (_ <=? _)%Z; discriminate.
  - discriminate.
  - specialize (IH st' Hrest). destruct (run st' rest) as [[logs fin] e].
    exact IH.
Qed.

(** C10.  For every path, [get_remote_file_size] returns 0 when the remote
    file does not exist, and returns [None] exactly on the connection-level
    errors ([IOError], [SSHException], [EOFError]).  An iteration that finds
    the file absent behaves as one that reads size 0 and never breaks the
    loop; a run without a connection-level error never ends as a lost
    connection. *)
Theorem absent_file_is_not_fatal (sftp0 : sftp_client) (path : string) :
  (sftp0 path = StatFileNotFoundError ->
   get_remote_file_size sftp0 path = Returned (Some 0%Z))
  /\ (get_remote_file_size sftp0 path = Returned None
      <-> connection_error (sftp0 path))
  /\ (forall (st : loop_state) (i : tick_input),
         sftp i REMOTE_RX_FILE = StatFileNotFoundError ->
         tick st i <> TickBreak
         /\ tick st i
            = tick st {| sftp := fun _ => StatOk 0; ts := ts i; gps := gps i;
                         now_dt := now_dt i; gps_at_event := gps_at_event i |})
  /\ (forall inputs : list tick_input,
         ~ connection_error (sftp0 REMOTE_RX_FILE) ->
         Forall (fun i => ~ connection_error (sftp i REMOTE_RX_FILE)) inputs ->
         snd (main sftp0 inputs) <> ConnectionLost).
Proof.
  split; [intros H; unfold get_remote_file_size; now rewrite H|].
  split; [apply get_remote_file_size_none|].
  split.
  - intros st i H.
    assert (E : tick st i
                = tick st {| sftp := fun _ => StatOk 0; ts := ts i; gps := gps i;
                             now_dt := now_dt i;
                             gps_at_event := gps_at_event i |}).
    { unfold tick, get_remote_file_size. cbn [sftp ts gps now_dt gps_at_event].
      rewrite H. reflexivity. }
    split; [|exact E]. rewrite E. unfold tick, get_remote_file_size.
    cbn [sftp ts gps now_dt gps_at_event].
    destruct (compute_speed _ _); try discriminate.
    destruct (match gps i with Some _ => _ | None => _ end) as [[? ?] ?].
    destruct (update_counters _ _ _).
    destruct (state st); destruct (_ <=? _)%Z; discriminate.
  - intros inputs H0 H. unfold main.
    destruct (get_remote_file_size sftp0 REMOTE_RX_FILE) as [[size0|]|] eqn:E.
    + pose proof (run_not_lost inputs (initial_state size0) H) as Hr.
      destruct (run (initial_state size0) inputs) as [[logs fin] e]. exact Hr.
    + exfalso. apply H0. now apply get_remote_file_size_none.
    + discriminate.
Qed.

(** ** The shape of the states the loop reaches *)

Lemma initial_state_shape (size0 : Z) : reachable_shape (initial_state size0).
Proof.
  constructor; cbn; try discriminate;
    unfold ENTRY_SECONDS, PPS_WINDOW_SEC; try lia; auto.
Qed.

Lemma tick_size_read (st : loop_state) (i : tick_input)
      (st' : loop_state) (row : metrics_row) (ev : option event_row) :
  tick st i = TickContinue st' row ev ->
  exists size,
    get_remote_file_size (sftp i) REMOTE_RX_FILE = Returned (Some size).
Proof.
  unfold tick. destruct (get_remote_file_size _ _) as [[size|]|];
    try discriminate. intros _. now exists size.
Qed.

(** The loop keeps [reachable_shape]: counters non-negative, the exit
    counter below its threshold while INSIDE and the entry counter below its
    threshold while OUTSIDE, at most [PPS_WINDOW_SEC] non-negative deltas in
    the window. *)
Lemma tick_keeps_shape (st : loop_state) (i : tick_input)
      (st' : loop_state) (row : metrics_row) (ev : option event_row) :
  reachable_shape st -> fix_valid (gps i) ->
  tick st i = TickContinue st' row ev -> reachable_shape st'.
Proof.
  intros [Hen Hex Hin Hout Hw Hd Hf] Hg Ht.
  destruct (tick_size_read _ _ _ _ _ Ht) as [size Hsize].
  destruct (tick_spec st i size Hsize Hf Hg)
    as (st2 & row2 & ev2 & Ht2 & Hp & Hh & _ & Hfix' & Hcases).
  rewrite Ht in Ht2. injection Ht2 as <- <- <-.
  set (h' := push_window (delta_history st) (Z.max 0 (size - prev_size st))) in *.
  assert (Hn' : Forall (fun d => (0 <= d)%Z) h')
    by (apply push_window_Forall; [assumption|lia]).
  assert (Hl' : (Z.of_nat (length h') <= PPS_WINDOW_SEC)%Z)
    by now apply push_window_length.
  unfold ENTRY_SECONDS, EXIT_SECONDS in *.
  destruct (update_counters_cases h' (entry_counter st) (exit_counter st) Hn')
    as [E|[E _]]; rewrite E in Hcases; cbn [fst snd] in Hcases;
    destruct Hcases as [C|[C|[C|C]]];
    destruct C as (S0 & Hc & S1 & E1 & E2 & _);
    (constructor; unfold ENTRY_SECONDS, EXIT_SECONDS;
     [ rewrite E1; lia | rewrite E2; lia
     | intros S2; rewrite E2; first [congruence | lia]
     | intros S2; rewrite E1; first [congruence | lia]
     | rewrite Hh; exact Hl' | rewrite Hh; exact Hn' | exact Hfix' ]).
Qed.

Lemma run_keeps_shape (inputs : list tick_input) :
  forall st : loop_state,
    reachable_shape st -> gps_ok inputs ->
    reachable_shape (snd (fst (run st inputs)))
    /\ Forall (fun l => reachable_shape (before l)) (fst (fst (run st inputs))).
Proof.
  induction inputs as [|i rest IH]; intros st Hs Hg; cbn [run].
  - split; [exact Hs|constructor].
  - inversion Hg as [|? ? Hgi Hg']; subst.
    destruct (tick st i) as [| |st' row ev] eqn:Ht;
      try (split; [exact Hs|constructor]).
    destruct (IH st' (tick_keeps_shape st i st' row ev Hs Hgi Ht) Hg')
      as [H1 H2].
    destruct (run st' rest) as [[logs fin] e]. cbn [fst snd] in *.
    split; [exact H1|constructor; [exact Hs|exact H2]].
Qed.

(** The counters and the window stay in shape whatever the receiver
    reports. *)
Lemma initial_state_loop_shape (size0 : Z) : loop_shape (initial_state size0).
Proof.
  constructor; cbn; try discriminate;
    unfold ENTRY_SECONDS, PPS_WINDOW_SEC; try lia; auto.
Qed.

Lemma tick_keeps_loop_shape (st : loop_state) (i : tick_input)
      (st' : loop_state) (row : metrics_row) (ev : option event_row) :
  loop_shape st -> tick st i = TickContinue st' row ev -> loop_shape st'.
Proof.
  intros [Hen Hex Hin Hout Hw Hd] Ht.
  destruct (tick_size_read _ _ _ _ _ Ht) as [size Hsize].
  destruct (tick_steps st i size Hsize)
    as (st2 & row2 & ev2 & Ht2 & Hp & Hh & _ & Hcases).
  rewrite Ht in Ht2. injection Ht2 as <- <- <-.
  set (h' := push_window (delta_history st) (Z.max 0 (size - prev_size st))) in *.
  assert (Hn' : Forall (fun d => (0 <= d)%Z) h')
    by (apply push_window_Forall; [assumption|lia]).
  assert (Hl' : (Z.of_nat (length h') <= PPS_WINDOW_SEC)%Z)
    by now apply push_window_length.
  unfold ENTRY_SECONDS, EXIT_SECONDS in *.
  destruct (update_counters_cases h' (entry_counter st) (exit_counter st) Hn')
    as [E|[E _]]; rewrite E in Hcases; cbn [fst snd] in Hcases;
    destruct Hcases as [C|[C|[C|C]]];
    destruct C as (S0 & Hc & S1 & E1 & E2 & _);
    (constructor; unfold ENTRY_SECONDS, EXIT_SECONDS;
     [ rewrite E1; lia | rewrite E2; lia
     | intros S2; rewrite E2; first [congruence | lia]
     | intros S2; rewrite E1; first [congruence | lia]
     | rewrite Hh; exact Hl' | rewrite Hh; exact Hn' ]).
Qed.

Lemma run_keeps_loop_shape (inputs : list tick_input) :
  forall st : loop_state,
    loop_shape st ->
    loop_shape (snd (fst (run st inputs)))
    /\ Forall (fun l => loop_shape (before l)) (fst (fst (run st inputs))).
Proof.
  induction inputs as [|i rest IH]; intros st Hs; cbn [run].
  - split; [exact Hs|constructor].
  - destruct (tick st i) as [| |st' row ev] eqn:Ht;
      try (split; [exact Hs|constructor]).
    destruct (IH st' (tick_keeps_loop_shape st i st' row ev Hs Ht))
      as [H1 H2].
    destruct (run st' rest) as [[logs fin] e]. cbn [fst snd] in *.
    split; [exact H1|constructor; [exact Hs|exact H2]].
Qed.

End MonitorLoop.

(** ** Timeline repair *)

Section TimelineProofs.
Import AnalyzeLoop TimelineSpec.
Local Open Scope nat_scope.

Lemma bool_mean_gt (l : list bool) (p q : positive) :
  mean_gt (bool_mean l) (Z.pos p # q)
  = (Z.pos p * Z.of_nat (length l) <? Z.pos q * Z.of_nat (count_true l))%Z.
Proof.
  unfold mean_gt, bool_mean, count_true.
  destruct l as [|b l];
    [cbn [length filter Z.of_nat]; now rewrite !Z.mul_0_r|].
  set (k := length (filter (fun b => b) (b :: l))).
  set (n := length (b :: l)).
  assert (Hn : (0 < Z.of_nat n)%Z) by (unfold n; cbn [length]; lia).
  clearbody k n.
  unfold Qlt_bool.
  destruct (Z.pos p * Z.of_nat n <? Z.pos q * Z.of_nat k)%Z eqn:E.
  - apply Z.ltb_lt in E. apply negb_true_iff.
    destruct (Qle_bool _ _) eqn:Hq; [|reflexivity].
    apply Qle_bool_iff in Hq. exfalso. revert Hq. apply Qlt_not_le.
    apply Qlt_shift_div_l; [change 0%Q with (inject_Z 0); now rewrite <- Zlt_Qlt|].
    unfold Qlt, Qmult, inject_Z. cbn [Qnum Qden]. lia.
  - apply Z.ltb_ge in E. apply negb_false_iff. apply Qle_bool_iff.
    apply Qle_shift_div_r; [change 0%Q with (inject_Z 0); now rewrite <- Zlt_Qlt|].
    unfold Qle, Qmult, inject_Z. cbn [Qnum Qden]. lia.
Qed.

Lemma insert_sorted_length {A} (leb : A -> A -> bool) (x : A) (l : list A) :
  length (insert_sorted leb x l) = S (length l).
Proof.
  induction l as [|y l IH]; cbn; [reflexivity|].
  destruct (leb x y); cbn; [reflexivity|now rewrite IH].
Qed.

Lemma sort_by_length {A} (leb : A -> A -> bool) (l : list A) :
  length (sort_by leb l) = length l.
Proof.
  induction l as [|x l IH]; cbn; [reflexivity|].
  now rewrite insert_sorted_length, IH.
Qed.

Lemma seconds_zero (d : Z) :
  Qeq_bool (inject_Z d / inject_Z NS_PER_S) 0 = Z.eqb 0 d.
Proof.
  destruct (Z.eqb 0 d) eqn:E.
  - apply Z.eqb_eq in E. subst d. reflexivity.
  - apply Z.eqb_neq in E. destruct (Qeq_bool _ _) eqn:Hq; [|reflexivity].
    apply Qeq_bool_iff in Hq. exfalso. apply E.
    unfold Qeq, Qdiv, Qmult, Qinv, inject_Z, NS_PER_S in Hq.
    cbn [Qnum Qden] in Hq. lia.
Qed.

Lemma zero_count_seconds (ds : list Z) :
  count_true (map (fun d => Qeq_bool d 0)
                  (map (fun d => (inject_Z d / inject_Z NS_PER_S)%Q) ds))
  = count_true (map (Z.eqb 0) ds).
Proof.
  unfold count_true. induction ds as [|d ds IH]; [reflexivity|].
  cbn [map filter]. rewrite seconds_zero.
  destruct (Z.eqb 0 d); cbn [length]; now rewrite IH.
Qed.

Lemma one_hz_length (base : Z) (n : nat) : length (one_hz base n) = n.
Proof.
  unfold one_hz. now rewrite length_map, length_seq.
Qed.

Lemma one_hz_steps (base : Z) (n : nat) : one_second_steps base (one_hz base n).
Proof.
  intros i Hi. rewrite one_hz_length in Hi. unfold one_hz.
  rewrite nth_error_map, nth_error_seq.
  destruct (Nat.ltb_spec i n); [reflexivity|lia].
Qed.

Lemma steps_sorted (base : Z) (start n : nat) :
  StronglySorted Z.lt
    (map (fun i => (base + Z.of_nat i * NS_PER_S)%Z) (seq start n)).
Proof.
  revert start. induction n as [|n IH]; intros start; cbn [seq map];
    constructor; [apply IH|].
  apply Forall_forall. intros x Hx. apply in_map_iff in Hx.
  destruct Hx as (j & <- & Hj). apply in_seq in Hj.
  unfold NS_PER_S. lia.
Qed.

Lemma one_hz_ordered (base : Z) (n : nat) : time_ordered (one_hz base n).
Proof.
  exists (map (fun i => (base + Z.of_nat i * NS_PER_S)%Z) (seq 0 n)).
  split; [unfold one_hz; now rewrite map_map|apply steps_sorted].
Qed.

Lemma consecutive_diffs_two (l : list Z) :
  consecutive_diffs l <> [] -> 2 <= length l.
Proof.
  destruct l as [|a [|b l]]; cbn; try congruence. intros _; lia.
Qed.

Lemma first_parsed (t : list (option Z)) :
  ns_diffs t <> [] -> exists base, hd_error (dropna t) = Some base.
Proof.
  intros H. apply consecutive_diffs_two in H. rewrite sort_by_length in H.
  destruct (dropna t) as [|base l]; [cbn in H; lia|]. now exists base.
Qed.

Section Repair.
Variable raw : Type.
Variable to_datetime : list raw -> list (option Z).
Variable ts : list raw.

Lemma mostly_unparsed_test :
  mean_gt (bool_mean (map isna (to_datetime ts))) (5 # 10) = true
  <-> mostly_unparsed (to_datetime ts).
Proof.
  rewrite bool_mean_gt, length_map. unfold mostly_unparsed.
  rewrite Z.ltb_lt. lia.
Qed.

Lemma too_coarse_test :
  ((0 <? length (sorted_diffs (to_datetime ts)))
   && (mean_gt (bool_mean (map (fun d => Qeq_bool d 0)
                               (sorted_diffs (to_datetime ts)))) (2 # 10)
       || Qeq_bool (median (sorted_diffs (to_datetime ts))) 0))%bool = true
  <-> too_coarse (to_datetime ts).
Proof.
  unfold too_coarse. rewrite andb_true_iff, orb_true_iff, Nat.ltb_lt.
  rewrite bool_mean_gt, Z.ltb_lt, Qeq_bool_iff.
  unfold sorted_diffs at 1 2 3. fold (ns_diffs (to_datetime ts)).
  rewrite zero_count_seconds, !length_map.
  destruct (ns_diffs (to_datetime ts)) as [|d ds] eqn:E.
  - cbn [length]. split; [intros [H _]; lia|intros [H _]; congruence].
  - split; intros [_ H]; (split; [cbn [length]; first [lia|congruence]|]);
      (destruct H as [H|H]; [left; lia|right; exact H]).
Qed.

Lemma parse_timestamp_series_cases :
  let t := to_datetime ts in
  let out := parse_timestamp_series raw to_datetime ts in
  (mostly_unparsed t -> out = one_hz 0 (length ts))
  /\ (~ mostly_unparsed t -> too_coarse t ->
      exists base, hd_error (dropna t) = Some base
                   /\ out = one_hz base (length ts))
  /\ (~ mostly_unparsed t -> ~ too_coarse t -> out = t).
Proof.
  intros t out. unfold out, parse_timestamp_series. fold t.
  pose proof mostly_unparsed_test as H1. pose proof too_coarse_test as H2.
  fold t in H1, H2.
  destruct (mean_gt (bool_mean (map isna t)) (5 # 10)) eqn:E1.
  - split; [reflexivity|]. split; intros C; exfalso; apply C; now apply H1.
  - assert (N1 : ~ mostly_unparsed t) by (intros C; apply H1 in C; congruence).
    split; [intros C; contradiction|].
    destruct (0 <? length (sorted_diffs t)) eqn:E2; cbn [andb] in H2.
    + destruct (mean_gt _ (2 # 10) || Qeq_bool _ 0)%bool eqn:E3.
      * split; [|intros _ C; exfalso; apply C; now apply H2].
        intros _ [Hne _]. destruct (first_parsed t Hne) as [base Hb].
        exists base. split; [assumption|].
        destruct (dropna t); [discriminate|]. now injection Hb as ->.
      * split; [intros _ C; apply H2 in C; congruence|reflexivity].
    + split; [intros _ C; apply H2 in C; congruence|reflexivity].
Qed.

End Repair.

(** C4 (amended).  For every raw timestamp sequence (whose parse keeps one
    value per row): the result has one entry per row; if more than half the
    values fail to parse it is the one-second-step sequence from the epoch;
    otherwise, if more than 20% of the differences between successive parsed
    values (in ascending order) are zero or their median is zero, it is the
    one-second-step sequence from the first parsed value in row order; in
    both cases every row has a timestamp and they are strictly increasing.
    In the remaining case the parsed series is returned as it is. *)
Theorem timeline_repair_cases (raw : Type)
        (to_datetime : list raw -> list (option Z)) (ts : list raw) :
  length (to_datetime ts) = length ts ->
  let t := to_datetime ts in
  let out := parse_timestamp_series raw to_datetime ts in
  length out = length ts
  /\ (mostly_unparsed t ->
      out = one_hz 0 (length ts)
      /\ one_second_steps 0 out /\ time_ordered out)
  /\ (~ mostly_unparsed t -> too_coarse t ->
      exists base,
        hd_error (dropna t) = Some base
        /\ out = one_hz base (length ts)
        /\ one_second_steps base out /\ time_ordered out)
  /\ (~ mostly_unparsed t -> ~ too_coarse t -> out = t).
Proof.
  intros Hlen t out.
  pose proof (parse_timestamp_series_cases raw to_datetime ts) as H.
  cbv zeta in H. fold t out in H. destruct H as (H1 & H2 & H3).
  assert (Hl : length out = length ts).
  { unfold out, parse_timestamp_series. fold t.
    destruct (mean_gt _ (5 # 10)); [apply one_hz_length|].
    destruct (0 <? _); [|exact Hlen].
    destruct (_ || _)%bool; [apply one_hz_length|exact Hlen]. }
  split; [exact Hl|]. split; [|split].
  - intros C. rewrite (H1 C).
    repeat split; [apply one_hz_steps|apply one_hz_ordered].
  - intros N C. destruct (H2 N C) as (base & Hb & E). exists base.
    rewrite E. repeat split; [assumption|apply one_hz_steps|apply one_hz_ordered].
  - exact H3.
Qed.

Lemma timeline_repair_cases_witness :
  let t := out_of_order in
  let out := parse_timestamp_series (option Z) (fun l => l) out_of_order in
  length out = length out_of_order
  /\ (mostly_unparsed t ->
      out = one_hz 0 (length out_of_order)
      /\ one_second_steps 0 out /\ time_ordered out)
  /\ (~ mostly_unparsed t -> too_coarse t ->
      exists base,
        hd_error (dropna t) = Some base
        /\ out = one_hz base (length out_of_order)
        /\ one_second_steps base out /\ time_ordered out)
  /\ (~ mostly_unparsed t -> ~ too_coarse t -> out = t).
Proof.
  apply (timeline_repair_cases (option Z) (fun l => l) out_of_order).
  reflexivity.
Defined.

(** Against C4 as stated: a series that parses and is not coarse is
    returned unchanged, out of order or with its NaT, so the result is not
    always a strictly time-ordered timestamp per row. *)
Lemma parsed_series_not_ordered :
  parse_timestamp_series (option Z) (fun l => l) out_of_order = out_of_order
  /\ ~ time_ordered out_of_order
  /\ parse_timestamp_series (option Z) (fun l => l) with_nat = with_nat
  /\ ~ time_ordered with_nat.
Proof.
  split; [vm_compute; reflexivity|]. split; [|split; [vm_compute; reflexivity|]].
  - intros (v & E & S). unfold out_of_order in E.
    destruct v as [|a [|b [|c [|]]]]; try discriminate.
    injection E as <- <- <-. inversion S as [|? ? _ F]; subst.
    inversion F as [|? ? Hlt _]; subst. lia.
  - intros (v & E & _). unfold with_nat in E.
    destruct v as [|a [|b v]]; discriminate.
Qed.

End TimelineProofs.

(** ** Distance features *)

Section EnhancerProofs.
Import AnalyzeLoop EnhancerSpec.
Local Open Scope nat_scope.


Lemma transpose_length (n : nat) (cols : list (list float)) :
  length (transpose n cols) = n.
Proof.
  unfold transpose. now rewrite length_map, length_seq.
Qed.































Lemma no_reference_no_table (metrics : list sample) :
  add_distance_features_metrics metrics [] = None.
Proof. reflexivity. Qed.

End EnhancerProofs.

(** ** Range profiles *)

Section ProfileProofs.
Import AnalyzeLoop ProfileSpec.
Local Open Scope nat_scope.

Lemma option_string_compare_antisym (a b : option string) :
  option_string_compare b a = CompOpp (option_string_compare a b).
Proof.
  destruct a, b; cbn [option_string_compare CompOpp]; try reflexivity.
  apply String.compare_antisym.
Qed.

Lemma string_compare_refl (s : string) : String.compare s s = Eq.
Proof.
  pose proof (String.compare_antisym s s) as H.
  destruct (String.compare s s); cbn in H; congruence.
Qed.

Lemma option_string_compare_eq (a b : option string) :
  option_string_compare a b = Eq <-> a = b.
Proof.
  destruct a as [x|], b as [y|]; cbn [option_string_compare];
    try (split; congruence).
  split; [intros H; f_equal; now apply String.compare_eq_iff|].
  intros [= ->]. apply string_compare_refl.
Qed.

Lemma group_key_leb_total (k1 k2 : group_key) :
  group_key_leb k1 k2 = true \/ group_key_leb k2 k1 = true.
Proof.
  unfold group_key_leb. rewrite (option_string_compare_antisym (fst k1) (fst k2)).
  destruct (option_string_compare (fst k1) (fst k2)); cbn; auto.
  unfold Rleb. destruct (Rle_dec (snd k1) (snd k2)); [now left|right].
  destruct (Rle_dec (snd k2) (snd k1)); [reflexivity|lra].
Qed.

Lemma key_le_lexicographic (g1 g2 : option string) (b1 b2 : R) :
  key_le (g1, b1) (g2, b2)
  <-> option_string_compare g1 g2 = Lt \/ (g1 = g2 /\ (b1 <= b2)%R).
Proof.
  unfold key_le, group_key_leb, Rleb. cbn [fst snd].
  destruct (option_string_compare g1 g2) eqn:E.
  - apply option_string_compare_eq in E. subst g2.
    destruct (Rle_dec b1 b2); split; auto; try discriminate.
    intros [C|[_ C]]; [discriminate|contradiction].
  - split; auto.
  - split; [discriminate|]. intros [C|[-> _]]; [discriminate|].
    assert (Heq : option_string_compare g2 g2 = Eq)
      by now apply option_string_compare_eq.
    congruence.
Qed.

Lemma list_sum_perm (l l' : list nat) :
  Permutation l l' -> list_sum l = list_sum l'.
Proof.
  unfold list_sum. induction 1; cbn [fold_right]; lia.
Qed.

Lemma list_sum_map_add {A} (f g : A -> nat) (l : list A) :
  list_sum (map (fun x => f x + g x) l)
  = list_sum (map f l) + list_sum (map g l).
Proof.
  unfold list_sum. induction l as [|x l IH]; cbn [map fold_right]; lia.
Qed.

Lemma list_sum_zero {A} (l : list A) : list_sum (map (fun _ => 0) l) = 0.
Proof.
  unfold list_sum. induction l; cbn [map fold_right]; auto.
Qed.

Lemma list_sum_cons (x : nat) (l : list nat) :
  list_sum (x :: l) = x + list_sum l.
Proof. reflexivity. Qed.

Lemma hits_of_keyed_row (ks : list group_key) (r : keyed_row) (k0 : group_key) :
  NoDup ks -> In k0 ks -> kr_key r = Some k0 ->
  list_sum (map (fun k => hit k r) ks) = 1.
Proof.
  intros Hnd Hin Hk. unfold hit, has_key. rewrite Hk.
  induction Hnd as [|k ks Hk0 Hnd IH]; [contradiction|].
  cbn [map]. rewrite list_sum_cons.
  destruct (group_key_eq_dec k0 k) as [->|Hne].
  - rewrite (map_ext_in _ (fun _ => 0)); [now rewrite list_sum_zero|].
    intros k' Hk'. destruct (group_key_eq_dec k k'); [congruence|reflexivity].
  - destruct Hin as [C|Hin]; [congruence|]. now rewrite IH.
Qed.

Lemma hits_of_dropped_row (ks : list group_key) (r : keyed_row) :
  kr_key r = None -> list_sum (map (fun k => hit k r) ks) = 0.
Proof.
  intros Hk. unfold hit, has_key. rewrite Hk. apply list_sum_zero.
Qed.

(** Every row with a key falls in exactly one group. *)
Lemma groups_partition (rows : list keyed_row) (ks : list group_key) :
  NoDup ks ->
  (forall k, In k (dropna (map kr_key rows)) -> In k ks) ->
  list_sum (map (fun k => length (filter (has_key k) rows)) ks)
  = length (dropna (map kr_key rows)).
Proof.
  intros Hnd. induction rows as [|r rows IH]; intros Hall.
  - cbn. apply list_sum_zero.
  - rewrite (map_ext _ (fun k => hit k r + length (filter (has_key k) rows))).
    2:{ intros k. unfold hit. cbn [filter]. now destruct (has_key k r). }
    rewrite list_sum_map_add. cbn [map dropna] in *.
    destruct (kr_key r) as [k0|] eqn:Hk.
    + rewrite (hits_of_keyed_row ks r k0 Hnd); [|apply Hall; now left|exact Hk].
      rewrite IH; [reflexivity|]. intros k H. apply Hall. now right.
    + rewrite hits_of_dropped_row by exact Hk. rewrite IH; [reflexivity|].
      exact Hall.
Qed.

Lemma groupby_agg_keys (bin_m : float) (rows : list keyed_row) :
  Permutation (map profile_key (groupby_agg bin_m rows))
              (unique group_key_eq_dec (dropna (map kr_key rows))).
Proof.
  unfold groupby_agg.
  rewrite (Permutation_map profile_key (sort_by_perm _ _)).
  rewrite map_map. cbn [profile_key aggregate pr_nearest_rsu dist_bin_m].
  rewrite (map_ext _ (fun k => k)) by (intros [g b]; reflexivity).
  rewrite map_id. apply sort_by_perm.
Qed.

Lemma groupby_agg_row (bin_m : float) (rows : list keyed_row) (p : profile_row) :
  In p (groupby_agg bin_m rows) -> p = aggregate bin_m rows (profile_key p).
Proof.
  unfold groupby_agg. intros H.
  apply (Permutation_in _ (sort_by_perm _ _)) in H.
  apply in_map_iff in H. destruct H as ([g b] & <- & _). reflexivity.
Qed.

Lemma groupby_agg_total (bin_m : float) (rows : list keyed_row) :
  total_samples (groupby_agg bin_m rows) = length (dropna (map kr_key rows)).
Proof.
  unfold total_samples, groupby_agg.
  rewrite (list_sum_perm _ _ (Permutation_map n_samples (sort_by_perm _ _))).
  rewrite map_map. cbn [n_samples aggregate].
  rewrite (list_sum_perm _ _ (Permutation_map _ (sort_by_perm _ _))).
  apply groups_partition; [apply unique_nodup|].
  intros k Hk. now apply unique_in.
Qed.

Lemma groupby_agg_sorted (bin_m : float) (rows : list keyed_row) :
  Sorted key_le (map profile_key (groupby_agg bin_m rows)).
Proof.
  unfold groupby_agg.
  set (l := map (aggregate bin_m rows) _).
  pose proof (sort_by_sorted
                (fun p q => group_key_leb (profile_key p) (profile_key q))
                (fun p q => group_key_leb_total (profile_key p) (profile_key q))
                l) as H.
  induction H as [|p ps Hs IH Hh]; cbn [map]; constructor; [exact IH|].
  destruct Hh; cbn [map]; constructor. assumption.
Qed.

Lemma build_nearest_rows (e : enhanced) (bin_m : float) :
  build_range_profile_nearest e bin_m = groupby_agg bin_m (nearest_rows e bin_m).
Proof. reflexivity. Qed.

Lemma dist_bin_finite (d w : R) :
  w <> 0%R -> dist_bin (Fin d) (Fin w) = Fin (bin_edge d w).
Proof.
  intros Hw. unfold dist_bin, floor_divide, bin_edge.
  destruct (Req_dec_T w 0); [contradiction|reflexivity].
Qed.

Lemma nearest_rows_keys (e : enhanced) (w : R) :
  w <> 0%R -> columns_aligned e ->
  map kr_key (nearest_rows e (Fin w))
  = map (key_of e w) (combine (nearest_rsu e) (dist_from_rsu_m e)).
Proof.
  intros Hw [HN HD]. unfold nearest_rows, key_of, sample_key.
  generalize (by_reference e) as grouped. intros grouped.
  revert HN HD.
  generalize (samples e) as S, (nearest_rsu e) as N, (dist_from_rsu_m e) as D.
  induction S as [|s S IH]; intros [|n N] [|d D] HN HD; try discriminate;
    [reflexivity|].
  cbn [combine map kr_key fst snd]. f_equal.
  - destruct d as [|d]; [reflexivity|]. now rewrite dist_bin_finite.
  - apply IH; [now injection HN|now injection HD].
Qed.

Lemma keys_count (e : enhanced) (w : R) (N : list string) (D : list float) :
  length N = length D ->
  length (dropna (map (key_of e w) (combine N D))) = length (finite_values D).
Proof.
  revert D. induction N as [|n N IH]; intros [|d D] H; try discriminate;
    [reflexivity|].
  cbn [combine map]. unfold key_of at 1. cbn [snd fst].
  destruct d as [|d]; cbn [dropna finite_values length];
    rewrite IH by (now injection H); reflexivity.
Qed.

Lemma keys_member (e : enhanced) (w : R) (N : list string) (D : list float)
      (i : nat) (name : string) (d : R) :
  nth_error N i = Some name -> nth_error D i = Some (Fin d) ->
  In (Some (sample_key e w name d)) (map (key_of e w) (combine N D)).
Proof.
  revert D i. induction N as [|n N IH]; intros [|x D] [|i] HN HD;
    try discriminate; cbn [combine map nth_error] in *.
  - injection HN as ->. injection HD as ->. now left.
  - right. now apply (IH D i).
Qed.

Lemma dropna_in {A} (l : list (option A)) (x : A) :
  In x (dropna l) <-> In (Some x) l.
Proof.
  induction l as [|[y|] l IH]; cbn; [tauto| |].
  - rewrite IH. split; intros [H|H]; auto; left; congruence.
  - rewrite IH. split; [auto|]. intros [H|H]; [discriminate|exact H].
Qed.

Lemma bin_edge_bounds (d w : R) :
  (0 < w)%R -> (bin_edge d w <= d < bin_edge d w + w)%R.
Proof.
  intros Hw. unfold bin_edge.
  pose proof (Zfloor_bound (d / w)) as [H1 H2].
  assert (Hd : (d = d / w * w)%R) by (field; lra).
  split; nra.
Qed.

(** C3.  For every enhanced table with aligned columns and every strictly
    positive bin width: the [n_samples] of the nearest profile add up to the
    number of samples with a valid nearest distance; its rows are in
    ascending order of group key, then bin, with no key twice; and every
    sample with a valid distance [d] lies in the left-closed right-open bin
    whose lower edge is [floor (d / bin_m) * bin_m] and is counted in exactly
    one row, the one with its group key and that edge. *)
Theorem nearest_profile_partitions (e : enhanced) (bin_m : R) :
  (0 < bin_m)%R -> columns_aligned e ->
  let out := build_range_profile_nearest e (Fin bin_m) in
  total_samples out = length (valid_distances e)
  /\ Sorted key_le (map profile_key out)
  /\ NoDup (map profile_key out)
  /\ (forall g1 g2 b1 b2,
         key_le (g1, b1) (g2, b2)
         <-> option_string_compare g1 g2 = Lt \/ (g1 = g2 /\ (b1 <= b2)%R))
  /\ forall i name d,
      nth_error (nearest_rsu e) i = Some name ->
      nth_error (dist_from_rsu_m e) i = Some (Fin d) ->
      (bin_edge d bin_m <= d < bin_edge d bin_m + bin_m)%R
      /\ exists p,
          In p out
          /\ profile_key p = sample_key e bin_m name d
          /\ 1 <= n_samples p
          /\ forall p', In p' out ->
                        profile_key p' = sample_key e bin_m name d -> p' = p.
Proof.
  intros Hw Hal out. unfold out. rewrite build_nearest_rows.
  assert (Hw0 : bin_m <> 0%R) by lra.
  pose proof (nearest_rows_keys e bin_m Hw0 Hal) as Hkeys.
  set (rows := nearest_rows e (Fin bin_m)) in *.
  assert (Hnd : NoDup (map profile_key (groupby_agg (Fin bin_m) rows))).
  { eapply Permutation_NoDup; [symmetry; apply groupby_agg_keys|].
    apply unique_nodup. }
  split.
  { rewrite groupby_agg_total, Hkeys. unfold valid_distances.
    apply keys_count. destruct Hal as [-> ->]. reflexivity. }
  split; [apply groupby_agg_sorted|]. split; [exact Hnd|].
  split; [apply key_le_lexicographic|].
  intros i name d Hn Hd. split; [now apply bin_edge_bounds|].
  set (k := sample_key e bin_m name d).
  assert (Hin : In (Some k) (map kr_key rows))
    by (rewrite Hkeys; now apply (keys_member e bin_m _ _ i)).
  assert (Hk : In k (map profile_key (groupby_agg (Fin bin_m) rows))).
  { eapply Permutation_in; [symmetry; apply groupby_agg_keys|].
    apply unique_in. now apply dropna_in. }
  apply in_map_iff in Hk. destruct Hk as (p & Hpk & Hp).
  exists p. split; [exact Hp|]. split; [exact Hpk|]. split.
  - rewrite (groupby_agg_row _ _ _ Hp), Hpk. cbn [n_samples aggregate].
    apply in_map_iff in Hin. destruct Hin as (r & Hr & Hrin).
    assert (Hf : In r (filter (has_key k) rows)).
    { apply filter_In. split; [exact Hrin|]. unfold has_key. rewrite Hr.
      destruct (group_key_eq_dec k k); [reflexivity|congruence]. }
    destruct (filter (has_key k) rows); [contradiction|cbn; lia].
  - intros p' Hp' Hpk'.
    rewrite (groupby_agg_row _ _ _ Hp), (groupby_agg_row _ _ _ Hp').
    now rewrite Hpk, Hpk'.
Qed.

Lemma nearest_profile_partitions_witness :
  let out := build_range_profile_nearest three_samples (Fin 50) in
  total_samples out = length (valid_distances three_samples)
  /\ Sorted key_le (map profile_key out)
  /\ NoDup (map profile_key out)
  /\ (forall g1 g2 b1 b2,
         key_le (g1, b1) (g2, b2)
         <-> option_string_compare g1 g2 = Lt \/ (g1 = g2 /\ (b1 <= b2)%R))
  /\ forall i name d,
      nth_error (nearest_rsu three_samples) i = Some name ->
      nth_error (dist_from_rsu_m three_samples) i = Some (Fin d) ->
      (bin_edge d 50 <= d < bin_edge d 50 + 50)%R
      /\ exists p,
          In p out
          /\ profile_key p = sample_key three_samples 50 name d
          /\ 1 <= n_samples p
          /\ forall p', In p' out ->
                        profile_key p' = sample_key three_samples 50 name d ->
                        p' = p.
Proof.
  apply nearest_profile_partitions.
  - lra.
  - split; reflexivity.
Defined.

End ProfileProofs.

(** ** Elevation lookup *)

Section ElevationProofs.
Import AnalyzeLoop ElevationSpec.
Local Open Scope nat_scope.
Variable fetch : nat -> float -> float -> option float.

Lemma queries_to_app (key : coord) (a b : list elev_io) :
  queries_to key (a ++ b) = queries_to key a + queries_to key b.
Proof.
  unfold queries_to. now rewrite filter_app, length_app.
Qed.

Lemma queries_to_failed_same (key : coord) (attempts : list nat) :
  queries_to key (failed_attempts key attempts) = length attempts.
Proof.
  unfold queries_to, failed_attempts.
  induction attempts as [|a l IH]; [reflexivity|].
  cbn [flat_map app filter is_query]. destruct key as [la lo]. cbn [fst snd] in *.
  destruct (coord_eq_dec (la, lo) (la, lo)); [|congruence].
  cbn [length]. now rewrite IH.
Qed.

Lemma queries_to_failed_other (key key' : coord) (attempts : list nat) :
  key' <> key -> queries_to key (failed_attempts key' attempts) = 0.
Proof.
  intros Hne. unfold queries_to, failed_attempts.
  induction attempts as [|a l IH]; [reflexivity|].
  cbn [flat_map app filter is_query]. destruct key' as [la lo]. cbn [fst snd] in *.
  destruct (coord_eq_dec (la, lo) key); [congruence|exact IH].
Qed.

Lemma queries_to_query (key key' : coord) :
  queries_to key [Query (fst key') (snd key')]
  = if coord_eq_dec key' key then 1 else 0.
Proof.
  unfold queries_to. cbn [filter is_query]. destruct key' as [la lo].
  cbn [fst snd]. now destruct (coord_eq_dec (la, lo) key).
Qed.

Lemma retry_shape_count (max : nat) (key key' : coord) (seg : list elev_io) :
  retry_shape max key' seg ->
  queries_to key seg <= max /\ (key' <> key -> queries_to key seg = 0).
Proof.
  intros [->|(m & Hm & ->)].
  - destruct (coord_eq_dec key' key) as [->|Hne].
    + rewrite queries_to_failed_same, length_seq. split; [lia|congruence].
    + rewrite queries_to_failed_other by exact Hne. split; [lia|reflexivity].
  - rewrite queries_to_app, queries_to_query.
    destruct (coord_eq_dec key' key) as [->|Hne].
    + rewrite queries_to_failed_same, length_seq. split; [lia|congruence].
    + rewrite queries_to_failed_other by exact Hne. split; [lia|reflexivity].
Qed.

(** A coordinate listed once is queried in one retry loop only. *)
Lemma batch_shape_count (max : nat) (sleep_s : R) (missing : list coord) :
  forall (io : list elev_io) (key : coord),
    NoDup missing -> batch_shape max sleep_s missing io ->
    queries_to key io <= max
    /\ (~ In key missing -> queries_to key io = 0).
Proof.
  induction missing as [|k rest IH]; intros io key Hnd Hs; cbn in Hs.
  - subst io. split; [cbn; lia|reflexivity].
  - destruct Hs as (seg & io' & Hseg & -> & Hrest).
    inversion Hnd as [|? ? Hk Hnd']; subst.
    destruct (IH io' key Hnd' Hrest) as [Hle Hz].
    destruct (retry_shape_count max key k seg Hseg) as [Hsl Hsz].
    change (Sleep sleep_s :: io') with ([Sleep sleep_s] ++ io').
    rewrite !queries_to_app. change (queries_to key [Sleep sleep_s]) with 0.
    destruct (coord_eq_dec k key) as [->|Hne].
    + rewrite (Hz Hk). split; [lia|]. intros C. exfalso. apply C. now left.
    + rewrite (Hsz Hne). split; [lia|]. intros C. apply Hz.
      intros D. apply C. now right.
Qed.

Lemma retry_loop_shape (n : nat) :
  forall (a calls : nat) (lat_r lon_r : float),
    let '(r, io, calls') := retry_loop fetch (seq a n) calls lat_r lon_r in
    (r = None /\ io = failed_attempts (lat_r, lon_r) (seq a n))
    \/ (exists m, m < n
                  /\ r <> None
                  /\ io = failed_attempts (lat_r, lon_r) (seq a m)
                          ++ [Query lat_r lon_r]).
Proof.
  induction n as [|n IH]; intros a calls lat_r lon_r; cbn [seq retry_loop].
  - left. split; reflexivity.
  - destruct (fetch calls lat_r lon_r) as [e|].
    + right. exists 0. split; [lia|]. split; [discriminate|reflexivity].
    + specialize (IH (S a) (S calls) lat_r lon_r).
      destruct (retry_loop fetch (seq (S a) n) (S calls) lat_r lon_r)
        as [[r io] calls'].
      destruct IH as [[-> ->]|(m & Hm & Hr & ->)].
      * left. split; reflexivity.
      * right. exists (S m). split; [lia|]. split; [exact Hr|reflexivity].
Qed.

Variable max_retries : Z.
Variable sleep_s : R.

Lemma resolve_point_io (st : resolver_state) (key : coord) :
  exists seg,
    retry_shape (Z.to_nat max_retries) key seg
    /\ io_log (resolve_point fetch max_retries sleep_s st key) = io_log st ++ seg ++ [Sleep sleep_s]
    /\ seg = snd (fst (retry_loop fetch (seq 1 (Z.to_nat max_retries)) (calls_made st)
                                  (fst key) (snd key))).
Proof.
  destruct key as [lat_r lon_r]. unfold resolve_point. cbn [fst snd].
  pose proof (retry_loop_shape (Z.to_nat max_retries) 1 (calls_made st) lat_r lon_r) as H.
  destruct (retry_loop fetch (seq 1 (Z.to_nat max_retries)) (calls_made st) lat_r lon_r)
    as [[r io] calls'].
  exists io. split; [|split; reflexivity].
  destruct H as [[_ ->]|(m & Hm & _ & ->)]; [now left|right].
  exists m. split; [exact Hm|reflexivity].
Qed.

Lemma fold_io (missing : list coord) :
  forall st : resolver_state,
  exists io,
    io_log (fold_left (resolve_point fetch max_retries sleep_s) missing st) = io_log st ++ io
    /\ batch_shape (Z.to_nat max_retries) sleep_s missing io.
Proof.
  induction missing as [|key rest IH]; intros st; cbn [fold_left].
  - exists []. split; [now rewrite app_nil_r|reflexivity].
  - destruct (resolve_point_io st key) as (seg & Hseg & Hio & _).
    destruct (IH (resolve_point fetch max_retries sleep_s st key)) as (io' & Hio' & Hs).
    exists (seg ++ Sleep sleep_s :: io'). split.
    + rewrite Hio', Hio, <- !app_assoc. reflexivity.
    + cbn [batch_shape]. exists seg, io'. repeat split; assumption.
Qed.

Lemma fold_count_turn (missing : list coord) (key : coord) :
  forall st : resolver_state,
    NoDup missing -> In key missing ->
    queries_to key (io_log (fold_left (resolve_point fetch max_retries sleep_s) missing st))
    = queries_to key (io_log st)
      + queries_to key
          (snd (fst (retry_loop fetch (seq 1 (Z.to_nat max_retries))
                       (calls_made (state_before fetch max_retries sleep_s missing st key))
                       (fst key) (snd key)))).
Proof.
  induction missing as [|k rest IH]; intros st Hnd Hin;
    [contradiction|].
  inversion Hnd as [|? ? Hk Hnd']; subst. cbn [fold_left state_before].
  destruct (resolve_point_io st k) as (seg & Hseg & Hio & Hdef).
  destruct (coord_eq_dec k key) as [->|Hne].
  - destruct (fold_io rest (resolve_point fetch max_retries sleep_s st key)) as (io' & Hio' & Hs).
    rewrite Hio', Hio, !queries_to_app.
    destruct (batch_shape_count (Z.to_nat max_retries) sleep_s rest io' key Hnd' Hs) as [_ Hz].
    rewrite (Hz Hk), Hdef. change (queries_to key [Sleep sleep_s]) with 0.
    lia.
  - destruct Hin as [C|Hin]; [congruence|].
    rewrite (IH (resolve_point fetch max_retries sleep_s st k) Hnd' Hin), Hio, !queries_to_app.
    destruct (retry_shape_count (Z.to_nat max_retries) key k seg Hseg) as [_ Hz]. rewrite (Hz Hne).
    change (queries_to key [Sleep sleep_s]) with 0. lia.
Qed.

(** The retry loop whose first [m] attempts fail and whose next one is
    answered. *)
Lemma retry_loop_answered (key : coord) (e : float) (m : nat) :
  forall n a calls,
    m < n -> fails_from fetch calls m key ->
    fetch (calls + m) (fst key) (snd key) = Some e ->
    fst (retry_loop fetch (seq a n) calls (fst key) (snd key))
    = (Some e, failed_attempts key (seq a m) ++ [Query (fst key) (snd key)]).
Proof.
  induction m as [|m IH]; intros n a calls Hn Hf He;
    (destruct n as [|n]; [lia|]); cbn [seq retry_loop].
  - rewrite Nat.add_0_r in He. rewrite He. reflexivity.
  - pose proof (Hf 0 ltac:(lia)) as H0. rewrite Nat.add_0_r in H0. rewrite H0.
    assert (Hf' : fails_from fetch (S calls) m key).
    { intros k Hk. replace (S calls + k) with (calls + S k) by lia.
      apply Hf. lia. }
    assert (He' : fetch (S calls + m) (fst key) (snd key) = Some e)
      by (replace (S calls + m) with (calls + S m) by lia; exact He).
    specialize (IH n (S a) (S calls) ltac:(lia) Hf' He').
    destruct (retry_loop fetch (seq (S a) n) (S calls) (fst key) (snd key))
      as [[r io] calls']. cbn [fst] in *. injection IH as -> ->. reflexivity.
Qed.

(** The retry loop whose attempts all fail. *)
Lemma retry_loop_fails (key : coord) (n : nat) :
  forall a calls,
    fails_from fetch calls n key ->
    fst (retry_loop fetch (seq a n) calls (fst key) (snd key))
    = (None, failed_attempts key (seq a n)).
Proof.
  induction n as [|n IH]; intros a calls Hf; cbn [seq retry_loop];
    [reflexivity|].
  pose proof (Hf 0 ltac:(lia)) as H0. rewrite Nat.add_0_r in H0. rewrite H0.
  assert (Hf' : fails_from fetch (S calls) n key).
  { intros k Hk. replace (S calls + k) with (calls + S k) by lia.
    apply Hf. lia. }
  specialize (IH (S a) (S calls) Hf').
  destruct (retry_loop fetch (seq (S a) n) (S calls) (fst key) (snd key))
    as [[r io] calls']. cbn [fst] in *. injection IH as -> ->. reflexivity.
Qed.

(** ** The cache *)

Lemma py_float_eqb_eq (a b : float) : py_float_eqb a b = true -> a = b.
Proof.
  destruct a as [|x], b as [|y]; cbn; try discriminate.
  destruct (Req_dec_T x y); [now subst|discriminate].
Qed.

Lemma coord_eqb_eq (k1 k2 : coord) : coord_eqb k1 k2 = true -> k1 = k2.
Proof.
  destruct k1 as [a1 b1], k2 as [a2 b2]. unfold coord_eqb. cbn [fst snd].
  intros H. apply andb_true_iff in H. destruct H as [H1 H2].
  apply py_float_eqb_eq in H1, H2. now subst.
Qed.

Lemma cache_get_set_other (c : elev_cache) (key key' : coord) (v : float) :
  key' <> key -> cache_get (cache_set c key' v) key = cache_get c key.
Proof.
  intros Hne. induction c as [|[k v'] c IH]; cbn [cache_set cache_get].
  - destruct (coord_eqb key' key) eqn:E; [|reflexivity].
    apply coord_eqb_eq in E. congruence.
  - destruct (coord_eqb k key') eqn:E1; cbn [cache_get].
    + apply coord_eqb_eq in E1. subst k.
      destruct (coord_eqb key' key) eqn:E2; [|reflexivity].
      apply coord_eqb_eq in E2. congruence.
    + destruct (coord_eqb k key); [reflexivity|exact IH].
Qed.

Lemma cache_get_set_same (c : elev_cache) (key : coord) (v : float) :
  cache_get (cache_set c key v) key = Some v
  \/ cache_get (cache_set c key v) key = None.
Proof.
  induction c as [|[k v'] c IH]; cbn [cache_set cache_get].
  - destruct (coord_eqb key key); auto.
  - destruct (coord_eqb k key) eqn:E; cbn [cache_get]; rewrite E; auto.
Qed.

Lemma cache_set_in_same (c : elev_cache) (key : coord) (v : float) :
  In (key, v) (cache_set c key v).
Proof.
  induction c as [|[k v'] c IH]; cbn [cache_set]; [now left|].
  destruct (coord_eqb k key) eqn:E.
  - apply coord_eqb_eq in E. subst k. now left.
  - right. exact IH.
Qed.

Lemma cache_set_in_other (c : elev_cache) (key key' : coord) (v v' : float) :
  key' <> key -> In (key, v) c -> In (key, v) (cache_set c key' v').
Proof.
  intros Hne. induction c as [|[k w] c IH]; cbn [cache_set]; [intros []|].
  intros [[= -> ->]|H].
  - destruct (coord_eqb key key') eqn:E.
    + apply coord_eqb_eq in E. congruence.
    + now left.
  - destruct (coord_eqb k key'); right; [exact H|now apply IH].
Qed.

Lemma resolve_point_cache (st : resolver_state) (key : coord) :
  exists v, cache_now (resolve_point fetch max_retries sleep_s st key) = cache_set (cache_now st) key v
            /\ (fst (fst (retry_loop fetch (seq 1 (Z.to_nat max_retries)) (calls_made st)
                                     (fst key) (snd key))) = None -> v = NaN)
            /\ (forall e,
                   fst (fst (retry_loop fetch (seq 1 (Z.to_nat max_retries)) (calls_made st)
                                        (fst key) (snd key))) = Some e -> v = e).
Proof.
  destruct key as [lat_r lon_r]. unfold resolve_point. cbn [fst snd].
  destruct (retry_loop fetch (seq 1 (Z.to_nat max_retries)) (calls_made st) lat_r lon_r)
    as [[[e|] io] calls']; cbn [cache_now fst];
    eexists; (split; [reflexivity|]); split;
    first [discriminate|reflexivity|intros e' [= ->]; reflexivity|intros e'; discriminate].
Qed.

Lemma fold_keeps_in (missing : list coord) (key : coord) (v : float) :
  forall st : resolver_state,
    ~ In key missing -> In (key, v) (cache_now st) ->
    In (key, v) (cache_now (fold_left (resolve_point fetch max_retries sleep_s) missing st)).
Proof.
  induction missing as [|k rest IH]; intros st Hn H; cbn [fold_left];
    [exact H|].
  assert (Hne : k <> key) by (intros C; apply Hn; now left).
  apply IH; [intros C; apply Hn; now right|].
  destruct (resolve_point_cache st k) as (w & -> & _).
  now apply cache_set_in_other.
Qed.

Lemma fold_keeps_nan (missing : list coord) (key : coord) :
  forall st : resolver_state,
    ~ In key missing -> holds_nan (cache_now st) key ->
    holds_nan (cache_now (fold_left (resolve_point fetch max_retries sleep_s) missing st)) key.
Proof.
  induction missing as [|k rest IH]; intros st Hn H; cbn [fold_left];
    [exact H|].
  assert (Hne : k <> key) by (intros C; apply Hn; now left).
  apply IH; [intros C; apply Hn; now right|].
  destruct (resolve_point_cache st k) as (v & -> & _).
  destruct H as [H1 H2]. split.
  - now apply cache_set_in_other.
  - now rewrite cache_get_set_other.
Qed.

Lemma fold_stores_value (missing : list coord) (key : coord) (e : float) :
  forall st : resolver_state,
    NoDup missing -> In key missing ->
    fst (fst (retry_loop fetch (seq 1 (Z.to_nat max_retries))
                (calls_made (state_before fetch max_retries sleep_s missing st key))
                (fst key) (snd key))) = Some e ->
    In (key, e) (cache_now (fold_left (resolve_point fetch max_retries sleep_s) missing st)).
Proof.
  induction missing as [|k rest IH]; intros st Hnd Hin Hr;
    [contradiction|].
  inversion Hnd as [|? ? Hk Hnd']; subst. cbn [fold_left].
  cbn [state_before] in Hr.
  destruct (coord_eq_dec k key) as [->|Hne].
  - apply fold_keeps_in; [exact Hk|].
    destruct (resolve_point_cache st key) as (v & -> & _ & Hv).
    rewrite (Hv e Hr). apply cache_set_in_same.
  - destruct Hin as [C|Hin]; [congruence|]. now apply IH.
Qed.

Lemma fold_stores_nan (missing : list coord) (key : coord) :
  forall st : resolver_state,
    NoDup missing -> In key missing ->
    fst (fst (retry_loop fetch (seq 1 (Z.to_nat max_retries))
                (calls_made (state_before fetch max_retries sleep_s missing st key))
                (fst key) (snd key))) = None ->
    holds_nan (cache_now (fold_left (resolve_point fetch max_retries sleep_s) missing st)) key.
Proof.
  induction missing as [|k rest IH]; intros st Hnd Hin Hr;
    [contradiction|].
  inversion Hnd as [|? ? Hk Hnd']; subst. cbn [fold_left].
  cbn [state_before] in Hr.
  destruct (coord_eq_dec k key) as [->|Hne].
  - apply fold_keeps_nan; [exact Hk|].
    destruct (resolve_point_cache st key) as (v & -> & Hv & _).
    rewrite (Hv Hr).
    split; [apply cache_set_in_same|apply cache_get_set_same].
  - destruct Hin as [C|Hin]; [congruence|]. now apply IH.
Qed.

(** ** Rounding *)

Lemma rint_near (x : R) (n : Z) : (Rabs (x - IZR n) < 1 / 2)%R -> rint x = n.
Proof.
  intros H. apply Rabs_def2 in H. destruct H as [H1 H2]. unfold rint.
  destruct (Rle_dec (IZR n) x) as [Hle|Hlt].
  - assert (E : Zfloor x = n) by (apply Zfloor_eq; lra).
    rewrite E. cbv zeta.
    destruct (Rlt_dec (x - IZR n) (1 / 2)); [reflexivity|lra].
  - assert (E : Zfloor x = (n - 1)%Z)
      by (apply Zfloor_eq; rewrite minus_IZR; lra).
    rewrite E. cbv zeta. rewrite minus_IZR.
    destruct (Rlt_dec (x - (IZR n - 1)) (1 / 2)); [lra|].
    destruct (Rlt_dec (1 / 2) (x - (IZR n - 1))); [f_equal; lia|lra].
Qed.

Lemma round_on_grid (decimals : Z) (x : float) (n : Z) :
  rounds_to decimals x n ->
  round_decimals_of decimals x = grid_point decimals n.
Proof.
  destruct x as [|v]; cbn [rounds_to]; [intros []|]. intros H.
  unfold round_decimals_of, grid_point. cbn [lift1].
  now rewrite (rint_near _ n H).
Qed.

Lemma key_on_grid (decimals : Z) (s : sample) (n m : Z) :
  rounds_to decimals (latitude s) n -> rounds_to decimals (longitude s) m ->
  key_of_sample decimals s = (grid_point decimals n, grid_point decimals m).
Proof.
  intros Hn Hm. unfold key_of_sample.
  now rewrite (round_on_grid _ _ n Hn), (round_on_grid _ _ m Hm).
Qed.

Lemma backoff_increases (key : coord) (n a : nat) :
  StronglySorted Rlt (sleeps (failed_attempts key (seq a n))).
Proof.
  revert a. induction n as [|n IH]; intros a; cbn [seq failed_attempts flat_map app sleeps];
    constructor; [apply (IH (S a))|].
  apply Forall_forall. intros t Ht.
  assert (H : forall m b, In t (sleeps (failed_attempts key (seq b m))) ->
                          exists c, b <= c /\ t = (0.4 * INR c)%R).
  { clear. induction m as [|m IHm]; intros b Hb; cbn in Hb; [contradiction|].
    destruct Hb as [<-|Hb]; [exists b; split; [lia|reflexivity]|].
    destruct (IHm (S b) Hb) as (c & Hc & ->). exists c. split; [lia|reflexivity]. }
  destruct (H n (S a) Ht) as (c & Hc & ->).
  assert (INR a < INR c)%R by (apply lt_INR; lia). lra.
Qed.

Lemma missing_nodup (round_decimals : Z) (cache : elev_cache) (df : list sample) :
  NoDup (missing_coords round_decimals cache df).
Proof.
  unfold missing_coords. apply NoDup_filter, unique_nodup.
Qed.

Lemma missing_in (round_decimals : Z) (cache : elev_cache) (df : list sample)
      (key : coord) :
  In key (missing_coords round_decimals cache df)
  <-> (exists s, In s df /\ key_of_sample round_decimals s = key)
      /\ cache_mem cache key = false.
Proof.
  unfold missing_coords, rounded_coords. rewrite filter_In, unique_in, in_map_iff.
  rewrite negb_true_iff. unfold key_of_sample.
  split; intros [(s & H1 & H2) H3]; (split; [exists s; tauto|exact H3]).
Qed.

(** C8.  For every batch: one elevation per row comes back whatever the
    service does; the key of a row is its coordinate rounded to
    [round_decimals] places, the nearest grid point, so rows whose
    coordinates round to one grid point share one key; the coordinates
    queried are the distinct rounded ones the cache lacks, each in one retry
    loop of at most [max_retries] queries whose failed attempts are followed
    by strictly increasing sleeps; a coordinate answered at its attempt
    [m + 1], after [m] failures, is queried [m + 1] times however many rows
    round to it, and its answer is stored; a coordinate whose [max_retries]
    attempts all fail is queried [max_retries] times and no more, is stored
    with NaN, and gives NaN on its rows. *)
Theorem elevation_batch_is_bounded (df : list sample) (round_decimals : Z)
        (cache : elev_cache) :
  let res := add_elevation_column fetch df round_decimals sleep_s cache
                                  max_retries in
  let missing := missing_coords round_decimals cache df in
  let first := first_call fetch max_retries sleep_s missing cache in
  length (elevation_m res) = length df
  /\ (forall s n m,
         rounds_to round_decimals (latitude s) n ->
         rounds_to round_decimals (longitude s) m ->
         key_of_sample round_decimals s
         = (grid_point round_decimals n, grid_point round_decimals m))
  /\ NoDup missing
  /\ (forall key,
         In key missing
         <-> (exists s, In s df /\ key_of_sample round_decimals s = key)
             /\ cache_mem cache key = false)
  /\ batch_shape (Z.to_nat max_retries) sleep_s missing (io_done res)
  /\ (forall key n, StronglySorted Rlt (sleeps (failed_attempts key (seq 1 n))))
  /\ (forall key,
         queries_to key (io_done res) <= Z.to_nat max_retries
         /\ (~ In key missing -> queries_to key (io_done res) = 0))
  /\ (forall key m e,
         In key missing -> m < Z.to_nat max_retries ->
         fails_from fetch (first key) m key ->
         fetch (first key + m) (fst key) (snd key) = Some e ->
         queries_to key (io_done res) = S m
         /\ In (key, e) (cache_saved res))
  /\ (forall key,
         In key missing ->
         fails_from fetch (first key) (Z.to_nat max_retries) key ->
         queries_to key (io_done res) = Z.to_nat max_retries
         /\ In (key, NaN) (cache_saved res)
         /\ forall i s,
             nth_error df i = Some s ->
             key_of_sample round_decimals s = key ->
             nth_error (elevation_m res) i = Some NaN).
Proof.
  intros res missing first.
  pose proof (missing_nodup round_decimals cache df) as Hnd. fold missing in Hnd.
  destruct (fold_io missing (start_state cache)) as (io & Hio & Hshape).
  assert (Eio : io_done res = io) by exact Hio.
  split; [unfold res, add_elevation_column; cbn [elevation_m];
          unfold rounded_coords; now rewrite !length_map|].
  split; [intros s n m; apply key_on_grid|].
  split; [exact Hnd|]. split; [intros key; apply missing_in|].
  split; [now rewrite Eio|]. split; [intros key n; apply backoff_increases|].
  split; [intros key; rewrite Eio; now apply (batch_shape_count _ sleep_s missing)|].
  split.
  - intros key m e Hin Hm Hf He.
    pose proof (retry_loop_answered key e m (Z.to_nat max_retries) 1 (first key)
                                    Hm Hf He) as Hr.
    split.
    + change (io_done res)
        with (io_log (fold_left (resolve_point fetch max_retries sleep_s) missing
                                (start_state cache))).
      rewrite (fold_count_turn missing key (start_state cache) Hnd Hin).
      fold (first_call fetch max_retries sleep_s missing cache key). fold (first key).
      rewrite Hr. cbn [snd io_log start_state].
      rewrite queries_to_app, queries_to_failed_same, length_seq, queries_to_query.
      destruct (coord_eq_dec key key); [cbn; lia|congruence].
    + apply (fold_stores_value missing key e (start_state cache) Hnd Hin).
      fold (first_call fetch max_retries sleep_s missing cache key). fold (first key).
      now rewrite Hr.
  - intros key Hin Hf.
    pose proof (retry_loop_fails key (Z.to_nat max_retries) 1 (first key) Hf) as Hr.
    assert (Hnan : holds_nan
                     (cache_now (fold_left (resolve_point fetch max_retries sleep_s)
                                           missing (start_state cache))) key).
    { apply (fold_stores_nan missing key (start_state cache) Hnd Hin).
      fold (first_call fetch max_retries sleep_s missing cache key). fold (first key).
      now rewrite Hr. }
    destruct Hnan as [Hc1 Hc2].
    split; [|split; [exact Hc1|]].
    + change (io_done res)
        with (io_log (fold_left (resolve_point fetch max_retries sleep_s) missing
                                (start_state cache))).
      rewrite (fold_count_turn missing key (start_state cache) Hnd Hin).
      fold (first_call fetch max_retries sleep_s missing cache key). fold (first key).
      rewrite Hr. cbn [snd io_log start_state].
      now rewrite queries_to_failed_same, length_seq.
    + intros i s Hs Hk. unfold res, add_elevation_column. cbn [elevation_m].
      unfold rounded_coords. rewrite nth_error_map, nth_error_map, Hs.
      cbn [option_map]. fold (key_of_sample round_decimals s). rewrite Hk.
      fold missing. fold (start_state cache).
      destruct Hc2 as [-> | ->]; reflexivity.
Qed.

End ElevationProofs.

Section ElevationExamples.
Import AnalyzeLoop ElevationSpec EnhancerSpec.
Local Open Scope nat_scope.

Lemma powerRZ_10_5 : powerRZ 10 5 = 100000%R.
Proof.
  unfold powerRZ. change (Pos.to_nat 5) with 5. cbn [pow]. lra.
Qed.

Lemma near_rows_round :
  rounds_to 5 (Fin 37) 3700000
  /\ rounds_to 5 (Fin 36.000001) 3600000
  /\ rounds_to 5 (Fin 36.000002) 3600000
  /\ rounds_to 5 (Fin (-97)) (-9700000).
Proof.
  unfold rounds_to. rewrite powerRZ_10_5.
  repeat split; apply Rabs_def1; lra.
Qed.

Lemma grid_keys_differ :
  (grid_point 5 3700000, grid_point 5 (-9700000))
  <> (grid_point 5 3600000, grid_point 5 (-9700000)).
Proof.
  unfold grid_point. rewrite powerRZ_10_5. intros [= H]. lra.
Qed.

Lemma unique_of_three (k1 k2 : coord) :
  k1 <> k2 -> unique coord_eq_dec [k1; k2; k2] = [k1; k2].
Proof.
  intros Hne. unfold unique. cbn [unique_from].
  destruct (in_dec coord_eq_dec k1 []) as [[]|_].
  destruct (in_dec coord_eq_dec k2 [k1]) as [[C|[]]|_]; [congruence|].
  destruct (in_dec coord_eq_dec k2 [k2; k1]) as [_|C];
    [reflexivity|exfalso; apply C; now left].
Qed.

Lemma near_rows_missing :
  missing_coords 5 [] rows_near_grid
  = [(grid_point 5 3700000, grid_point 5 (-9700000));
     (grid_point 5 3600000, grid_point 5 (-9700000))].
Proof.
  destruct near_rows_round as (H37 & H1 & H2 & H97).
  unfold missing_coords, rounded_coords, rows_near_grid.
  cbn [map latitude longitude sample_at].
  rewrite (round_on_grid 5 _ _ H37), (round_on_grid 5 _ _ H1),
    (round_on_grid 5 _ _ H2), (round_on_grid 5 _ _ H97).
  pose proof (unique_of_three _ _ grid_keys_differ) as E.
  unfold coord in *. rewrite E. reflexivity.
Qed.

Lemma down_for_three_turns (k1 k2 : coord) (s : R) :
  k1 <> k2 ->
  first_call down_for_three 3 s [k1; k2] [] k1 = 0
  /\ first_call down_for_three 3 s [k1; k2] [] k2 = 3.
Proof.
  intros Hne. unfold first_call. cbn [state_before].
  destruct (coord_eq_dec k1 k1) as [_|C]; [|congruence].
  destruct (coord_eq_dec k1 k2) as [C|_]; [congruence|].
  destruct (coord_eq_dec k2 k2) as [_|C]; [|congruence].
  split; [reflexivity|]. destruct k1 as [la lo]. reflexivity.
Qed.

(** The theorem at work: the service is down for the first three calls; the
    first row uses up its three attempts and gets NaN; the two other rows,
    different before rounding, share one key, queried once. *)
Lemma elevation_batch_is_bounded_witness :
  key_of_sample 5 (sample_at 36.000001 (-97))
  = key_of_sample 5 (sample_at 36.000002 (-97))
  /\ queries_to (key_of_sample 5 (sample_at 36.000001 (-97)))
                (io_done (add_elevation_column down_for_three rows_near_grid
                                               5 0.12 [] 3)) = 1
  /\ queries_to (key_of_sample 5 (sample_at 37 (-97)))
                (io_done (add_elevation_column down_for_three rows_near_grid
                                               5 0.12 [] 3)) = 3
  /\ nth_error (elevation_m (add_elevation_column down_for_three rows_near_grid
                                                  5 0.12 [] 3)) 0
     = Some NaN.
Proof.
  pose proof (elevation_batch_is_bounded down_for_three 3 0.12
                                         rows_near_grid 5 []) as H.
  cbv zeta in H.
  destruct H as (_ & Hgrid & _ & _ & _ & _ & _ & Hans & Hfail).
  destruct near_rows_round as (H37 & H1 & H2 & H97).
  rewrite (Hgrid (sample_at 36.000001 (-97)) _ _ H1 H97).
  rewrite (Hgrid (sample_at 36.000002 (-97)) _ _ H2 H97).
  rewrite (Hgrid (sample_at 37 (-97)) _ _ H37 H97).
  rewrite near_rows_missing in Hans, Hfail.
  destruct (down_for_three_turns _ _ 0.12%R grid_keys_differ) as [F37 F36].
  unfold coord in *.
  split; [reflexivity|]. split; [|split].
  - apply (Hans _ 0 (Fin 300)).
    + right. now left.
    + change (Z.to_nat 3) with 3. lia.
    + intros n Hn. lia.
    + rewrite F36. reflexivity.
  - apply Hfail; [now left|]. rewrite F37.
    intros n Hn. change (Z.to_nat 3) with 3 in Hn.
    destruct n as [|[|[|n]]]; [reflexivity|reflexivity|reflexivity|lia].
  - assert (Hf : fails_from down_for_three
                   (first_call down_for_three 3 0.12
                      [(grid_point 5 3700000, grid_point 5 (-9700000));
                       (grid_point 5 3600000, grid_point 5 (-9700000))]
                      [] (grid_point 5 3700000, grid_point 5 (-9700000)))
                   (Z.to_nat 3)
                   (grid_point 5 3700000, grid_point 5 (-9700000))).
    { unfold coord. rewrite F37. intros n Hn. change (Z.to_nat 3) with 3 in Hn.
      destruct n as [|[|[|n]]]; [reflexivity|reflexivity|reflexivity|lia]. }
    destruct (Hfail _ (or_introl eq_refl) Hf) as (_ & _ & Hrows).
    apply (Hrows 0 (sample_at 37 (-97))); [reflexivity|].
    exact (Hgrid (sample_at 37 (-97)) _ _ H37 H97).
Defined.

End ElevationExamples.

(** ** More on the loop *)

Section MonitorRun.
Import Monitor MonitorSpec MonitorExamples LoopShape MonitorRunSpec.
Local Open Scope nat_scope.

(** What a completed iteration wrote and left, read off [tick]. *)
Lemma tick_row (st : loop_state) (i : tick_input)
      (st' : loop_state) (row : metrics_row) (ev : option event_row) :
  tick st i = TickContinue st' row ev ->
  get_remote_file_size (sftp i) REMOTE_RX_FILE = Returned (Some (m_rx_size row))
  /\ m_delta_bytes row = Z.max 0 (m_rx_size row - prev_size st)
  /\ prev_size st' = m_rx_size row
  /\ delta_history st' = push_window (delta_history st) (m_delta_bytes row)
  /\ m_pps row = compute_pps (delta_history st')
  /\ m_pdr row = compute_pdr (delta_history st')
  /\ events_list st' = match ev with
                       | Some e => record_event e (events_list st)
                       | None => events_list st
                       end.
Proof.
  unfold tick.
  destruct (get_remote_file_size _ _) as [[size|]|]; try discriminate.
  destruct (compute_speed _ _); try discriminate.
  destruct (match gps i with Some _ => _ | None => _ end) as [[? ?] ?].
  destruct (update_counters _ _ _) as [entry exit].
  destruct (state st); destruct (_ <=? _)%Z; intros [= <- <- <-]; cbn;
    repeat split; reflexivity.
Qed.

Lemma run_step (st : loop_state) (i : tick_input) (rest : list tick_input) :
  (exists st' row ev,
      tick st i = TickContinue st' row ev
      /\ run st (i :: rest)
         = ({| before := st; exit_seen := exit_counter_at st i;
               row_written := row; event_written := ev |}
              :: fst (fst (run st' rest)),
            snd (fst (run st' rest)), snd (run st' rest)))
  \/ (tick st i = TickBreak /\ run st (i :: rest) = ([], st, ConnectionLost))
  \/ (tick st i = TickRaised /\ run st (i :: rest) = ([], st, Crashed)).
Proof.
  cbn [run]. destruct (tick st i) as [| |st' row ev].
  - right; left. split; reflexivity.
  - right; right. split; reflexivity.
  - left. exists st', row, ev. split; [reflexivity|].
    destruct (run st' rest) as [[logs fin] e]. reflexivity.
Qed.

(** *** The smoothing window *)

Lemma lastn_all {A} (n : nat) (l : list A) : length l <= n -> lastn n l = l.
Proof.
  intros H. unfold lastn. replace (length l - n) with 0 by lia. reflexivity.
Qed.

Lemma lastn_length {A} (n : nat) (l : list A) :
  length (lastn n l) = Nat.min n (length l).
Proof.
  unfold lastn. rewrite length_skipn. lia.
Qed.

Lemma lastn_app {A} (n : nat) (a b : list A) :
  lastn n (lastn n a ++ b) = lastn n (a ++ b).
Proof.
  unfold lastn. rewrite !length_app, length_skipn.
  rewrite !skipn_app, length_skipn, skipn_skipn.
  f_equal; [f_equal; lia|f_equal; lia].
Qed.

Lemma push_window_lastn (h : list Z) (d : Z) :
  (Z.of_nat (length h) <= PPS_WINDOW_SEC)%Z ->
  push_window h d = lastn 4 (h ++ [d]).
Proof.
  unfold push_window, PPS_WINDOW_SEC, lastn. intros Hl.
  rewrite length_app. cbn [length].
  destruct (4 <? Z.of_nat (length h + 1))%Z eqn:E.
  - apply Z.ltb_lt in E. replace (length h + 1 - 4) with 1 by lia.
    destruct (h ++ [d]); reflexivity.
  - apply Z.ltb_ge in E. replace (length h + 1 - 4) with 0 by lia. reflexivity.
Qed.

Lemma run_window (inputs : list tick_input) :
  forall st : loop_state,
    (Z.of_nat (length (delta_history st)) <= PPS_WINDOW_SEC)%Z ->
    delta_history (snd (fst (run st inputs)))
    = lastn 4 (delta_history st ++ deltas_written (fst (fst (run st inputs)))).
Proof.
  induction inputs as [|i rest IH]; intros st Hl.
  - cbn. rewrite app_nil_r. symmetry. apply lastn_all.
    unfold PPS_WINDOW_SEC in Hl. lia.
  - destruct (run_step st i rest)
      as [(st' & row & ev & Ht & ->)|[[_ ->]|[_ ->]]];
      cbn [fst snd deltas_written map row_written].
    + destruct (tick_row st i st' row ev Ht) as (_ & _ & _ & Hh & _).
      rewrite IH by (rewrite Hh; now apply push_window_length).
      rewrite Hh, push_window_lastn by exact Hl.
      fold (deltas_written (fst (fst (run st' rest)))).
      rewrite lastn_app, <- app_assoc. reflexivity.
    + rewrite app_nil_r. symmetry. apply lastn_all.
      unfold PPS_WINDOW_SEC in Hl. lia.
    + rewrite app_nil_r. symmetry. apply lastn_all.
      unfold PPS_WINDOW_SEC in Hl. lia.
Qed.

(** A property of the loop variables that every iteration keeps, and
    what it gives about the iterations logged. *)
Lemma run_invariant (I : loop_state -> Prop) (P : tick_log -> Prop) :
  (forall st i st' row ev,
      I st -> tick st i = TickContinue st' row ev ->
      I st'
      /\ P {| before := st; exit_seen := exit_counter_at st i;
              row_written := row; event_written := ev |}) ->
  forall (inputs : list tick_input) (st : loop_state),
    I st ->
    I (snd (fst (run st inputs))) /\ Forall P (fst (fst (run st inputs))).
Proof.
  intros Hstep inputs. induction inputs as [|i rest IH]; intros st HI.
  - cbn. split; [exact HI|constructor].
  - destruct (run_step st i rest)
      as [(st' & row & ev & Ht & ->)|[[_ ->]|[_ ->]]]; cbn [fst snd].
    + destruct (Hstep st i st' row ev HI Ht) as [HI' HP].
      destruct (IH st' HI') as [Hfin Hlogs].
      split; [exact Hfin|constructor; assumption].
    + split; [exact HI|constructor].
    + split; [exact HI|constructor].
Qed.

Lemma compute_pps_zero (h : list Z) : sum_Z h = 0%Z -> compute_pps h == 0.
Proof.
  intros Hs. unfold compute_pps. rewrite Hs.
  destruct (_ && _)%bool; [|reflexivity].
  cbv zeta. unfold Qdiv. change (inject_Z 0) with 0%Q.
  rewrite !Qmult_0_l. reflexivity.
Qed.

Lemma tick_rate_consistent (st : loop_state) (i : tick_input)
      (st' : loop_state) (row : metrics_row) (ev : option event_row) :
  Forall (fun d => (0 <= d)%Z) (delta_history st) ->
  tick st i = TickContinue st' row ev ->
  Forall (fun d => (0 <= d)%Z) (delta_history st')
  /\ rate_consistent {| before := st; exit_seen := exit_counter_at st i;
                        row_written := row; event_written := ev |}.
Proof.
  intros Hh Ht.
  destruct (tick_row st i st' row ev Ht) as (_ & Hd & _ & Hw & Hpps & Hpdr & _).
  assert (Hh' : Forall (fun d => (0 <= d)%Z) (delta_history st')).
  { rewrite Hw. apply push_window_Forall; [exact Hh|]. rewrite Hd. lia. }
  split; [exact Hh'|].
  unfold rate_consistent. cbn [row_written].
  rewrite Hpps, Hpdr, (compute_pps_sign _ Hh'). unfold compute_pdr.
  destruct (0 <? sum_Z (delta_history st'))%Z eqn:E.
  - left. split; reflexivity.
  - right. split; [|reflexivity].
    apply compute_pps_zero. apply Z.ltb_ge in E.
    pose proof (sum_Z_nonneg _ Hh'). lia.
Qed.

(** The deltas written are the growths of the sizes written, from the
    size the loop held at the start. *)
Lemma run_growths (inputs : list tick_input) :
  forall st : loop_state,
    deltas_written (fst (fst (run st inputs)))
    = growths (prev_size st) (sizes_written (fst (fst (run st inputs)))).
Proof.
  induction inputs as [|i rest IH]; intros st; [reflexivity|].
  destruct (run_step st i rest)
    as [(st' & row & ev & Ht & ->)|[[_ ->]|[_ ->]]];
    cbn [fst snd]; try reflexivity.
  destruct (tick_row st i st' row ev Ht) as (_ & Hd & Hp & _).
  unfold deltas_written, sizes_written in *.
  cbn [map row_written growths]. rewrite Hd, IH, Hp. reflexivity.
Qed.

(** *** Entering coverage *)

Lemma push_positive_sum (h : list Z) (d : Z) :
  Forall (fun x => (0 <= x)%Z) h -> (0 < d)%Z ->
  (0 < sum_Z (push_window h d))%Z.
Proof.
  intros Hh Hd. unfold push_window.
  destruct (_ <? _)%Z eqn:E.
  - destruct h as [|x h']; cbn [app tl].
    + cbn in E. discriminate.
    + rewrite sum_Z_app. cbn.
      pose proof (sum_Z_nonneg h' (Forall_tl _ _ Hh)). cbn in H. lia.
  - rewrite sum_Z_app. cbn. pose proof (sum_Z_nonneg h Hh). lia.
Qed.

Lemma update_counters_active (h : list Z) (d en ex : Z) :
  Forall (fun x => (0 <= x)%Z) h -> (0 < d)%Z ->
  update_counters (compute_pps (push_window h d)) en ex = ((en + 1)%Z, 0%Z).
Proof.
  intros Hh Hd. unfold update_counters.
  rewrite compute_pps_sign by (apply push_window_Forall; [exact Hh|lia]).
  pose proof (push_positive_sum h d Hh Hd) as Hs.
  apply Z.ltb_lt in Hs. rewrite Hs. reflexivity.
Qed.

(** Inside coverage, growing sizes write no event. *)
Lemma inside_active_run (inputs : list tick_input) :
  forall st : loop_state,
    state st = INSIDE ->
    Forall (fun d => (0 <= d)%Z) (delta_history st) ->
    positive_deltas (prev_size st) inputs ->
    exists logs fin,
      run st inputs = (logs, fin, Interrupted)
      /\ length logs = length inputs
      /\ Forall silent logs
      /\ state fin = INSIDE.
Proof.
  induction inputs as [|i rest IH]; intros st Hst Hh Hpos.
  - exists [], st. cbn. repeat split; [constructor|exact Hst].
  - destruct Hpos as (size & Hsize & Hlt & Hrest).
    destruct (tick_steps st i size Hsize)
      as (st' & row & ev & Ht & Hp & Hw & _ & Hcases).
    replace (Z.max 0 (size - prev_size st)) with (size - prev_size st)%Z
      in * by lia.
    rewrite update_counters_active in Hcases by (exact Hh || lia).
    cbn [fst snd] in Hcases. unfold EXIT_SECONDS in Hcases.
    destruct Hcases as [(Hs & _)|[(Hs & _)|[(_ & Hle & _)|(_ & _ & Hst' & _ & _ & Hev)]]];
      try congruence; try lia.
    destruct (IH st' Hst') as (logs & fin & Hrun & Hlen & Hsil & Hfin);
      [rewrite Hw; apply push_window_Forall; [exact Hh|lia]
      |rewrite Hp; exact Hrest|].
    eexists; exists fin. rewrite (run_cons _ _ _ _ _ _ _ _ _ Ht Hrun).
    split; [reflexivity|]. split; [cbn; lia|].
    split; [constructor; [exact Hev|exact Hsil]|exact Hfin].
Qed.

Lemma outside_active_run (inputs : list tick_input) :
  forall st : loop_state,
    state st = OUTSIDE ->
    (0 <= entry_counter st < ENTRY_SECONDS)%Z ->
    Forall (fun d => (0 <= d)%Z) (delta_history st) ->
    positive_deltas (prev_size st) inputs ->
    (ENTRY_SECONDS - entry_counter st <= Z.of_nat (length inputs))%Z ->
    exists logs fin,
      run st inputs = (logs, fin, Interrupted)
      /\ length logs = length inputs
      /\ one_entry_at (ENTRY_SECONDS - 1 - entry_counter st) logs
      /\ state fin = INSIDE.
Proof.
  induction inputs as [|i rest IH]; intros st Hst Hc Hh Hpos Hn.
  - cbn [length] in Hn. unfold ENTRY_SECONDS in Hn, Hc. lia.
  - destruct Hpos as (size & Hsize & Hlt & Hrest).
    destruct (tick_steps st i size Hsize)
      as (st' & row & ev & Ht & Hp & Hw & _ & Hcases).
    replace (Z.max 0 (size - prev_size st)) with (size - prev_size st)%Z
      in * by lia.
    rewrite update_counters_active in Hcases by (exact Hh || lia).
    cbn [fst snd] in Hcases.
    assert (Hh' : Forall (fun d => (0 <= d)%Z) (delta_history st'))
      by (rewrite Hw; apply push_window_Forall; [exact Hh|lia]).
    destruct Hcases
      as [(_ & Hle & Hst' & _ & _ & e & -> & He)
         |[(_ & Hlt' & Hst' & Hen & _ & ->)|[(Hs & _)|(Hs & _)]]];
      try congruence.
    + destruct (inside_active_run rest st' Hst' Hh')
        as (logs & fin & Hrun & Hlen & Hsil & Hfin);
        [rewrite Hp; exact Hrest|].
      eexists; exists fin. rewrite (run_cons _ _ _ _ _ _ _ _ _ Ht Hrun).
      split; [reflexivity|]. split; [cbn; lia|]. split; [|exact Hfin].
      exists [], {| before := st; exit_seen := exit_counter_at st i;
                    row_written := row; event_written := Some e |}, logs.
      split; [reflexivity|]. split; [constructor|].
      split; [exists e; split; [reflexivity|exact He]|].
      split; [exact Hsil|]. cbn [length].
      unfold ENTRY_SECONDS in Hle, Hc |- *. lia.
    + destruct (IH st' Hst') as (logs & fin & Hrun & Hlen & Hone & Hfin);
        [rewrite Hen; unfold ENTRY_SECONDS in *; lia|exact Hh'
        |rewrite Hp; exact Hrest
        |rewrite Hen; cbn [length] in Hn; lia|].
      eexists; exists fin. rewrite (run_cons _ _ _ _ _ _ _ _ _ Ht Hrun).
      split; [reflexivity|]. split; [cbn; lia|]. split; [|exact Hfin].
      destruct Hone as (pre & x & post & -> & Hpre & Hx & Hpost & Hk).
      exists ({| before := st; exit_seen := exit_counter_at st i;
                 row_written := row; event_written := None |} :: pre), x, post.
      split; [reflexivity|].
      split; [constructor; [reflexivity|exact Hpre]|].
      split; [exact Hx|]. split; [exact Hpost|].
      cbn [length]. rewrite Hen in Hk. lia.
Qed.

(** *** One burst in a quiet window *)

Lemma lastn_app_r {A} (n : nat) (a b : list A) :
  n <= length b -> lastn n (a ++ b) = lastn n b.
Proof.
  intros H. unfold lastn. rewrite length_app, skipn_app.
  rewrite (skipn_all2 a) by lia. cbn [app]. f_equal. lia.
Qed.

Lemma lastn_app_l {A} (n : nat) (a b : list A) :
  length b <= n -> lastn n (a ++ b) = lastn (n - length b) a ++ b.
Proof.
  intros H. unfold lastn. rewrite length_app, skipn_app.
  replace (length a + length b - n - length a) with 0 by lia.
  cbn [skipn]. f_equal. f_equal. lia.
Qed.

Lemma sum_Z_skipn_zero (l : list Z) :
  Forall (fun d => d = 0%Z) l -> forall m, sum_Z (skipn m l) = 0%Z.
Proof.
  induction 1 as [|x l Hx Hl IH]; intros [|m]; cbn [skipn]; try reflexivity.
  - cbn. fold (sum_Z l). rewrite Hx. specialize (IH 0). cbn [skipn] in IH. lia.
  - apply IH.
Qed.

Lemma repeat_zero_all (k : nat) : Forall (fun d => d = 0%Z) (repeat 0%Z k).
Proof.
  induction k; cbn; constructor; [reflexivity|assumption].
Qed.

Lemma sum_lastn_burst (z0 : list Z) (d : Z) (k : nat) :
  Forall (fun x => x = 0%Z) z0 ->
  sum_Z (lastn 4 (z0 ++ d :: repeat 0%Z k)) = if k <? 4 then d else 0%Z.
Proof.
  intros Hz. destruct (k <? 4) eqn:E.
  - apply Nat.ltb_lt in E.
    rewrite lastn_app_l by (cbn [length]; rewrite repeat_length; lia).
    rewrite sum_Z_app. unfold lastn at 1. rewrite (sum_Z_skipn_zero _ Hz).
    cbn. fold (sum_Z (repeat 0%Z k)).
    rewrite (sum_Z_all_zero _ (repeat_zero_all k)). lia.
  - apply Nat.ltb_ge in E.
    change (z0 ++ d :: repeat 0%Z k) with (z0 ++ [d] ++ repeat 0%Z k).
    rewrite app_assoc, lastn_app_r by (rewrite repeat_length; lia).
    unfold lastn. apply sum_Z_skipn_zero, repeat_zero_all.
Qed.

Lemma push_zero_burst (z0 : list Z) (d : Z) (k : nat) :
  push_window (lastn 4 (z0 ++ d :: repeat 0%Z k)) 0
  = lastn 4 (z0 ++ d :: repeat 0%Z (S k)).
Proof.
  rewrite push_window_lastn
    by (rewrite lastn_length; unfold PPS_WINDOW_SEC; lia).
  rewrite lastn_app, <- app_assoc. cbn [app].
  rewrite repeat_snoc. reflexivity.
Qed.

Lemma zero_run_pdr (z0 : list Z) (d : Z) (zs : list tick_input) :
  Forall (fun x => x = 0%Z) z0 -> (0 < d)%Z ->
  forall (st : loop_state) (k : nat),
    delta_history st = lastn 4 (z0 ++ d :: repeat 0%Z k) ->
    zero_deltas (prev_size st) zs ->
    exists logs fin,
      run st zs = (logs, fin, Interrupted)
      /\ pdr_written logs
         = repeat 1%Q (Nat.min (3 - k) (length zs))
           ++ repeat 0%Q (length zs - (3 - k)).
Proof.
  intros Hz Hd. induction zs as [|i rest IH]; intros st k Hh Hzero.
  - exists [], st. split; [reflexivity|].
    cbn [length]. rewrite Nat.min_0_r. reflexivity.
  - destruct Hzero as (size & Hsize & Hle & Hrest).
    destruct (tick_steps st i size Hsize)
      as (st' & row & ev & Ht & Hp & Hw & _ & _).
    replace (Z.max 0 (size - prev_size st)) with 0%Z in Hw by lia.
    rewrite Hh, push_zero_burst in Hw.
    destruct (tick_row st i st' row ev Ht) as (_ & _ & _ & _ & _ & Hpdr & _).
    rewrite Hw in Hpdr. unfold compute_pdr in Hpdr.
    rewrite (sum_lastn_burst z0 d (S k) Hz) in Hpdr.
    destruct (IH st' (S k) Hw) as (logs & fin & Hrun & Hlogs);
      [rewrite Hp; exact Hrest|].
    eexists; exists fin. rewrite (run_cons _ _ _ _ _ _ _ _ _ Ht Hrun).
    split; [reflexivity|].
    unfold pdr_written in *. cbn [map row_written length].
    rewrite Hlogs, Hpdr.
    destruct (S k <? 4) eqn:E.
    + apply Nat.ltb_lt in E. apply Z.ltb_lt in Hd. rewrite Hd.
      replace (Nat.min (3 - k) (S (length rest)))
        with (S (Nat.min (3 - S k) (length rest))) by lia.
      replace (S (length rest) - (3 - k)) with (length rest - (3 - S k)) by lia.
      reflexivity.
    + apply Nat.ltb_ge in E. cbn [Z.ltb Z.compare].
      replace (Nat.min (3 - k) (S (length rest))) with 0 by lia.
      replace (Nat.min (3 - S k) (length rest)) with 0 by lia.
      replace (S (length rest) - (3 - k)) with (S (length rest)) by lia.
      replace (length rest - (3 - S k)) with (length rest) by lia.
      reflexivity.
Qed.

(** *** The end of the loop *)

Lemma run_stops (a : list tick_input) :
  forall (st : loop_state) (logs : list tick_log) (fin : loop_state)
         (i : tick_input) (b : list tick_input),
    run st a = (logs, fin, Interrupted) ->
    (connection_error (sftp i REMOTE_RX_FILE) ->
     run st (a ++ i :: b) = (logs, fin, ConnectionLost))
    /\ (sftp i REMOTE_RX_FILE = StatOtherError ->
        run st (a ++ i :: b) = (logs, fin, Crashed)).
Proof.
  induction a as [|x a IH]; intros st logs fin i b Hrun.
  - cbn in Hrun. injection Hrun as <- <-. cbn [app run]. unfold tick.
    split.
    + intros Hc. apply get_remote_file_size_none in Hc. rewrite Hc. reflexivity.
    + intros Ho. unfold get_remote_file_size. rewrite Ho. reflexivity.
  - cbn [app]. destruct (run_step st x a)
      as [(st' & row & ev & Ht & Hr)|[[_ Hr]|[_ Hr]]];
      rewrite Hr in Hrun; try discriminate.
    destruct (run st' a) as [[logs' fin'] e'] eqn:Hr'. cbn [fst snd] in Hrun.
    injection Hrun as <- <- ->.
    destruct (IH st' logs' fin' i b Hr') as [H1 H2].
    split; intros Hi.
    + apply (run_cons _ _ _ _ _ _ _ _ _ Ht). apply H1, Hi.
    + apply (run_cons _ _ _ _ _ _ _ _ _ Ht). apply H2, Hi.
Qed.

(** *** The events held for the map *)

Lemma record_event_filter (e : event_row) (events : list event_row) :
  record_event e events = events ++ filter has_position [e].
Proof.
  unfold record_event, has_position. cbn [filter].
  destruct (ev_lat e), (ev_lon e); cbn; rewrite ?app_nil_r; reflexivity.
Qed.

Lemma run_events (inputs : list tick_input) :
  forall st : loop_state,
    events_list (snd (fst (run st inputs)))
    = events_list st
      ++ filter has_position (events_written (fst (fst (run st inputs)))).
Proof.
  induction inputs as [|i rest IH]; intros st.
  - cbn. rewrite app_nil_r. reflexivity.
  - destruct (run_step st i rest)
      as [(st' & row & ev & Ht & ->)|[[_ ->]|[_ ->]]]; cbn [fst snd];
      try (cbn; rewrite app_nil_r; reflexivity).
    destruct (tick_row st i st' row ev Ht) as (_ & _ & _ & _ & _ & _ & He).
    rewrite IH, He. unfold events_written. cbn [map event_written dropna].
    destruct ev as [e|]; [|reflexivity].
    rewrite record_event_filter, <- app_assoc. cbn [dropna].
    change (e :: dropna (map event_written (fst (fst (run st' rest)))))
      with ([e] ++ dropna (map event_written (fst (fst (run st' rest))))).
    rewrite filter_app. reflexivity.
Qed.

Lemma py_sum_returns (terms : list (option float)) :
  Forall (fun o => o <> None) terms ->
  forall acc, exists s, MonitorMap.py_sum acc terms = Some s.
Proof.
  induction 1 as [|o rest Ho _ IH]; intros acc.
  - exists acc. reflexivity.
  - destruct o as [x|]; [|congruence]. cbn. apply IH.
Qed.

Lemma update_map_center_returns (events : list event_row) :
  Forall (fun e => has_position e = true) events ->
  MonitorMap.update_map_center events <> Raised.
Proof.
  intros H. unfold MonitorMap.update_map_center.
  destruct events as [|e rest]; [discriminate|].
  destruct (py_sum_returns (map ev_lat (e :: rest))) with (acc := Fin 0)
    as [s1 ->].
  { apply Forall_map. revert H. apply Forall_impl. intros a.
    unfold has_position. destruct (ev_lat a); [discriminate|].
    destruct (ev_lon a); discriminate. }
  destruct (py_sum_returns (map ev_lon (e :: rest))) with (acc := Fin 0)
    as [s2 ->].
  { apply Forall_map. revert H. apply Forall_impl. intros a.
    unfold has_position. destruct (ev_lat a); [|discriminate].
    destruct (ev_lon a); discriminate. }
  discriminate.
Qed.

(** *** The statements *)

Lemma main_logs (sftp0 : sftp_client) (inputs : list tick_input)
      (P : list tick_log -> Prop) :
  P [] ->
  (forall size0, P (fst (fst (run (initial_state size0) inputs)))) ->
  P (fst (main sftp0 inputs)).
Proof.
  intros Hnil Hrun. unfold main.
  destruct (get_remote_file_size sftp0 REMOTE_RX_FILE) as [[size0|]|];
    try exact Hnil.
  specialize (Hrun size0).
  destruct (run (initial_state size0) inputs) as [[logs fin] e]. exact Hrun.
Qed.

(** X1.  As long as the receiver's fixes have their latitude between the
    poles, every iteration of [main] starts from loop variables in shape:
    both counters are non-negative, [entry_counter] is below
    [ENTRY_SECONDS] while OUTSIDE and [exit_counter] below [EXIT_SECONDS]
    while INSIDE (a threshold reached is acted on at once), and the window
    holds at most [PPS_WINDOW_SEC] deltas, none negative. *)
Theorem loop_variables_stay_in_shape
        (sftp0 : sftp_client) (inputs : list tick_input) :
  gps_ok inputs ->
  Forall (fun l => reachable_shape (before l)) (fst (main sftp0 inputs)).
Proof.
  intros Hgps. apply main_logs; [constructor|]. intros size0.
  apply (run_keeps_shape inputs (initial_state size0));
    [apply initial_state_shape|exact Hgps].
Qed.

Lemma loop_variables_stay_in_shape_witness :
  Forall (fun l => reachable_shape (before l))
         (fst (main (fun _ => StatOk 0) three_active)).
Proof.
  apply loop_variables_stay_in_shape.
  repeat constructor; cbn; lra.
Defined.

(** X2.  Whatever the outside world answers, the events [main] writes
    alternate, and the first one is an ENTRY: no two ENTRY and no two EXIT
    events follow each other, and no EXIT comes first. *)
Theorem events_alternate_from_entry
        (sftp0 : sftp_client) (inputs : list tick_input) :
  alternates ENTRY (event_types (fst (main sftp0 inputs))).
Proof.
  apply main_logs; [exact I|]. intros size0.
  apply (run_alternates inputs (initial_state size0)).
Qed.

(** X3.  The smoothing window is a queue: after any number of iterations
    it holds exactly the last [PPS_WINDOW_SEC] byte deltas written to the
    metrics file (all of them while fewer were written), oldest first. *)
Theorem window_is_last_deltas (size0 : Z) (inputs : list tick_input) :
  delta_history (snd (fst (run (initial_state size0) inputs)))
  = lastn (Z.to_nat PPS_WINDOW_SEC)
          (deltas_written (fst (fst (run (initial_state size0) inputs)))).
Proof.
  apply (run_window inputs (initial_state size0)).
  cbn. unfold PPS_WINDOW_SEC. lia.
Qed.

(** X4.  The byte deltas the loop writes are the growths of the file
    sizes it writes: each row's delta is its size minus the size on the
    row before it (minus the size read before the loop on the first row),
    or 0 when the file shrank, never negative.  And on every row [pdr] is 1
    exactly when the smoothed [pps] is positive and 0 exactly when it is
    zero. *)
Theorem rows_are_consistent (size0 : Z) (inputs : list tick_input) :
  deltas_written (fst (fst (run (initial_state size0) inputs)))
  = growths size0
            (sizes_written (fst (fst (run (initial_state size0) inputs))))
  /\ Forall rate_consistent (fst (fst (run (initial_state size0) inputs))).
Proof.
  split; [apply (run_growths inputs (initial_state size0))|].
  apply (run_invariant
           (fun st => Forall (fun d => (0 <= d)%Z) (delta_history st))
           rate_consistent tick_rate_consistent inputs (initial_state size0)).
  constructor.
Qed.

Lemma positive_run_length (inputs : list tick_input) :
  forall st : loop_state,
    positive_deltas (prev_size st) inputs ->
    run st inputs = (fst (fst (run st inputs)), snd (fst (run st inputs)),
                     Interrupted)
    /\ length (fst (fst (run st inputs))) = length inputs.
Proof.
  induction inputs as [|i rest IH]; intros st Hpos; [split; reflexivity|].
  destruct Hpos as (size & Hsize & _ & Hrest).
  destruct (tick_steps st i size Hsize)
    as (st' & row & ev & Ht & Hp & _).
  rewrite <- Hp in Hrest. destruct (IH st' Hrest) as [Hr Hl].
  rewrite (run_cons _ _ _ _ _ _ _ _ _ Ht Hr). cbn [fst snd length].
  split; [reflexivity|]. now rewrite Hl.
Qed.

(** X5.  From any state in which the loop is OUTSIDE, its counters and
    window in shape, feed it a stream of growing file sizes.  Once it has
    completed enough iterations for [entry_counter] to reach
    [ENTRY_SECONDS], it has written exactly one event, an ENTRY, on the
    iteration that completes [ENTRY_SECONDS] consecutive active
    iterations, and it is INSIDE.  Unlike the EXIT, the ENTRY is not
    delayed by the smoothing window. *)
Theorem entry_fires_once (st : loop_state) (inputs : list tick_input) :
  state st = OUTSIDE -> loop_shape st ->
  positive_deltas (prev_size st) inputs ->
  (ENTRY_SECONDS - entry_counter st
   <= Z.of_nat (length (fst (fst (run st inputs)))))%Z ->
  one_entry_at (ENTRY_SECONDS - 1 - entry_counter st)
               (fst (fst (run st inputs)))
  /\ state (snd (fst (run st inputs))) = INSIDE.
Proof.
  intros Hst Hsh Hpos Hn.
  destruct (positive_run_length inputs st Hpos) as [_ Hl].
  rewrite Hl in Hn.
  destruct (outside_active_run inputs st Hst) as (logs & fin & Hr & _ & H);
    try assumption.
  - split; [apply (ls_entry st Hsh)|apply (ls_outside st Hsh Hst)].
  - apply (ls_deltas st Hsh).
  - rewrite Hr. exact H.
Qed.

Lemma entry_fires_once_witness :
  one_entry_at (ENTRY_SECONDS - 1 - entry_counter (initial_state 0))
               (fst (fst (run (initial_state 0) three_active)))
  /\ state (snd (fst (run (initial_state 0) three_active))) = INSIDE.
Proof.
  assert (Hpos : positive_deltas (prev_size (initial_state 0)) three_active).
  { exists 98%Z. split; [reflexivity|]. split; [cbn; lia|].
    exists 196%Z. split; [reflexivity|]. split; [lia|].
    exists 294%Z. split; [reflexivity|]. split; [lia|exact I]. }
  apply (entry_fires_once (initial_state 0) three_active);
    [reflexivity|apply initial_state_loop_shape|exact Hpos|].
  rewrite (proj2 (positive_run_length three_active (initial_state 0) Hpos)).
  unfold ENTRY_SECONDS, three_active.
  cbn [length initial_state entry_counter]. lia.
Defined.

(** X6.  One burst of new bytes arriving in a window of zeros, followed
    by seconds without any: of the rows the loop completes, the first
    [PPS_WINDOW_SEC] (the row of the burst and the next three) report
    delivery and every row after them reports none.  The smoothing keeps a
    single burst alive for the length of the window and no longer. *)
Theorem burst_counts_for_window
        (st : loop_state) (i : tick_input) (size : Z)
        (zs : list tick_input) :
  loop_shape st ->
  Forall (fun d => d = 0%Z) (delta_history st) ->
  get_remote_file_size (sftp i) REMOTE_RX_FILE = Returned (Some size) ->
  (prev_size st < size)%Z ->
  zero_deltas size zs ->
  pdr_written (fst (fst (run st (i :: zs))))
  = repeat 1%Q (Nat.min (Z.to_nat PPS_WINDOW_SEC)
                        (length (fst (fst (run st (i :: zs))))))
    ++ repeat 0%Q (length (fst (fst (run st (i :: zs))))
                   - Z.to_nat PPS_WINDOW_SEC).
Proof.
  intros Hsh Hz Hsize Hlt Hzero.
  destruct (tick_steps st i size Hsize)
    as (st' & row & ev & Ht & Hp & Hw & _ & _).
  replace (Z.max 0 (size - prev_size st)) with (size - prev_size st)%Z
    in Hw by lia.
  rewrite push_window_lastn in Hw by apply (ls_window st Hsh).
  destruct (tick_row st i st' row ev Ht) as (_ & _ & _ & _ & _ & Hpdr & _).
  rewrite Hw in Hpdr. unfold compute_pdr in Hpdr.
  change [(size - prev_size st)%Z]
    with ((size - prev_size st)%Z :: repeat 0%Z 0) in Hpdr, Hw.
  rewrite (sum_lastn_burst _ _ 0 Hz) in Hpdr. cbn [Nat.ltb Nat.leb] in Hpdr.
  assert (Hd : (0 < size - prev_size st)%Z) by lia.
  destruct (zero_run_pdr _ _ zs Hz Hd st' 0 Hw)
    as (logs & fin & Hrun & Hlogs); [rewrite Hp; exact Hzero|].
  assert (Hlen : length logs = length zs).
  { apply (f_equal (@length Q)) in Hlogs. unfold pdr_written in Hlogs.
    rewrite length_map, length_app, !repeat_length in Hlogs. lia. }
  rewrite (run_cons _ _ _ _ _ _ _ _ _ Ht Hrun). cbn [fst snd length].
  unfold pdr_written in *. cbn [map row_written]. rewrite Hlogs, Hpdr, Hlen.
  apply Z.ltb_lt in Hd. rewrite Hd.
  change (Z.to_nat PPS_WINDOW_SEC) with 4.
  replace (Nat.min 4 (S (length zs)))
    with (S (Nat.min (3 - 0) (length zs))) by lia.
  replace (S (length zs) - 4) with (length zs - (3 - 0)) by lia.
  reflexivity.
Qed.

Lemma burst_counts_for_window_witness :
  pdr_written
    (fst (fst (run (initial_state 0)
                   (answer 98 None :: repeat (answer 98 None) 5))))
  = repeat 1%Q
           (Nat.min (Z.to_nat PPS_WINDOW_SEC)
                    (length
                       (fst (fst (run (initial_state 0)
                                      (answer 98 None
                                       :: repeat (answer 98 None) 5))))))
    ++ repeat 0%Q
              (length
                 (fst (fst (run (initial_state 0)
                                (answer 98 None :: repeat (answer 98 None) 5))))
               - Z.to_nat PPS_WINDOW_SEC).
Proof.
  apply (burst_counts_for_window (initial_state 0) (answer 98 None) 98).
  - apply initial_state_loop_shape.
  - constructor.
  - reflexivity.
  - cbn. lia.
  - cbn. repeat (exists 98%Z; split; [reflexivity|split; [lia|]]). exact I.
Defined.

(** X7.  The loop ends on the first size read that fails: after a
    connection-level error ([IOError], [SSHException], [EOFError]) it
    breaks, after any other exception it is left by that exception, and in
    both cases the rows and events of the iterations before it are all
    written and nothing is read or written after it. *)
Theorem loop_ends_at_failed_read
        (st : loop_state) (a : list tick_input) (logs : list tick_log)
        (fin : loop_state) (i : tick_input) (b : list tick_input) :
  run st a = (logs, fin, Interrupted) ->
  (connection_error (sftp i REMOTE_RX_FILE) ->
   run st (a ++ i :: b) = (logs, fin, ConnectionLost))
  /\ (sftp i REMOTE_RX_FILE = StatOtherError ->
      run st (a ++ i :: b) = (logs, fin, Crashed)).
Proof.
  apply run_stops.
Qed.

Lemma loop_ends_at_failed_read_witness :
  (connection_error (sftp lost_answer REMOTE_RX_FILE) ->
   run (initial_state 0) ([answer 98 None] ++ lost_answer :: [answer 196 None])
   = (fst (fst (run (initial_state 0) [answer 98 None])),
      snd (fst (run (initial_state 0) [answer 98 None])), ConnectionLost))
  /\ (sftp lost_answer REMOTE_RX_FILE = StatOtherError ->
      run (initial_state 0)
          ([answer 98 None] ++ lost_answer :: [answer 196 None])
      = (fst (fst (run (initial_state 0) [answer 98 None])),
         snd (fst (run (initial_state 0) [answer 98 None])), Crashed)).
Proof.
  apply (loop_ends_at_failed_read (initial_state 0) [answer 98 None]).
  reflexivity.
Defined.

(** X8.  The list of events the loop keeps for the map holds exactly the
    events written so far that carry both a latitude and a longitude, in
    the order they were written; so the averages [update_map] takes over
    that list never meet a missing coordinate. *)
Theorem events_held_have_positions (size0 : Z) (inputs : list tick_input) :
  events_list (snd (fst (run (initial_state size0) inputs)))
  = filter has_position
           (events_written (fst (fst (run (initial_state size0) inputs))))
  /\ MonitorMap.update_map_center
       (events_list (snd (fst (run (initial_state size0) inputs))))
     <> Raised.
Proof.
  pose proof (run_events inputs (initial_state size0)) as H.
  cbn [initial_state events_list app] in H. fold (initial_state size0) in H.
  split; [exact H|].
  apply update_map_center_returns. rewrite H.
  apply Forall_forall. intros e He. apply filter_In in He. apply He.
Qed.

End MonitorRun.

(** ** Reading the receiver *)

Section ReadGpsProofs.
Import Monitor MonitorGps.
Local Open Scope string_scope.

Variable strip : string -> string.
Variable float_of_string : string -> option float.

Lemma latitude_not_longitude (s : string) :
  prefix "latitude" s = true -> prefix "longitude" s = false.
Proof.
  destruct s as [|c1 [|c2 s]]; cbn [prefix]; try discriminate.
  - destruct (Ascii.ascii_dec _ c1); discriminate.
  - destruct (Ascii.ascii_dec _ c1); [|discriminate].
    destruct (Ascii.ascii_dec _ c2) as [<-|]; [|discriminate].
    intros _. destruct (Ascii.ascii_dec _ _); [discriminate|reflexivity].
Qed.

Lemma last_snoc {A} (l : list A) (x d : A) : last (l ++ [x]) d = x.
Proof. apply last_last. Qed.

Lemma scan_readings (lines : list string) :
  fold_left (scan_line strip float_of_string) lines (None, None)
  = (last_reading strip float_of_string "latitude" lines,
     last_reading strip float_of_string "longitude" lines).
Proof.
  induction lines as [|l lines IH] using rev_ind; [reflexivity|].
  rewrite fold_left_app. cbn [fold_left]. rewrite IH.
  unfold last_reading, readings. rewrite !flat_map_app. cbn [flat_map].
  rewrite !app_nil_r. unfold scan_line. cbv zeta. cbn [fst snd].
  destruct (prefix "latitude" (strip l)) eqn:Hlat.
  - rewrite (latitude_not_longitude _ Hlat).
    destruct (line_value strip float_of_string (strip l)) as [v|].
    + rewrite last_snoc, app_nil_r. reflexivity.
    + rewrite !app_nil_r. reflexivity.
  - destruct (prefix "longitude" (strip l)).
    + destruct (line_value strip float_of_string (strip l)) as [v|].
      * rewrite last_snoc, app_nil_r. reflexivity.
      * rewrite !app_nil_r. reflexivity.
    + rewrite !app_nil_r. reflexivity.
Qed.

(** X11.  [read_gps_from_kinematics] returns both coordinates or
    neither.  It returns a fix exactly when the last line of the output
    that starts with "latitude" and has a hyphen, and the last one that
    starts with "longitude" and has a hyphen, both carry a float after
    their first hyphen, and the fix is made of those two values: a later
    line overrides an earlier one, also when the later one cannot be read.
    A failure of the command gives no fix. *)
Theorem gps_reading_is_last_lines (lines : list string) :
  read_gps_from_kinematics strip float_of_string (Some lines)
  = match last_reading strip float_of_string "latitude" lines,
          last_reading strip float_of_string "longitude" lines with
    | Some lat, Some lon => (Some lat, Some lon)
    | _, _ => (None, None)
    end
  /\ (fst (read_gps_from_kinematics strip float_of_string (Some lines)) = None
      <-> snd (read_gps_from_kinematics strip float_of_string (Some lines))
          = None)
  /\ read_gps_from_kinematics strip float_of_string None = (None, None).
Proof.
  unfold read_gps_from_kinematics. rewrite scan_readings.
  split; [reflexivity|]. split; [|reflexivity].
  destruct (last_reading strip float_of_string "latitude" lines),
           (last_reading strip float_of_string "longitude" lines);
    cbn; split; congruence.
Qed.

End ReadGpsProofs.

(** ** The union distance and the union profile *)

Section UnionProofs.
Import AnalyzeLoop EnhancerSpec ProfileSpec UnionSpec.
Local Open Scope nat_scope.




Lemma map_combine_drop {A B C D} (f : A * B * C -> D) (g : A * C -> D)
      (la : list A) :
  (forall a b c, f (a, b, c) = g (a, c)) ->
  forall (lb : list B) (lc : list C),
    length lb = length la ->
    map f (combine (combine la lb) lc) = map g (combine la lc).
Proof.
  intros Hfg. induction la as [|a la IH]; intros lb lc Hl.
  - reflexivity.
  - destruct lb as [|b lb]; [discriminate|].
    destruct lc as [|c lc]; [reflexivity|].
    cbn [combine map]. rewrite Hfg, IH by (cbn in Hl; lia). reflexivity.
Qed.


Lemma column_union_assigned (e : enhanced) (u : list float) :
  dist_union_m e = Some u -> column e "dist_union_m" = Some u.
Proof.
  intros H. unfold column.
  destruct (string_dec "dist_union_m" "dist_from_rsu_m") as [C|_];
    [discriminate C|].
  destruct (string_dec "dist_union_m" "dist_union_m") as [_|C];
    [|congruence].
  now rewrite H.
Qed.

(** X13.  On a table whose union distance is its nearest distance and
    whose rows all have the same nearest reference, the union profile is
    the nearest profile: the same rows with the same counts and means. *)
Theorem union_profile_is_nearest_profile (e : enhanced) (bin_m : float) :
  dist_union_m e = Some (dist_from_rsu_m e) ->
  columns_aligned e ->
  by_reference e = false ->
  build_range_profile_union e bin_m
  = inr (build_range_profile_nearest e bin_m).
Proof.
  intros Hu [Hn _] Hg.
  unfold build_range_profile_union, build_range_profile_nearest.
  rewrite (column_union_assigned e _ Hu). fold (by_reference e). rewrite Hg.
  cbv zeta.
  f_equal. f_equal. symmetry.
  apply map_combine_drop; [|exact Hn].
  intros s name b. unfold make_key. destruct b; reflexivity.
Qed.

Lemma union_profile_is_nearest_profile_witness :
  build_range_profile_union three_samples_union (Fin 50)
  = inr (build_range_profile_nearest three_samples_union (Fin 50)).
Proof.
  apply union_profile_is_nearest_profile.
  - reflexivity.
  - split; reflexivity.
  - reflexivity.
Defined.

(** *** Counts and coverage of a profile row *)

Lemma sum_R_flags (l : list Z) :
  Forall (fun h => h = 0%Z \/ h = 1%Z) l ->
  (0 <= sum_R (map IZR l) <= INR (length l))%R.
Proof.
  induction 1 as [|h l Hh _ IH].
  - cbn. lra.
  - cbn [map sum_R fold_right length]. fold (sum_R (map IZR l)).
    rewrite S_INR. destruct Hh as [-> | ->]; cbn [IZR]; lra.
Qed.

Lemma finite_values_fin (l : list R) : finite_values (map Fin l) = l.
Proof.
  induction l as [|x l IH]; [reflexivity|]. cbn. now rewrite IH.
Qed.

Lemma mean_of_flags (l : list Z) :
  l <> [] -> Forall (fun h => h = 0%Z \/ h = 1%Z) l ->
  exists c, mean_skipna (map (fun h => Fin (IZR h)) l) = Fin c
            /\ (0 <= c <= 1)%R.
Proof.
  intros Hne Hl. unfold mean_skipna.
  rewrite <- (map_map IZR Fin), finite_values_fin.
  destruct (map IZR l) as [|x v] eqn:E.
  - destruct l; [congruence|discriminate].
  - rewrite <- E. eexists. split; [reflexivity|].
    pose proof (sum_R_flags l Hl) as Hs. rewrite length_map.
    assert (Hpos : (0 < INR (length l))%R).
    { apply lt_0_INR. destruct l; [congruence|cbn; lia]. }
    split.
    + apply Rmult_le_pos; [lra|]. apply Rlt_le, Rinv_0_lt_compat, Hpos.
    + apply (Rmult_le_reg_r (INR (length l))); [exact Hpos|].
      unfold Rdiv. rewrite Rmult_assoc, Rinv_l by lra. lra.
Qed.

Lemma groupby_agg_rows_ok_counts (bin_m : float) (rows : list keyed_row) :
  Forall (fun p => 1 <= n_samples p) (groupby_agg bin_m rows).
Proof.
  apply Forall_forall. intros p Hp.
  pose proof (groupby_agg_row bin_m rows p Hp) as Hagg.
  assert (Hk : In (profile_key p) (dropna (map kr_key rows))).
  { apply (unique_in group_key_eq_dec).
    apply (Permutation_in _ (groupby_agg_keys bin_m rows)).
    apply in_map, Hp. }
  apply dropna_in, in_map_iff in Hk. destruct Hk as (r & Hr & Hin).
  assert (Hg : In r (filter (has_key (profile_key p)) rows)).
  { apply filter_In. split; [exact Hin|]. unfold has_key. rewrite Hr.
    destruct (group_key_eq_dec _ _); [reflexivity|congruence]. }
  rewrite Hagg. unfold aggregate. cbn [n_samples].
  destruct (filter _ rows); [destruct Hg|cbn; lia].
Qed.

Lemma groupby_agg_rows_ok (bin_m : float) (rows : list keyed_row) :
  Forall (fun r => kr_has_pkts r = 0%Z \/ kr_has_pkts r = 1%Z) rows ->
  Forall profile_row_ok (groupby_agg bin_m rows).
Proof.
  intros Hrows. apply Forall_forall. intros p Hp.
  pose proof (groupby_agg_row bin_m rows p Hp) as Hagg.
  assert (Hk : In (profile_key p) (dropna (map kr_key rows))).
  { apply (unique_in group_key_eq_dec).
    apply (Permutation_in _ (groupby_agg_keys bin_m rows)).
    apply in_map, Hp. }
  apply dropna_in, in_map_iff in Hk. destruct Hk as (r & Hr & Hin).
  assert (Hg : In r (filter (has_key (profile_key p)) rows)).
  { apply filter_In. split; [exact Hin|]. unfold has_key. rewrite Hr.
    destruct (group_key_eq_dec _ _); [reflexivity|congruence]. }
  rewrite Hagg. unfold profile_row_ok, aggregate.
  cbn [n_samples coverage_fraction].
  set (g := filter (has_key (profile_key p)) rows) in *.
  split; [destruct g; [destruct Hg|cbn; lia]|].
  rewrite <- (map_map kr_has_pkts (fun h => Fin (IZR h))).
  apply mean_of_flags.
  - destruct g; [destruct Hg|discriminate].
  - apply Forall_map. apply Forall_forall. intros x Hx.
    apply filter_In in Hx. destruct Hx as [Hx _].
    revert x Hx. apply Forall_forall. exact Hrows.
Qed.

Lemma nearest_profile_rows_ok (e : enhanced) (bin_m : float) :
  flags_ok (samples e) ->
  Forall profile_row_ok (build_range_profile_nearest e bin_m).
Proof.
  intros Hf. unfold build_range_profile_nearest. cbv zeta.
  apply groupby_agg_rows_ok. apply Forall_forall. intros r Hr.
  apply in_map_iff in Hr. destruct Hr as ([[s name] b] & <- & Hin).
  cbn [kr_has_pkts]. apply in_combine_l, in_combine_l in Hin.
  revert s Hin. apply Forall_forall. exact Hf.
Qed.

Lemma union_profile_rows_ok (e : enhanced) (bin_m : float)
      (out : list profile_row) :
  flags_ok (samples e) ->
  build_range_profile_union e bin_m = inr out ->
  Forall profile_row_ok out.
Proof.
  intros Hf. unfold build_range_profile_union.
  destruct (column e "dist_union_m") as [u|]; [|discriminate].
  cbv zeta. intros [= <-].
  apply groupby_agg_rows_ok. apply Forall_forall. intros r Hr.
  apply in_map_iff in Hr. destruct Hr as ([s b] & <- & Hin).
  cbn [kr_has_pkts]. apply in_combine_l in Hin.
  revert s Hin. apply Forall_forall. exact Hf.
Qed.

Lemma add_distance_keeps_samples (metrics : list sample) (rsus : list RSU)
      (e : enhanced) :
  add_distance_features_metrics metrics rsus = Some e -> samples e = metrics.
Proof.
  unfold add_distance_features_metrics.
  destruct (distance_matrix metrics rsus); [discriminate|].
  intros [= <-]. reflexivity.
Qed.

(** *** The union profile partitions the samples *)

Lemma union_rows_keys (e : enhanced) (u : list float) (w : R) :
  w <> 0%R -> length u = length (samples e) ->
  map kr_key (union_rows e u (Fin w)) = map (union_key w) u.
Proof.
  intros Hw. unfold union_rows. rewrite map_map.
  generalize (samples e). induction u as [|d u IH]; intros S Hl.
  - destruct S; [reflexivity|discriminate].
  - destruct S as [|s S]; [discriminate|].
    cbn [map combine kr_key]. rewrite IH by (cbn in Hl; lia). f_equal.
    destruct d as [|x]; [reflexivity|].
    rewrite (dist_bin_finite x w Hw). reflexivity.
Qed.

Lemma union_keys_count (w : R) (u : list float) :
  length (dropna (map (union_key w) u)) = length (finite_values u).
Proof.
  induction u as [|[|x] u IH]; cbn; [reflexivity|exact IH|now rewrite IH].
Qed.

Lemma union_keys_none (w : R) (u : list float) (k : group_key) :
  In k (dropna (map (union_key w) u)) -> fst k = None.
Proof.
  intros H. apply dropna_in, in_map_iff in H. destruct H as (d & Hd & _).
  destruct d; [discriminate|]. injection Hd as <-. reflexivity.
Qed.

Lemma sorted_bins (out : list profile_row) :
  Forall (fun p => pr_nearest_rsu p = None) out ->
  Sorted key_le (map profile_key out) ->
  Sorted Rle (map dist_bin_m out).
Proof.
  induction out as [|p out IH]; intros Hn Hs; [constructor|].
  inversion Hn as [|? ? Hp Hn']; subst.
  cbn [map] in *. inversion Hs as [|? ? Hs' Hhd]; subst.
  constructor; [apply IH; assumption|].
  destruct out as [|q out]; [constructor|].
  inversion Hhd as [|? ? Hpq]; subst. constructor.
  inversion Hn' as [|? ? Hq _]; subst.
  unfold profile_key in Hpq. rewrite Hp, Hq in Hpq.
  apply key_le_lexicographic in Hpq. destruct Hpq as [H|[_ H]];
    [discriminate|exact H].
Qed.

(** X14.  With a positive bin width, the union profile of a table with a
    union distance column partitions its samples: every row is keyed by a
    bin alone (no reference), the bins are distinct and ascending, the
    sample counts add up to the number of samples whose union distance is
    a number, and each such sample falls in the bin of exactly one row,
    whose lower edge is at most its distance and less than a bin width
    below it. *)
Theorem union_profile_partitions
        (e : enhanced) (bin_m : R) (u : list float) :
  (0 < bin_m)%R ->
  dist_union_m e = Some u -> length u = length (samples e) ->
  exists out,
    build_range_profile_union e (Fin bin_m) = inr out
    /\ total_samples out = length (finite_values u)
    /\ Forall (fun p => pr_nearest_rsu p = None) out
    /\ Sorted Rle (map dist_bin_m out)
    /\ NoDup (map dist_bin_m out)
    /\ forall i d,
        nth_error u i = Some (Fin d) ->
        (bin_edge d bin_m <= d < bin_edge d bin_m + bin_m)%R
        /\ exists p,
            In p out
            /\ dist_bin_m p = bin_edge d bin_m
            /\ 1 <= n_samples p.
Proof.
  intros Hw Hu Hl. assert (Hw0 : bin_m <> 0%R) by lra.
  unfold build_range_profile_union. rewrite (column_union_assigned e u Hu).
  cbv zeta. fold (union_rows e u (Fin bin_m)).
  set (rows := union_rows e u (Fin bin_m)).
  pose proof (union_rows_keys e u bin_m Hw0 Hl) as Hkeys. fold rows in Hkeys.
  set (out := groupby_agg (Fin bin_m) rows).
  assert (Hperm : Permutation (map profile_key out)
                              (unique group_key_eq_dec
                                      (dropna (map kr_key rows))))
    by apply groupby_agg_keys.
  assert (Hnone : Forall (fun p => pr_nearest_rsu p = None) out).
  { apply Forall_forall. intros p Hp.
    apply (union_keys_none bin_m u (profile_key p)).
    rewrite <- Hkeys. apply (unique_in group_key_eq_dec).
    apply (Permutation_in _ Hperm). apply in_map, Hp. }
  assert (Hnd : NoDup (map profile_key out)).
  { apply (Permutation_NoDup (Permutation_sym Hperm)), unique_nodup. }
  exists out. split; [reflexivity|].
  split; [unfold out; rewrite groupby_agg_total, Hkeys;
          apply union_keys_count|].
  split; [exact Hnone|].
  split; [apply sorted_bins; [exact Hnone|apply groupby_agg_sorted]|].
  split.
  { assert (E : map profile_key out
                = map (fun b => (None, b)) (map dist_bin_m out)).
    { rewrite map_map. apply map_ext_in. intros p Hp.
      unfold profile_key. f_equal.
      apply (proj1 (Forall_forall _ _) Hnone p Hp). }
    rewrite E in Hnd. apply NoDup_map_inv in Hnd. exact Hnd. }
  intros i d Hi. split; [now apply bin_edge_bounds|].
  set (k := (@None string, bin_edge d bin_m)).
  assert (Hin : In (Some k) (map kr_key rows)).
  { rewrite Hkeys. apply in_map_iff. exists (Fin d).
    split; [reflexivity|]. apply (nth_error_In _ _ Hi). }
  assert (Hk : In k (map profile_key out)).
  { apply (Permutation_in _ (Permutation_sym Hperm)).
    apply unique_in. now apply dropna_in. }
  apply in_map_iff in Hk. destruct Hk as (p & Hpk & Hp).
  exists p. split; [exact Hp|].
  split; [unfold profile_key in Hpk; injection Hpk as _ H; exact H|].
  pose proof (proj1 (Forall_forall _ _)
                    (groupby_agg_rows_ok_counts (Fin bin_m) rows) p Hp) as Hc.
  exact Hc.
Qed.

Lemma union_profile_partitions_witness :
  exists out,
    build_range_profile_union three_samples_union (Fin 50) = inr out
    /\ total_samples out = length (finite_values [Fin 10; Fin 60; Fin 120])
    /\ Forall (fun p => pr_nearest_rsu p = None) out
    /\ Sorted Rle (map dist_bin_m out)
    /\ NoDup (map dist_bin_m out)
    /\ forall i d,
        nth_error [Fin 10; Fin 60; Fin 120] i = Some (Fin d) ->
        (bin_edge d 50 <= d < bin_edge d 50 + 50)%R
        /\ exists p,
            In p out
            /\ dist_bin_m p = bin_edge d 50
            /\ 1 <= n_samples p.
Proof.
  apply (union_profile_partitions three_samples_union 50
                                  [Fin 10; Fin 60; Fin 120]).
  - lra.
  - reflexivity.
  - reflexivity.
Defined.

End UnionProofs.

(** ** Time features *)

Section TimeFeaturesProofs.
Import AnalyzeLoop TimelineSpec UnionSpec TimeFeatures TimeFeaturesSpec.
Local Open Scope nat_scope.

Variable raw : Type.
Variable to_datetime : list raw -> list (option Z).

Lemma parse_timestamp_series_length (ts : list raw) :
  keeps_length to_datetime ->
  length (parse_timestamp_series raw to_datetime ts) = length ts.
Proof.
  intros Hl. unfold parse_timestamp_series. cbv zeta.
  repeat match goal with
         | |- context [if ?b then _ else _] => destruct b
         end; rewrite ?one_hz_length; auto.
Qed.

Lemma diff_from_length (l : list (option Z)) :
  forall prev, length (diff_from prev l) = length l.
Proof.
  induction l as [|x l IH]; intros prev; cbn; [reflexivity|]. now rewrite IH.
Qed.

Lemma series_diff_length (l : list (option Z)) :
  length (series_diff l) = length l.
Proof.
  destruct l; cbn; [reflexivity|]. now rewrite diff_from_length.
Qed.

Lemma gaps_from_length (rows : list (float * float)) :
  forall current, length (gaps_from current rows) = length rows.
Proof.
  induction rows as [|[d dt] rows IH]; intros current; cbn; [reflexivity|].
  now rewrite IH.
Qed.

Lemma gaps_length (ds dts : list float) :
  length ds = length dts -> length (gaps ds dts) = length ds.
Proof.
  intros H. unfold gaps.
  destruct ds as [|d ds], dts as [|dt dts]; try discriminate; [reflexivity|].
  cbn [combine length]. rewrite gaps_from_length, length_combine.
  cbn in H. lia.
Qed.

Lemma map_snd_combine {A B C} (f : B -> C) (a : list A) :
  forall b : list B,
    length a = length b -> map (fun x => f (snd x)) (combine a b) = map f b.
Proof.
  induction a as [|x a IH]; intros [|y b] H; try discriminate; [reflexivity|].
  cbn. rewrite IH by (cbn in H; lia). reflexivity.
Qed.

Lemma map_fst_combine {A B C} (f : A -> C) (a : list A) :
  forall b : list B,
    length a = length b -> map (fun x => f (fst x)) (combine a b) = map f a.
Proof.
  induction a as [|x a IH]; intros [|y b] H; try discriminate; [reflexivity|].
  cbn. rewrite IH by (cbn in H; lia). reflexivity.
Qed.

(** The columns of the table returned, one by one. *)
Lemma compute_time_features_columns (metrics : list (metrics_in raw)) :
  keeps_length to_datetime ->
  let ts := parse_timestamp_series raw to_datetime
                                   (map (in_timestamp raw) metrics) in
  let dts := map (fun d => fillna (Fin 0) (total_seconds d)) (series_diff ts) in
  metrics <> [] ->
  exists timed,
    compute_time_features raw to_datetime metrics = Some timed
    /\ length timed = length metrics
    /\ map (fun x => timestamp (row x)) timed = ts
    /\ map (fun x => delta_bytes (row x)) timed
       = map (in_delta_bytes raw) metrics
    /\ map (fun x => has_pkts (row x)) timed
       = map (fun m => if gt_zero (in_delta_bytes raw m) then 1%Z else 0%Z)
             metrics
    /\ map dt_sec timed = dts
    /\ map (fun x => time_since_last_pkt (row x)) timed
       = gaps (map (in_delta_bytes raw) metrics) dts.
Proof.
  intros Hk ts dts Hne.
  pose proof (parse_timestamp_series_length
                (map (in_timestamp raw) metrics) Hk) as Hts.
  fold ts in Hts. rewrite length_map in Hts.
  unfold compute_time_features. fold ts. subst dts. clearbody ts.
  destruct ts as [|t0 ts'].
  { destruct metrics; [congruence|discriminate]. }
  cbv beta iota zeta.
  remember (t0 :: ts') as ts eqn:Ets.
  set (dts := map (fun d => fillna (Fin 0) (total_seconds d)) (series_diff ts)).
  set (tsec := map (fun t => total_seconds (tsub t t0)) ts).
  set (g := gaps (map (in_delta_bytes raw) metrics) dts).
  assert (Ldts : length dts = length metrics)
    by (unfold dts; now rewrite length_map, series_diff_length).
  assert (Ltsec : length tsec = length metrics)
    by (unfold tsec; now rewrite length_map).
  assert (Lg : length g = length metrics)
    by (unfold g; rewrite gaps_length; rewrite length_map; congruence).
  assert (L4 : length (combine dts g) = length metrics)
    by (rewrite length_combine; lia).
  assert (L3 : length (combine tsec (combine dts g)) = length metrics)
    by (rewrite length_combine; lia).
  assert (L2 : length (combine ts (combine tsec (combine dts g)))
               = length metrics)
    by (rewrite length_combine; lia).
  eexists. split; [reflexivity|].
  split; [rewrite length_map, length_combine; lia|].
  rewrite !map_map.
  split.
  { rewrite (map_ext _ (fun x => fst (snd x)))
      by (intros [m [t [s [dt gg]]]]; reflexivity).
    rewrite (map_snd_combine fst) by lia.
    rewrite (map_fst_combine (fun t => t)) by lia. apply map_id. }
  split.
  { rewrite (map_ext _ (fun x => in_delta_bytes raw (fst x)))
      by (intros [m [t [s [dt gg]]]]; reflexivity).
    apply map_fst_combine. lia. }
  split.
  { rewrite (map_ext _ (fun x => (fun m => if gt_zero (in_delta_bytes raw m)
                                           then 1%Z else 0%Z) (fst x)))
      by (intros [m [t [s [dt gg]]]]; reflexivity).
    apply (map_fst_combine
             (fun m => if gt_zero (in_delta_bytes raw m) then 1%Z else 0%Z)).
    lia. }
  split.
  { rewrite (map_ext _ (fun x => fst (snd (snd (snd x)))))
      by (intros [m [t [s [dt gg]]]]; reflexivity).
    rewrite (map_snd_combine (fun y => fst (snd (snd y)))) by lia.
    rewrite (map_snd_combine (fun y => fst (snd y))) by lia.
    rewrite (map_snd_combine fst) by lia.
    rewrite (map_fst_combine (fun t => t)) by lia. apply map_id. }
  rewrite (map_ext _ (fun x => snd (snd (snd (snd x)))))
    by (intros [m [t [s [dt gg]]]]; reflexivity).
  rewrite (map_snd_combine (fun y => snd (snd (snd y)))) by lia.
  rewrite (map_snd_combine (fun y => snd (snd y))) by lia.
  rewrite (map_snd_combine snd) by lia.
  rewrite (map_snd_combine (fun t => t)) by lia. apply map_id.
Qed.

Lemma compute_time_features_flags (metrics : list (metrics_in raw))
      (timed : list (timed_sample)) :
  compute_time_features raw to_datetime metrics = Some timed ->
  Forall (fun x => has_pkts (row x)
                   = if gt_zero (delta_bytes (row x)) then 1%Z else 0%Z) timed.
Proof.
  unfold compute_time_features.
  destruct (parse_timestamp_series _ _ _) as [|t0 ts']; [discriminate|].
  cbv zeta. intros [= <-]. apply Forall_forall. intros x Hx.
  apply in_map_iff in Hx. destruct Hx as ([m [t [s [dt g]]]] & <- & _).
  reflexivity.
Qed.

Lemma compute_time_features_flags_ok (metrics : list (metrics_in raw))
      (timed : list (timed_sample)) :
  compute_time_features raw to_datetime metrics = Some timed ->
  flags_ok (map row timed).
Proof.
  intros H. apply Forall_map.
  pose proof (compute_time_features_flags metrics timed H) as Hf.
  revert Hf. apply Forall_impl. intros x ->.
  destruct (gt_zero _); [right|left]; reflexivity.
Qed.

Lemma combine_nil_r {A B} (l : list A) : combine l (@nil B) = [].
Proof. destruct l; reflexivity. Qed.

Lemma gaps_from_anchor (zs : list Z) :
  forall (ds : list float) (zprev anchor : Z) (current : float),
    current = Fin (IZR (zprev - anchor) / IZR NS_PER_S) ->
    gaps_from current
              (combine ds (map (fun d => fillna (Fin 0) (total_seconds d))
                               (diff_from (Some zprev) (map Some zs))))
    = since_anchor anchor (combine zs ds).
Proof.
  induction zs as [|z zs IH]; intros ds zprev anchor current Hc.
  - cbn [map diff_from]. rewrite combine_nil_r. reflexivity.
  - destruct ds as [|d ds]; [reflexivity|].
    cbn [map diff_from combine gaps_from since_anchor tsub total_seconds
         fillna].
    destruct (gt_zero d).
    + f_equal. apply IH. rewrite Z.sub_diag. unfold Rdiv.
      rewrite Rmult_0_l. reflexivity.
    + assert (E : fadd current (Fin (IZR (z - zprev) / IZR NS_PER_S))
                  = Fin (IZR (z - anchor) / IZR NS_PER_S)).
      { rewrite Hc. cbn. f_equal. rewrite !minus_IZR. unfold NS_PER_S.
        field. }
      rewrite E. f_equal. apply IH. reflexivity.
Qed.

Lemma gaps_elapsed (zs : list Z) (ds : list float) :
  gaps ds (map (fun d => fillna (Fin 0) (total_seconds d))
               (series_diff (map Some zs)))
  = elapsed_since_packets (combine zs ds).
Proof.
  unfold gaps, elapsed_since_packets.
  destruct zs as [|z0 zs]; [cbn; now rewrite combine_nil_r|].
  destruct ds as [|d0 ds]; [reflexivity|].
  cbn [map series_diff combine]. f_equal.
  apply gaps_from_anchor. rewrite Z.sub_diag. unfold Rdiv.
  rewrite Rmult_0_l. reflexivity.
Qed.

Lemma time_features_columns_none (timed : list timed_sample) :
  keeps_length to_datetime ->
  compute_time_features raw to_datetime [] = Some timed -> False.
Proof.
  intros Hk. pose proof (parse_timestamp_series_length [] Hk) as Hl.
  unfold compute_time_features. cbn [map].
  destruct (parse_timestamp_series raw to_datetime []);
    [discriminate|discriminate].
Qed.

(** X15.  [compute_time_features] fails exactly on a table without rows
    (the [IndexError] of [iloc[0]]).  Otherwise it returns one row per
    input row, the timestamps being those [parse_timestamp_series] gives
    and the byte deltas kept; the packet flag is 1 where the delta is
    positive and 0 elsewhere (a NaN delta included); [dt_sec] is never
    NaN, and on the first row both [dt_sec] and [time_since_last_pkt]
    are 0. *)
Theorem time_features_shape (metrics : list (metrics_in raw)) :
  keeps_length to_datetime ->
  (compute_time_features raw to_datetime metrics = None <-> metrics = [])
  /\ forall timed,
      compute_time_features raw to_datetime metrics = Some timed ->
      length timed = length metrics
      /\ map (fun x => timestamp (row x)) timed
         = parse_timestamp_series raw to_datetime
                                  (map (in_timestamp raw) metrics)
      /\ map (fun x => delta_bytes (row x)) timed
         = map (in_delta_bytes raw) metrics
      /\ Forall (fun x => has_pkts (row x)
                          = if gt_zero (delta_bytes (row x)) then 1%Z
                            else 0%Z) timed
      /\ Forall (fun x => dt_sec x <> NaN) timed
      /\ (forall x, hd_error timed = Some x ->
                    dt_sec x = Fin 0 /\ time_since_last_pkt (row x) = Fin 0).
Proof.
  intros Hk. destruct metrics as [|m0 metrics'] eqn:Em.
  - assert (Hnone : compute_time_features raw to_datetime [] = None).
    { pose proof (parse_timestamp_series_length [] Hk) as Hl.
      unfold compute_time_features. cbn [map].
      destruct (parse_timestamp_series raw to_datetime []);
        [reflexivity|discriminate]. }
    split; [split; [reflexivity|intros _; exact Hnone]|].
    intros timed H. rewrite Hnone in H. discriminate.
  - rewrite <- Em.
    destruct (compute_time_features_columns metrics Hk)
      as (timed & Hc & Hlen & Hts & Hd & Hp & Hdt & Hg);
      [rewrite Em; discriminate|].
    split; [split; [rewrite Hc; discriminate|rewrite Em; discriminate]|].
    intros timed' H. rewrite Hc in H. injection H as <-.
    split; [exact Hlen|]. split; [exact Hts|]. split; [exact Hd|].
    split; [apply (compute_time_features_flags metrics timed Hc)|].
    assert (Hfin : Forall (fun v => v <> NaN) (map dt_sec timed)).
    { rewrite Hdt. apply Forall_map. apply Forall_forall. intros d _.
      destruct d as [ns|]; cbn; discriminate. }
    split; [exact (proj1 (Forall_map _ _ _) Hfin)|].
    intros x Hx. destruct timed as [|x' timed']; [discriminate|].
    injection Hx as ->.
    pose proof (parse_timestamp_series_length
                  (map (in_timestamp raw) metrics) Hk) as Hl.
    rewrite length_map in Hl.
    destruct (parse_timestamp_series raw to_datetime
                                     (map (in_timestamp raw) metrics))
      as [|t0 ts']; [rewrite Em in Hl; discriminate|].
    rewrite Em in Hg. cbn in Hdt, Hg.
    injection Hdt as Hdt _. injection Hg as Hg _. split; assumption.
Qed.

(** X16.  When every timestamp of the table is parsed,
    [time_since_last_pkt] is on every row the time elapsed since the last
    row that saw packets (since the first row when none did yet), and 0
    on the rows with packets: summing [dt_sec] row by row gives the
    difference of the two timestamps. *)
Theorem gap_is_time_since_packets
        (metrics : list (metrics_in raw)) (zs : list Z)
        (timed : list timed_sample) :
  keeps_length to_datetime ->
  parse_timestamp_series raw to_datetime (map (in_timestamp raw) metrics)
  = map Some zs ->
  compute_time_features raw to_datetime metrics = Some timed ->
  map (fun x => time_since_last_pkt (row x)) timed
  = elapsed_since_packets (combine zs (map (in_delta_bytes raw) metrics)).
Proof.
  intros Hk Hz Hc.
  destruct metrics as [|m0 metrics'] eqn:Em.
  { destruct (time_features_columns_none timed Hk Hc). }
  rewrite <- Em in *.
  destruct (compute_time_features_columns metrics Hk)
    as (timed' & Hc' & _ & _ & _ & _ & _ & Hg);
    [rewrite Em; discriminate|].
  rewrite Hc in Hc'. injection Hc' as <-.
  rewrite Hg, Hz. apply gaps_elapsed.
Qed.

(** X17.  Through the pipeline of [main], every row of the nearest
    profile, and of the union profile when there is one, counts at least
    one sample and has a coverage fraction between 0 and 1. *)
Theorem profile_rows_are_fractions
        (metrics : list (metrics_in raw)) (timed : list timed_sample)
        (rsus : list RSU) (e : enhanced) (bin_m : float) :
  compute_time_features raw to_datetime metrics = Some timed ->
  add_distance_features_metrics (map row timed) rsus = Some e ->
  Forall profile_row_ok (build_range_profile_nearest e bin_m)
  /\ forall out,
      build_range_profile_union e bin_m = inr out ->
      Forall profile_row_ok out.
Proof.
  intros Hc Ha.
  assert (Hf : flags_ok (samples e)).
  { rewrite (add_distance_keeps_samples _ _ _ Ha).
    apply (compute_time_features_flags_ok metrics timed Hc). }
  split; [apply nearest_profile_rows_ok, Hf|].
  intros out. apply union_profile_rows_ok, Hf.
Qed.

End TimeFeaturesProofs.

Section TimeFeaturesExamples.
Import AnalyzeLoop TimelineSpec UnionSpec TimeFeatures TimeFeaturesSpec.
Local Open Scope nat_scope.

Lemma time_features_shape_witness :
  (compute_time_features (option Z) (fun l => l) four_rows = None
   <-> four_rows = [])
  /\ forall timed,
      compute_time_features (option Z) (fun l => l) four_rows = Some timed ->
      length timed = length four_rows
      /\ map (fun x => timestamp (row x)) timed
         = parse_timestamp_series (option Z) (fun l => l)
                                  (map (in_timestamp (option Z)) four_rows)
      /\ map (fun x => delta_bytes (row x)) timed
         = map (in_delta_bytes (option Z)) four_rows
      /\ Forall (fun x => has_pkts (row x)
                          = if gt_zero (delta_bytes (row x))
                            then 1%Z else 0%Z) timed
      /\ Forall (fun x => dt_sec x <> NaN) timed
      /\ (forall x, hd_error timed = Some x ->
                    dt_sec x = Fin 0
                    /\ time_since_last_pkt (row x) = Fin 0).
Proof.
  apply (time_features_shape (option Z) (fun l => l) four_rows).
  intros l. reflexivity.
Defined.

Lemma gap_is_time_since_packets_witness :
  map (fun x => time_since_last_pkt (row x))
      (match compute_time_features (option Z) (fun l => l) four_rows with
       | Some timed => timed
       | None => []
       end)
  = elapsed_since_packets
      (combine [0; 1000000000; 2000000000; 3000000000]%Z
               (map (in_delta_bytes (option Z)) four_rows)).
Proof.
  apply (gap_is_time_since_packets (option Z) (fun l => l) four_rows).
  - intros l. reflexivity.
  - reflexivity.
  - reflexivity.
Defined.

Lemma profile_rows_are_fractions_witness :
  Forall profile_row_ok
         (build_range_profile_nearest
            (match add_distance_features_metrics
                     (map row
                          (match compute_time_features (option Z) (fun l => l)
                                                       four_rows with
                           | Some timed => timed
                           | None => []
                           end))
                     [EnhancerSpec.rsu1; EnhancerSpec.rsu2] with
             | Some e => e
             | None => three_samples_union
             end) (Fin 50))
  /\ forall out,
      build_range_profile_union
        (match add_distance_features_metrics
                 (map row
                      (match compute_time_features (option Z) (fun l => l)
                                                   four_rows with
                       | Some timed => timed
                       | None => []
                       end))
                 [EnhancerSpec.rsu1; EnhancerSpec.rsu2] with
         | Some e => e
         | None => three_samples_union
         end) (Fin 50) = inr out ->
      Forall profile_row_ok out.
Proof.
  apply (profile_rows_are_fractions (option Z) (fun l => l) four_rows
           (match compute_time_features (option Z) (fun l => l) four_rows with
            | Some timed => timed
            | None => []
            end)
           [EnhancerSpec.rsu1; EnhancerSpec.rsu2]).
  - reflexivity.
  - reflexivity.
Defined.

End TimeFeaturesExamples.

(** ** The elevation cache *)

Section CacheProofs.
Import AnalyzeLoop EnhancerSpec ElevationSpec CacheSpec.
Local Open Scope nat_scope.

Variable fetch : nat -> float -> float -> option float.
Variable max_retries : Z.
Variable sleep_s : R.

Lemma fold_cache_get_other (missing : list coord) (key : coord) :
  forall st : resolver_state,
    ~ In key missing ->
    cache_get (cache_now (fold_left (resolve_point fetch max_retries sleep_s)
                                    missing st)) key
    = cache_get (cache_now st) key.
Proof.
  induction missing as [|k missing IH]; intros st Hn; [reflexivity|].
  cbn [fold_left]. rewrite IH by (intros H; apply Hn; now right).
  destruct (resolve_point_cache fetch max_retries sleep_s st k) as (v & -> & _).
  apply cache_get_set_other. intros ->. apply Hn. now left.
Qed.

Lemma cache_get_set_real (c : elev_cache) (key : coord) (v : float) :
  coord_eqb key key = true -> cache_get (cache_set c key v) key = Some v.
Proof.
  intros Hk. induction c as [|[k v'] c IH]; cbn.
  - rewrite Hk. reflexivity.
  - destruct (coord_eqb k key) eqn:E; cbn; rewrite E; [reflexivity|exact IH].
Qed.

Lemma fold_cache_mem (missing : list coord) (key : coord) :
  coord_eqb key key = true ->
  forall st : resolver_state,
    In key missing \/ cache_mem (cache_now st) key = true ->
    cache_mem (cache_now (fold_left (resolve_point fetch max_retries sleep_s)
                                    missing st)) key = true.
Proof.
  intros Hk. induction missing as [|k missing IH]; intros st H.
  - destruct H as [[]|H]. exact H.
  - cbn [fold_left]. apply IH.
    destruct (resolve_point_cache fetch max_retries sleep_s st k)
      as (v & Hc & _).
    destruct (coord_eq_dec k key) as [->|Hne].
    + right. unfold cache_mem. rewrite Hc, cache_get_set_real by exact Hk.
      reflexivity.
    + destruct H as [[H|H]|H]; [congruence|now left|].
      right. unfold cache_mem in *. rewrite Hc.
      rewrite cache_get_set_other by exact Hne. exact H.
Qed.

Lemma located_key (round_decimals : Z) (s : sample) :
  located s ->
  coord_eqb (key_of_sample round_decimals s) (key_of_sample round_decimals s)
  = true.
Proof.
  intros [Hla Hlo]. unfold key_of_sample, coord_eqb, round_decimals_of.
  cbn [fst snd]. destruct (latitude s); [discriminate|].
  destruct (longitude s); [discriminate|]. cbn.
  destruct (Req_dec_T _ _); [|congruence].
  destruct (Req_dec_T _ _); [reflexivity|congruence].
Qed.

Lemma rint_IZR (n : Z) : rint (IZR n) = n.
Proof.
  unfold rint. rewrite ZfloorZ. cbv zeta.
  replace (IZR n - IZR n)%R with 0%R by lra.
  destruct (Rlt_dec 0 (1 / 2)); [reflexivity|lra].
Qed.

Lemma cached_sample_in_cache :
  cache_get one_point_cache (key_of_sample 0 cached_sample) = Some (Fin 300).
Proof.
  unfold key_of_sample, cached_sample, round_decimals_of.
  cbn [latitude longitude lift1 powerRZ].
  replace (36 * 1)%R with (IZR 36) by lra.
  replace (-97 * 1)%R with (IZR (-97)) by lra.
  rewrite !rint_IZR. unfold one_point_cache, cache_get, coord_eqb.
  cbn [fst snd py_float_eqb].
  destruct (Req_dec_T 36 (36 / 1)) as [_|H]; [|exfalso; apply H; lra].
  destruct (Req_dec_T (-97) (-97 / 1)) as [_|H]; [|exfalso; apply H; lra].
  reflexivity.
Qed.

Lemma filter_none {A} (f : A -> bool) (l : list A) :
  (forall x, In x l -> f x = false) -> filter f l = [].
Proof.
  induction l as [|x l IH]; intros H; [reflexivity|].
  cbn. rewrite (H x) by now left. apply IH. intros y Hy. apply H. now right.
Qed.

(** X18.  A row whose rounded coordinate is in the cache the batch
    starts from gets the cached elevation; the service is not queried for
    that coordinate, and the cache saved still holds the same value for
    it: a batch only adds to the cache. *)
Theorem cached_rows_cost_nothing
        (df : list sample) (round_decimals : Z) (cache : elev_cache)
        (i : nat) (s : sample) (v : float) :
  nth_error df i = Some s ->
  cache_get cache (key_of_sample round_decimals s) = Some v ->
  let res := add_elevation_column fetch df round_decimals sleep_s cache
                                  max_retries in
  nth_error (elevation_m res) i = Some v
  /\ cache_get (cache_saved res) (key_of_sample round_decimals s) = Some v
  /\ queries_to (key_of_sample round_decimals s) (io_done res) = 0.
Proof.
  intros Hi Hv res.
  set (key := key_of_sample round_decimals s) in *.
  set (missing := missing_coords round_decimals cache df).
  assert (Hn : ~ In key missing).
  { intros H. apply missing_in in H. destruct H as [_ H].
    unfold cache_mem in H. rewrite Hv in H. discriminate. }
  assert (Hget : cache_get (cache_saved res) key = Some v).
  { unfold res, add_elevation_column. cbn [cache_saved].
    fold missing. rewrite fold_cache_get_other by exact Hn. exact Hv. }
  split; [|split; [exact Hget|]].
  - unfold res, add_elevation_column in *. cbn [elevation_m cache_saved] in *.
    unfold rounded_coords. rewrite map_map.
    rewrite nth_error_map, Hi. cbn [option_map].
    fold (key_of_sample round_decimals s). fold key. rewrite Hget.
    reflexivity.
  - destruct (fold_io fetch max_retries sleep_s missing (start_state cache))
      as (io & Hio & Hshape).
    assert (Eio : io_done res = io) by exact Hio.
    rewrite Eio.
    apply (batch_shape_count _ sleep_s missing io key
             (missing_nodup round_decimals cache df) Hshape).
    exact Hn.
Qed.

(** X19.  After a batch over a table whose rows all have coordinates,
    every rounded coordinate of the table is in the cache saved, the
    failed ones with NaN.  A later batch over the same table that starts
    from that cache therefore finds nothing missing: it makes no query and
    no pause, returns the same elevations and leaves the cache as it was,
    whatever the service would answer then; a coordinate that failed is
    not tried again. *)
Theorem rerun_is_free
        (fetch' : nat -> float -> float -> option float)
        (max_retries' : Z) (sleep_s' : R)
        (df : list sample) (round_decimals : Z) (cache : elev_cache) :
  Forall located df ->
  let res := add_elevation_column fetch df round_decimals sleep_s cache
                                  max_retries in
  let again := add_elevation_column fetch' df round_decimals sleep_s'
                                    (cache_saved res) max_retries' in
  missing_coords round_decimals (cache_saved res) df = []
  /\ io_done again = []
  /\ elevation_m again = elevation_m res
  /\ cache_saved again = cache_saved res.
Proof.
  intros Hloc res again.
  assert (Hm : missing_coords round_decimals (cache_saved res) df = []).
  { unfold missing_coords. apply filter_none. intros key Hkey.
    apply unique_in in Hkey. unfold rounded_coords in Hkey.
    apply in_map_iff in Hkey. destruct Hkey as (s & Hs & Hin).
    fold (key_of_sample round_decimals s) in Hs.
    apply negb_false_iff.
    unfold res, add_elevation_column. cbn [cache_saved].
    apply fold_cache_mem.
    - rewrite <- Hs. apply located_key.
      apply (proj1 (Forall_forall _ _) Hloc s Hin).
    - destruct (cache_mem cache key) eqn:E; [now right|left].
      apply missing_in. split; [exists s; split; assumption|exact E]. }
  split; [exact Hm|].
  unfold again, add_elevation_column. rewrite Hm.
  cbn [fold_left io_done elevation_m cache_saved cache_now io_log].
  repeat split; reflexivity.
Qed.

End CacheProofs.

Section CacheExamples.
Import AnalyzeLoop EnhancerSpec ElevationSpec CacheSpec.
Local Open Scope nat_scope.

Lemma cached_rows_cost_nothing_witness :
  nth_error (elevation_m
               (add_elevation_column (fun _ _ _ => None) [cached_sample] 0
                                     0.12 one_point_cache 3)) 0
  = Some (Fin 300)
  /\ cache_get (cache_saved
                  (add_elevation_column (fun _ _ _ => None) [cached_sample] 0
                                        0.12 one_point_cache 3))
               (key_of_sample 0 cached_sample) = Some (Fin 300)
  /\ queries_to (key_of_sample 0 cached_sample)
                (io_done
                   (add_elevation_column (fun _ _ _ => None) [cached_sample] 0
                                         0.12 one_point_cache 3)) = 0.
Proof.
  apply (cached_rows_cost_nothing (fun _ _ _ => None) 3 0.12
                                  [cached_sample] 0 one_point_cache 0
                                  cached_sample (Fin 300)).
  - reflexivity.
  - apply cached_sample_in_cache.
Defined.

Lemma rerun_is_free_witness :
  missing_coords 5 (cache_saved
                      (add_elevation_column (fun _ _ _ => None)
                                            [cached_sample] 5 0.12 [] 3))
                 [cached_sample] = []
  /\ io_done (add_elevation_column
                (fun _ _ _ => Some (Fin 300)) [cached_sample] 5 0.12
                (cache_saved
                   (add_elevation_column (fun _ _ _ => None)
                                         [cached_sample] 5 0.12 [] 3)) 3) = []
  /\ elevation_m (add_elevation_column
                    (fun _ _ _ => Some (Fin 300)) [cached_sample] 5 0.12
                    (cache_saved
                       (add_elevation_column (fun _ _ _ => None)
                                             [cached_sample] 5 0.12 [] 3)) 3)
     = elevation_m (add_elevation_column (fun _ _ _ => None)
                                         [cached_sample] 5 0.12 [] 3)
  /\ cache_saved (add_elevation_column
                    (fun _ _ _ => Some (Fin 300)) [cached_sample] 5 0.12
                    (cache_saved
                       (add_elevation_column (fun _ _ _ => None)
                                             [cached_sample] 5 0.12 [] 3)) 3)
     = cache_saved (add_elevation_column (fun _ _ _ => None)
                                         [cached_sample] 5 0.12 [] 3).
Proof.
  apply (rerun_is_free (fun _ _ _ => None) 3 0.12
                       (fun _ _ _ => Some (Fin 300)) 3 0.12
                       [cached_sample] 5 []).
  repeat constructor.
Defined.

End CacheExamples.

(** ** Reference points from the command line *)

Section RsuArgsProofs.
Import Stdlib.Strings.Ascii.
Import AnalyzeLoop RsuArgs.
Local Open Scope nat_scope.

Variable strip : string -> string.
Variable float_of_string : string -> option float.

Lemma parse_items_spec (rsu_args : list string) :
  forall (acc rsus : list RSU),
    parse_items strip float_of_string rsu_args acc = inr rsus ->
    exists parsed,
      rsus = acc ++ parsed
      /\ Forall2 (fun item r => parse_item strip float_of_string item = Some r)
                 rsu_args parsed.
Proof.
  induction rsu_args as [|item rest IH]; intros acc rsus H.
  - cbn in H. injection H as <-. exists []. rewrite app_nil_r.
    split; [reflexivity|constructor].
  - cbn [parse_items] in H.
    destruct (parse_item strip float_of_string item) as [r|] eqn:E;
      [|discriminate].
    destruct (IH _ _ H) as (parsed & -> & HF).
    exists (r :: parsed). rewrite <- app_assoc. split; [reflexivity|].
    constructor; assumption.
Qed.

Lemma parse_items_bad (good : list string) :
  forall (acc : list RSU) (bad : string) (rest : list string),
    Forall (fun item => parse_item strip float_of_string item <> None) good ->
    parse_item strip float_of_string bad = None ->
    parse_items strip float_of_string (good ++ bad :: rest) acc
    = inl (ValueError ("Bad --rsu format: " ++ bad
                       ++ ". Expected RSU_ID:lat,lon")).
Proof.
  induction good as [|g good IH]; intros acc bad rest Hg Hb.
  - cbn [app parse_items]. rewrite Hb. reflexivity.
  - inversion Hg as [|? ? Hg1 Hg2]; subst. cbn [app parse_items].
    destruct (parse_item strip float_of_string g); [|congruence].
    apply IH; assumption.
Qed.

Lemma split_on_cons (c : Ascii.ascii) (s : string) :
  exists x l, split_on c s = x :: l.
Proof.
  destruct s as [|a rest]; cbn; [eauto|].
  destruct (Ascii.eqb a c); [eauto|].
  destruct (split_on c rest); eauto.
Qed.

Lemma split_on_join (c : Ascii.ascii) (s : string) :
  String.concat (String c EmptyString) (split_on c s) = s.
Proof.
  induction s as [|a rest IH]; [reflexivity|].
  cbn [split_on].
  destruct (split_on_cons c rest) as (x & l & Hx). rewrite Hx in *.
  destruct (Ascii.eqb a c) eqn:E.
  - apply Ascii.eqb_eq in E. subst a.
    cbn [String.concat]. cbn [String.append]. f_equal. exact IH.
  - destruct l as [|y l]; cbn [String.concat] in *.
    + f_equal. exact IH.
    + cbn [String.append]. f_equal. exact IH.
Qed.

Lemma split_on_two (c : Ascii.ascii) (s : string) :
  forall a b, split_on c s = [a; b] -> s = (a ++ String c b)%string.
Proof.
  intros a b H. pose proof (split_on_join c s) as J. rewrite H in J.
  cbn [String.concat] in J. cbn [String.append] in J. symmetry. exact J.
Qed.

Lemma parse_item_reads (item : string) (r : RSU) :
  parse_item strip float_of_string item = Some r ->
  reads_as strip float_of_string item r.
Proof.
  unfold parse_item.
  destruct (split_on ":" item) as [|name [|coords [|? ?]]] eqn:E1;
    try discriminate.
  destruct (split_on "," coords) as [|lat_s [|lon_s [|? ?]]] eqn:E2;
    try discriminate.
  destruct (float_of_string lat_s) as [la|] eqn:Ela; [|discriminate].
  destruct (float_of_string lon_s) as [lo|] eqn:Elo; [|discriminate].
  intros [= <-]. exists name, lat_s, lon_s.
  apply split_on_two in E1. apply split_on_two in E2. subst coords.
  repeat split; assumption.
Qed.

(** X20.  When [parse_rsus] returns, it returns one reference per
    argument, in the order given, each read from an argument of the form
    [id:lat,lon] (the id stripped, both numerals accepted by [float]),
    and at least one reference: the distance step that follows never
    fails for want of a reference. *)
Theorem parsed_references_feed_distances
        (rsu_args : list string) (rsus : list RSU) :
  parse_rsus strip float_of_string rsu_args = inr rsus ->
  Forall2 (reads_as strip float_of_string) rsu_args rsus
  /\ length rsus = length rsu_args
  /\ rsus <> []
  /\ forall metrics, add_distance_features_metrics metrics rsus <> None.
Proof.
  unfold parse_rsus. intros H.
  destruct (parse_items strip float_of_string rsu_args []) as [e|out] eqn:E;
    [discriminate|].
  destruct out as [|r out]; [discriminate|]. injection H as <-.
  destruct (parse_items_spec rsu_args [] _ E) as (parsed & Hp & HF).
  cbn [app] in Hp. subst parsed.
  split; [revert HF; apply Forall2_impl; apply parse_item_reads|].
  split; [symmetry; apply (Forall2_length HF)|].
  split; [discriminate|].
  intros metrics. unfold add_distance_features_metrics. cbn. discriminate.
Qed.

(** X21.  [parse_rsus] raises on the first argument that is not of the
    form [id:lat,lon], naming it, whatever follows it; and it raises when
    no argument is given. *)
Theorem bad_reference_argument_raises
        (good : list string) (bad : string) (rest : list string) :
  Forall (fun item => parse_item strip float_of_string item <> None) good ->
  parse_item strip float_of_string bad = None ->
  parse_rsus strip float_of_string (good ++ bad :: rest)
  = inl (ValueError ("Bad --rsu format: " ++ bad
                     ++ ". Expected RSU_ID:lat,lon"))
  /\ parse_rsus strip float_of_string []
     = inl (ValueError "No RSUs provided. Use --rsu or --rsu-json.").
Proof.
  intros Hg Hb. split; [|reflexivity].
  unfold parse_rsus. rewrite parse_items_bad by assumption. reflexivity.
Qed.

End RsuArgsProofs.

Section RsuArgsExamples.
Import AnalyzeLoop RsuArgs.
Local Open Scope nat_scope.
Local Open Scope string_scope.

Lemma parsed_references_feed_distances_witness :
  Forall2 (reads_as strip_id float_of_example)
          ["RSU1:36.11,-97.15"]
          [{| rsu_id := "RSU1"; lat := Fin 36.11; lon := Fin (-97.15) |}]
  /\ length [{| rsu_id := "RSU1"; lat := Fin 36.11; lon := Fin (-97.15) |}]
     = length ["RSU1:36.11,-97.15"]
  /\ [{| rsu_id := "RSU1"; lat := Fin 36.11; lon := Fin (-97.15) |}] <> []
  /\ forall metrics,
      add_distance_features_metrics
        metrics [{| rsu_id := "RSU1"; lat := Fin 36.11; lon := Fin (-97.15) |}]
      <> None.
Proof.
  apply (parsed_references_feed_distances strip_id float_of_example).
  reflexivity.
Defined.

Lemma bad_reference_argument_raises_witness :
  parse_rsus strip_id float_of_example
             (["RSU1:36.11,-97.15"] ++ "RSU2" :: ["RSU3:36.11,-97.15"])
  = inl (ValueError ("Bad --rsu format: " ++ "RSU2"
                     ++ ". Expected RSU_ID:lat,lon"))
  /\ parse_rsus strip_id float_of_example []
     = inl (ValueError "No RSUs provided. Use --rsu or --rsu-json.").
Proof.
  apply (bad_reference_argument_raises strip_id float_of_example).
  - repeat constructor. discriminate.
  - reflexivity.
Defined.

End RsuArgsExamples.

(** ** A log that needs no repair *)

Section CleanLog.
Import AnalyzeLoop TimelineSpec CleanLogSpec.
Local Open Scope nat_scope.

Lemma dropna_some {A} (v : list A) : dropna (map Some v) = v.
Proof.
  induction v as [|x v IH]; [reflexivity|]. cbn. now rewrite IH.
Qed.

Lemma count_true_isna_some {A} (v : list A) :
  count_true (map isna (map Some v)) = 0.
Proof.
  induction v as [|x v IH]; [reflexivity|]. exact IH.
Qed.

Lemma sorted_distinct_diffs (s : list Z) :
  Sorted (fun a b => Z.leb a b = true) s -> NoDup s ->
  Forall (fun d => (0 < d)%Z) (consecutive_diffs s).
Proof.
  induction s as [|a s IH]; intros Hs Hn; [constructor|].
  destruct s as [|b s]; [constructor|].
  cbn [consecutive_diffs].
  inversion Hs as [|? ? Hs' Hhd]; subst.
  inversion Hn as [|? ? Hnotin Hn']; subst.
  constructor; [|apply IH; assumption].
  inversion Hhd as [|? ? Hab]; subst. apply Z.leb_le in Hab.
  assert (a <> b) by (intros ->; apply Hnotin; now left). lia.
Qed.

Lemma distinct_ns_diffs (v : list Z) :
  NoDup v -> Forall (fun d => (0 < d)%Z) (ns_diffs (map Some v)).
Proof.
  intros Hn. unfold ns_diffs. rewrite dropna_some.
  apply sorted_distinct_diffs.
  { apply sort_by_sorted. intros a b.
    destruct (Z.leb_spec a b); [left; reflexivity|right; apply Z.leb_le; lia]. }
  apply (Permutation_NoDup (Permutation_sym (sort_by_perm Z.leb v))), Hn.
Qed.

Lemma count_zero_positive (ds : list Z) :
  Forall (fun d => (0 < d)%Z) ds -> count_true (map (Z.eqb 0) ds) = 0.
Proof.
  induction 1 as [|d ds Hd _ IH]; [reflexivity|].
  unfold count_true in *. cbn [map filter].
  destruct (Z.eqb_spec 0 d); [lia|exact IH].
Qed.

Lemma nth_positive (l : list Q) (i : nat) :
  Forall (fun q => 0 < q)%Q l -> i < length l -> (0 < nth i l 0)%Q.
Proof.
  intros Hl Hi. apply (proj1 (Forall_forall _ _) Hl). apply nth_In, Hi.
Qed.

Lemma median_positive (l : list Q) :
  l <> [] -> Forall (fun q => 0 < q)%Q l -> (0 < median l)%Q.
Proof.
  intros Hne Hl. unfold median. cbv zeta.
  set (s := sort_by Qle_bool l).
  assert (Hs : Forall (fun q => 0 < q)%Q s).
  { apply Forall_forall. intros q Hq.
    apply (proj1 (Forall_forall _ _) Hl).
    apply (Permutation_in q (sort_by_perm Qle_bool l)), Hq. }
  assert (Hlen : 0 < length s).
  { unfold s. rewrite sort_by_length. destruct l; [congruence|cbn; lia]. }
  assert (Hhalf : length s / 2 < length s)
    by (apply Nat.div_lt; lia).
  destruct (Nat.even (length s)).
  - assert (H1 : (0 < nth (length s / 2 - 1) s 0)%Q)
      by (apply nth_positive; [exact Hs|lia]).
    assert (H2 : (0 < nth (length s / 2) s 0)%Q)
      by (apply nth_positive; [exact Hs|lia]).
    apply Qlt_shift_div_l; [reflexivity|]. rewrite Qmult_0_l.
    apply (Qlt_trans _ (0 + nth (length s / 2) s 0)%Q).
    + rewrite Qplus_0_l. exact H2.
    + apply Qplus_lt_l. exact H1.
  - apply nth_positive; assumption.
Qed.

Lemma distinct_not_coarse (v : list Z) :
  NoDup v -> ~ too_coarse (map Some v).
Proof.
  intros Hn [Hne [Hlt|Hmed]].
  - rewrite (count_zero_positive _ (distinct_ns_diffs v Hn)) in Hlt. lia.
  - assert (Hpos : (0 < median (sorted_diffs (map Some v)))%Q).
    { apply median_positive.
      - unfold sorted_diffs. fold (ns_diffs (map Some v)).
        destruct (ns_diffs (map Some v)); [congruence|discriminate].
      - unfold sorted_diffs. fold (ns_diffs (map Some v)).
        apply Forall_map.
        pose proof (distinct_ns_diffs v Hn) as Hd.
        revert Hd. apply Forall_impl. intros d Hd.
        apply Qlt_shift_div_l; [reflexivity|]. rewrite Qmult_0_l.
        change 0%Q with (inject_Z 0). rewrite <- Zlt_Qlt. exact Hd. }
    rewrite Hmed in Hpos. discriminate.
Qed.

(** X22.  A log whose timestamps are all parsed and pairwise distinct is
    not repaired: [parse_timestamp_series] returns the parsed timestamps
    as they are, row for row, in the order of the rows (which need not be
    the order of time). *)
Theorem clean_log_is_kept
        (raw : Type) (to_datetime : list raw -> list (option Z))
        (ts : list raw) (v : list Z) :
  to_datetime ts = map Some v -> NoDup v ->
  parse_timestamp_series raw to_datetime ts = map Some v.
Proof.
  intros Ht Hn.
  destruct (parse_timestamp_series_cases raw to_datetime ts) as (_ & _ & H).
  rewrite <- Ht. apply H; rewrite Ht.
  - unfold mostly_unparsed. rewrite count_true_isna_some. lia.
  - apply distinct_not_coarse, Hn.
Qed.

Lemma clean_log_is_kept_witness :
  parse_timestamp_series (option Z) (fun l => l) (map Some shuffled_seconds)
  = map Some shuffled_seconds.
Proof.
  apply (clean_log_is_kept (option Z) (fun l => l) (map Some shuffled_seconds)
                           shuffled_seconds).
  - reflexivity.
  - unfold shuffled_seconds.
    repeat (constructor; [cbn; intuition discriminate|]). constructor.
Defined.

End CleanLog.
